(** * Phrase grouping, duplicate reduction and multiline joining (PDFSEE)

    A shallow embedding of the grouping / de-duplication heuristics of the
    PDFSEE scripts:

    - [ocr_server.py]: [group_texts_into_phrases];
    - [enhanced_multiline_ocr.py]: [group_multiline_texts];
    - [Automapper.py]: [query_llm] and the per-page multipass loop of
      [process_all_pdfs];
    - [run_multi_scan.py] / [deduplication_demo.py]: [text_similarity],
      [deduplicate_texts];
    - [run_enhanced_multi_scan.py]: [identify_multiline_room_names],
      [is_room_code];

    and, around them, [scan_with_offset_grid], [grid_scan_pdf],
    [deduplicate_room_names], [merge_adjacent_texts], [group_nearby_texts],
    [is_valid_room_name], [is_room_name], [group_multiline_texts_fast],
    [hex_to_rgb], [extract_sign_type_pages] and the dot, legend and cache
    bookkeeping of [process_all_pdfs].

    Modelling conventions.  Python numbers (coordinates, confidences,
    thresholds) are floats or whole numbers.  A finite double is the rational
    [Q] it denotes, and a comparison of numbers is the comparison of these
    rationals.  In the grouping, merging and joining code and in the page
    loop of [Automapper.py] an arithmetic operation gives the double nearest
    to its exact result ([fadd], [fsub], [fmul], [fdiv]); results beyond the
    range of doubles are not modelled.  The duplicate reducer, the scan
    grids, the position keys and the colour conversion are modelled with the
    exact operations on [Q]; there a comparison [math.sqrt(s) < t] is the
    comparison of [s] with the square of a positive [t].  Python lists
    are lists, [set]s of indices are [gset nat], dictionaries with a fixed
    set of keys are records (a key read with [.get(k, default)] is an
    [option] field).  Texts are strings of ASCII characters.  A Python
    exception is the [None] of an [option] result; where the kind of
    exception matters ([query_llm]) it is the [Raise] of a result type. *)

From Stdlib Require Import QArith Qabs Qminmax Qround Qpower Lia Lqa Ascii.
From stdpp Require Import base decidable option list gmap sets strings.

(* stdpp's solvers clear hypotheses that are not always there. *)
#[global] Set Warnings "-clear-no-such-hyp".

(** ** Numbers *)

Definition Qltb (a b : Q) : bool := negb (Qle_bool b a).

(** round(q): to the nearest integer, a half to the even neighbour. *)
Definition py_round (q : Q) : Z :=
  let f := Qfloor q in
  let r := (q - inject_Z f)%Q in
  if Qltb r (1 # 2) then f
  else if Qltb (1 # 2) r then (f + 1)%Z
  else if Z.even f then f else (f + 1)%Z.

(** ** Float arithmetic

    [round64 q] is the double nearest to [q]: 53 significant bits, the
    smallest unit 2 ** -1074, a tie to the even significand.  [+], [-], [*]
    and [/] on floats give the rounded exact result. *)

(** 2 ** k *)
Definition pow2 (k : Z) : Q := (2 ^ k)%Q.

(** For [q > 0], the exponent [e] with [2 ** e <= q < 2 ** (e + 1)]. *)
Definition binade (q : Q) : Z :=
  let e := (Z.log2 (Qnum q) - Z.log2 (Z.pos (Qden q)))%Z in
  if Qle_bool (pow2 e) q then e else (e - 1)%Z.

(** The distance between the doubles around [q]. *)
Definition ulp (q : Q) : Q := pow2 (Z.max (binade (Qabs q) - 52) (-1074)).

Definition round64 (q : Q) : Q :=
  if Qeq_bool q 0 then 0%Q
  else Qred (inject_Z (py_round (q / ulp q)) * ulp q).

Definition fadd (a b : Q) : Q := round64 (a + b).
Definition fsub (a b : Q) : Q := round64 (a - b).
Definition fmul (a b : Q) : Q := round64 (a * b).
Definition fdiv (a b : Q) : Q := round64 (a / b).

(** ** Python's stable [sorted] / [list.sort]

    [ltb a b] is the strict comparison of the sort keys of [a] and [b].
    An element is inserted in front of the first element whose key is not
    smaller, so elements with equal keys keep their input order. *)

Section py_sorted.
Context {A : Type} (ltb : A → A → bool).

Fixpoint insert_stable (a : A) (l : list A) : list A :=
  match l with
  | [] => [a]
  | b :: l' => if ltb b a then b :: insert_stable a l' else a :: b :: l'
  end.

Definition py_sorted (l : list A) : list A := foldr insert_stable [] l.

End py_sorted.

(** ** The greedy run splitter

    Line grouping and phrase building are one loop shape, copied between the
    scripts:
<<
    for t in items:
        if not current: current.append(t)
        elif joins(current[-1], t): current.append(t)
        else: runs.append(current); current = [t]
    if current: runs.append(current)
>>
    The comparison is always against the last element appended. *)

Section runs.
Context {A : Type} (joins : A → A → bool).

Fixpoint run_loop (items : list A) (runs : list (list A)) (current : list A)
  : list (list A) * list A :=
  match items with
  | [] => (runs, current)
  | t :: rest =>
      match last current with
      | None => run_loop rest runs (current ++ [t])
      | Some prev =>
          if joins prev t then run_loop rest runs (current ++ [t])
          else run_loop rest (runs ++ [current]) [t]
      end
  end.

Definition close_runs (st : list (list A) * list A) : list (list A) :=
  match st.2 with
  | [] => st.1
  | _ :: _ => st.1 ++ [st.2]
  end.

Definition split_runs (items : list A) : list (list A) :=
  close_runs (run_loop items [] []).

End runs.

(** Every adjacent pair of [l] is related by [R]. *)
Fixpoint adjacent {A} (R : A → A → Prop) (l : list A) : Prop :=
  match l with
  | a :: (b :: _) as l' => R a b ∧ adjacent R l'
  | _ => True
  end.

(** Between two consecutive runs, the last element of the first and the first
    element of the second are not related by [R]. *)
Fixpoint boundaries {A} (R : A → A → Prop) (ls : list (list A)) : Prop :=
  match ls with
  | l1 :: (l2 :: _) as ls' =>
      (∀ a b, last l1 = Some a → head l2 = Some b → ¬ R a b) ∧ boundaries R ls'
  | _ => True
  end.

(** The state of the run loop: the closed runs and the open one. *)
Definition run_inv {A} (R : A → A → Prop) (runs : list (list A))
    (cur : list A) : Prop :=
  Forall (λ r, r ≠ [] ∧ adjacent R r) runs ∧ adjacent R cur
  ∧ boundaries R (runs ++ [cur]) ∧ (cur = [] → runs = []).

(** [runs] cuts [items] into maximal runs of [R]-chained neighbours. *)
Definition runs_ok {A} (R : A → A → Prop) (runs : list (list A))
    (items : list A) : Prop :=
  concat runs = items ∧ Forall (λ r, r ≠ [] ∧ adjacent R r) runs
  ∧ boundaries R runs.

(** Number of the run that holds the [k]-th element of [concat runs]. *)
Fixpoint run_index {A} (runs : list (list A)) (k : nat) : nat :=
  match runs with
  | [] => 0
  | r :: rs => if decide (k < length r)%nat then 0%nat
               else S (run_index rs (k - length r))
  end.

(** ** Word boxes *)

Record WordBox := {
  w_text : string;
  w_confidence : Q;
  w_x : Q;
  w_y : Q;
  w_width : option Q;       (* read with .get('width', 0) *)
  w_height : option Q;      (* read with .get('height', 0) *)
  w_display_x : option Q;   (* read with .get('display_x', x) *)
  w_display_y : option Q
}.

Definition get_width (w : WordBox) : Q := default 0%Q (w_width w).
Definition get_height (w : WordBox) : Q := default 0%Q (w_height w).

(** t['x'] + t.get('width', 0) and t['y'] + t.get('height', 0) *)
Definition right_edge (w : WordBox) : Q := fadd (w_x w) (get_width w).
Definition bottom_edge (w : WordBox) : Q := fadd (w_y w) (get_height w).

(** key=lambda t: (t['y'], t['x']) : tuples compare lexicographically. *)
Definition yx_ltb (a b : WordBox) : bool :=
  Qltb (w_y a) (w_y b) || (Qeq_bool (w_y a) (w_y b) && Qltb (w_x a) (w_x b)).

(** key=lambda t: t['x'] *)
Definition x_ltb (a b : WordBox) : bool := Qltb (w_x a) (w_x b).

(** abs(text['y'] - last['y']) <= y_tolerance *)
Definition same_line (y_tolerance : Q) (prev t : WordBox) : bool :=
  Qle_bool (Qabs (fsub (w_y t) (w_y prev))) y_tolerance.

(** x_gap = curr['x'] - (prev['x'] + prev.get('width', 0)); x_gap <= x_tolerance *)
Definition x_gap (prev curr : WordBox) : Q :=
  fsub (w_x curr) (fadd (w_x prev) (get_width prev)).

Definition same_phrase (x_tolerance : Q) (prev curr : WordBox) : bool :=
  Qle_bool (x_gap prev curr) x_tolerance.

(** Words of [line] with the same x are the same word: sorting by x then
    leaves no choice. *)
Definition x_ties_identical (line : list WordBox) : Prop :=
  ∀ a b, a ∈ line → b ∈ line → (w_x a == w_x b)%Q → a = b.

(** ' '.join(parts) *)
Fixpoint join_space (parts : list string) : string :=
  match parts with
  | [] => ""
  | [s] => s
  | s :: rest => (s ++ " " ++ join_space rest)%string
  end.

(** sum(...) over a list of numbers: added from the left, starting at 0.
    (From Python 3.12 on, [sum] compensates the rounding errors of float
    summands; whole numbers, as the confidences of the OCR are, have their
    exact sum either way.) *)
Definition py_sum (l : list Q) : Q := foldl fadd 0%Q l.

(** min(...) / max(...) of a non-empty sequence [a :: l]; Python keeps the
    first of several equal extrema, as [Qmin] and [Qmax] do. *)
Definition py_min (a : Q) (l : list Q) : Q := foldl Qmin a l.
Definition py_max (a : Q) (l : list Q) : Q := foldl Qmax a l.

(** enumerate(l) *)
Fixpoint enumerate_from {A} (n : nat) (l : list A) : list (nat * A) :=
  match l with
  | [] => []
  | a :: l' => (n, a) :: enumerate_from (S n) l'
  end.

Definition enumerate {A} (l : list A) : list (nat * A) := enumerate_from 0 l.

(** range(start, stop, -1) *)
Definition range_down (start stop : Z) : list Z :=
  (λ k, (start - Z.of_nat k)%Z) <$> seq 0 (Z.to_nat (start - stop)).

(** The rectangle with corner [(bx, by)], width [bw] and height [bh] is the
    bounding box of [members] as the scripts compute it: the corner is at the
    smallest x and the smallest y of the members, and the width and the
    height are the float differences between the largest right edge,
    respectively bottom edge, of the members and the corner. *)
Definition bounding_box (members : list WordBox) (bx by_ bw bh : Q) : Prop :=
  members ≠ []
  ∧ (∀ m, m ∈ members → (bx <= w_x m)%Q ∧ (by_ <= w_y m)%Q)
  ∧ (∃ m, m ∈ members ∧ bx = w_x m)
  ∧ (∃ m, m ∈ members ∧ by_ = w_y m)
  ∧ (∃ r, r ∈ members
       ∧ (∀ m, m ∈ members → (right_edge m <= right_edge r)%Q)
       ∧ bw = fsub (right_edge r) bx)
  ∧ (∃ b, b ∈ members
       ∧ (∀ m, m ∈ members → (bottom_edge m <= bottom_edge b)%Q)
       ∧ bh = fsub (bottom_edge b) by_).

(** ** ocr_server.py: [group_texts_into_phrases] *)

Module OcrServer.

(** The line loop (lines 176-192). *)
Definition group_lines (y_tolerance : Q) (texts : list WordBox)
  : list (list WordBox) :=
  split_runs (same_line y_tolerance) texts.

(** The phrase loop of one line (lines 197-212): [line.sort], then
    [current_phrase = [line[0]]] and the loop over [range(1, len(line))].
    [line[0]] raises IndexError on an empty line.  [current_phrase] is never
    empty, so [current_phrase[-1]] is defined and the first branch of
    [run_loop] is not taken. *)
Definition phrase_groups (x_tolerance : Q) (line : list WordBox)
  : option (list (list WordBox)) :=
  match py_sorted x_ltb line with
  | [] => None
  | w0 :: rest =>
      Some (close_runs (run_loop (same_phrase x_tolerance) rest [] [w0]))
  end.

Record Phrase := {
  text : string;
  confidence : Q;
  x : Q;
  y : Q;
  display_x : Q;
  display_y : Q;
  word_count : nat
}.

(** The dictionary built for one group (lines 214-226); an empty group
    raises (division by [len(group)], then [group[0]]). *)
Definition phrase_entry (group : list WordBox) : option Phrase :=
  match group with
  | [] => None
  | g0 :: _ =>
      Some {| text := join_space (w_text <$> group);
              confidence := fdiv (py_sum (w_confidence <$> group))
                              (inject_Z (Z.of_nat (length group)));
              x := w_x g0;
              y := w_y g0;
              display_x := default (w_x g0) (w_display_x g0);
              display_y := default (w_y g0) (w_display_y g0);
              word_count := length group |}
  end.

Definition line_phrases (x_tolerance : Q) (line : list WordBox)
  : option (list Phrase) :=
  groups ← phrase_groups x_tolerance line;
  mapM phrase_entry groups.

Definition group_texts_into_phrases
    (texts : list WordBox) (y_tolerance x_tolerance : Q)
  : option (list Phrase) :=
  match texts with
  | [] => Some []
  | _ :: _ =>
      let texts := py_sorted yx_ltb texts in
      let lines := group_lines y_tolerance texts in
      phrases ← mapM (line_phrases x_tolerance) lines;
      Some (concat phrases)
  end.

End OcrServer.

(** [idxs] lists the member indices of the phrases produced so far and [used]
    is the set of consumed words: no word is a member of two phrases, and the
    consumed words are exactly the members. *)
Definition disjoint_cover (idxs : list (list nat)) (used : gset nat) : Prop :=
  (∀ k1 k2 I1 I2 i, idxs !! k1 = Some I1 → idxs !! k2 = Some I2 →
     i ∈ I1 → i ∈ I2 → k1 = k2)
  ∧ (∀ i, i ∈ used ↔ ∃ I, I ∈ idxs ∧ i ∈ I).

(** The phrases and the left-over set of a run on [n] words: the member sets
    of two different phrases are disjoint, and each word is either a member of
    exactly one phrase and not left over, or left over and a member of no
    phrase. *)
Definition partitioned (n : nat) (idxs : list (list nat)) (rest : gset nat)
  : Prop :=
  (∀ k1 k2 I1 I2 i, k1 ≠ k2 → idxs !! k1 = Some I1 → idxs !! k2 = Some I2 →
     i ∈ I1 → i ∉ I2)
  ∧ (∀ i, (i < n)%nat →
       ((∃ k I, idxs !! k = Some I ∧ i ∈ I
                ∧ ∀ k' I', idxs !! k' = Some I' → i ∈ I' → k' = k)
        ∧ i ∉ rest)
       ∨ ((∀ I, I ∈ idxs → i ∉ I) ∧ i ∈ rest)).

(** The words left over by a run on [n] words:
    [set(range(n)) - used_indices]. *)
Definition unmatched (n : nat) (used : gset nat) : gset nat :=
  set_seq 0 n ∖ used.

(** ** enhanced_multiline_ocr.py: [group_multiline_texts] *)

Module Multiline.

Definition Item : Type := nat * WordBox.

(** The line loop of one pass (lines 117-137): as [run_loop], with the words
    whose index is in [used_indices] skipped. *)
Fixpoint line_loop (y_tolerance : Q) (used_indices : gset nat)
    (items : list Item) (lines : list (list Item)) (current_line : list Item)
  : list (list Item) * list Item :=
  match items with
  | [] => (lines, current_line)
  | (i, text) :: rest =>
      if bool_decide (i ∈ used_indices)
      then line_loop y_tolerance used_indices rest lines current_line
      else
        match last current_line with
        | None =>
            line_loop y_tolerance used_indices rest lines
              (current_line ++ [(i, text)])
        | Some last_item =>
            if same_line y_tolerance last_item.2 text
            then line_loop y_tolerance used_indices rest lines
                   (current_line ++ [(i, text)])
            else line_loop y_tolerance used_indices rest
                   (lines ++ [current_line]) [(i, text)]
        end
  end.

Definition group_lines (y_tolerance : Q) (used_indices : gset nat)
    (texts : list WordBox) : list (list Item) :=
  close_runs (line_loop y_tolerance used_indices (enumerate texts) [] []).

Record Phrase := {
  text : string;
  confidence : Q;
  x : Q;
  y : Q;
  width : Q;
  height : Q;
  word_count : nat;
  y_tolerance : Z;
  indices : list nat
}.

(** The dictionary built for the non-empty group [g0 :: gs] (lines 180-200). *)
Definition phrase_entry (y_tol : Z) (g0 : Item) (gs : list Item) : Phrase :=
  let group := g0 :: gs in
  let min_x := py_min (w_x g0.2) ((λ item : Item, w_x item.2) <$> gs) in
  let min_y := py_min (w_y g0.2) ((λ item : Item, w_y item.2) <$> gs) in
  let max_x := py_max (right_edge g0.2)
                 ((λ item : Item, right_edge item.2) <$> gs) in
  let max_y := py_max (bottom_edge g0.2)
                 ((λ item : Item, bottom_edge item.2) <$> gs) in
  {| text := join_space ((λ item : Item, w_text item.2) <$> group);
     confidence := fdiv (py_sum ((λ item : Item, w_confidence item.2) <$> group))
                     (inject_Z (Z.of_nat (length group)));
     x := min_x;
     y := min_y;
     width := fsub max_x min_x;
     height := fsub max_y min_y;
     word_count := length group;
     y_tolerance := y_tol;
     indices := fst <$> group |}.

(** for item in group: used_indices.add(item[0]) *)
Definition mark_used (used_indices : gset nat) (group : list Item) : gset nat :=
  foldl (λ used (item : Item), {[item.1]} ∪ used) used_indices group.

(** One iteration of [for group in phrase_groups] (lines 176-206). *)
Definition add_group (y_tol : Z) (st : list Phrase * gset nat)
    (group : list Item) : list Phrase * gset nat :=
  match group with
  | [] => st
  | g0 :: gs => (st.1 ++ [phrase_entry y_tol g0 gs], mark_used st.2 group)
  end.

(** The member words of a phrase: the words of [texts] at its indices. *)
Definition members (texts : list WordBox) (p : Phrase) : list WordBox :=
  omap (λ i, texts !! i) (indices p).

(** [p] was built from a group of (index, word) pairs of [texts]. *)
Definition from_group (texts : list WordBox) (p : Phrase) : Prop :=
  ∃ y_tol g0 gs, p = phrase_entry y_tol g0 gs
    ∧ Forall (λ item : Item, texts !! item.1 = Some item.2) (g0 :: gs).

(** The invariant of a run, stated on [(pass_phrases, used_indices)] with the
    phrases [all] of the passes before: the phrases so far consume exactly
    [used_indices], without overlap, and each was built from words of
    [texts]. *)
Definition multiline_inv (texts : list WordBox) (all : list Phrase)
    (st : list Phrase * gset nat) : Prop :=
  disjoint_cover (indices <$> (all ++ st.1)) st.2
  ∧ Forall (from_group texts) (all ++ st.1).

(** [items] are (index, word) pairs of [texts] with distinct indices. *)
Definition items_ok (texts : list WordBox) (items : list Item) : Prop :=
  NoDup (fst <$> items)
  ∧ Forall (λ item : Item, texts !! item.1 = Some item.2) items.

(** One iteration of [for line in lines] (lines 140-206); the state is
    [(pass_phrases, used_indices)]. *)
Definition process_line (x_tolerance : Q) (y_tol : Z)
    (st : list Phrase * gset nat) (line : list Item)
  : list Phrase * gset nat :=
  let line := py_sorted (λ a b : Item, x_ltb a.2 b.2) line in
  if forallb (λ item : Item, bool_decide (item.1 ∈ st.2)) line then st
  else
    let unused_in_line := filter (λ item : Item, item.1 ∉ st.2) line in
    match unused_in_line with
    | [] => st
    | u0 :: rest =>
        let phrase_groups :=
          close_runs
            (run_loop (λ p c : Item, same_phrase x_tolerance p.2 c.2)
               rest [] [u0]) in
        foldl (add_group y_tol) st phrase_groups
    end.

(** One pass (one iteration of the loop over [y_tolerance], lines 113-208);
    the state is [(all_phrases, used_indices)]. *)
Definition pass (x_tolerance : Q) (texts : list WordBox)
    (st : list Phrase * gset nat) (y_tol : Z) : list Phrase * gset nat :=
  let lines := group_lines (inject_Z y_tol) st.2 texts in
  let st' := foldl (process_line x_tolerance y_tol) ([], st.2) lines in
  (st.1 ++ st'.1, st'.2).

(** The whole function, returning the final [used_indices] along with
    [all_phrases]. *)
Definition run (texts : list WordBox) (y_tolerance_range : Z * Z)
    (x_tolerance : Q) : list Phrase * gset nat :=
  let texts := py_sorted yx_ltb texts in
  foldl (pass x_tolerance texts) ([], ∅)
    (range_down y_tolerance_range.1 (y_tolerance_range.2 - 1)).

Definition group_multiline_texts (texts : list WordBox)
    (y_tolerance_range : Z * Z) (x_tolerance : Q) : list Phrase :=
  (run texts y_tolerance_range x_tolerance).1.

End Multiline.

(** ** Automapper.py: the per-page multipass loop of [process_all_pdfs]

    One page is a list [words] of PyMuPDF word tuples.  The model covers what
    decides which words a pass consumes: line grouping, the enumeration and
    ordering of candidate phrases, the two "already used" tests, the
    duplicate-location test and the marking of words.  Classification of a
    phrase, drawing and the legend tallies enter by the exceptions they can
    raise: an exception leaves the page (and the file) for the handler of
    line 463, so that nothing more of the page is annotated and lines 446-450
    do not run.  Two library operations are parameters: the union [|] of
    [fitz.Rect], and the formatting of the location key (which also fixes
    the file name and the page number). *)

Module Automapper.

(** (x0, y0, x1, y1, "word", block_no, line_no, word_no) *)
Record Word := {
  x0 : Q; y0 : Q; x1 : Q; y1 : Q;
  text : string;
  block_no : Z; line_no : Z; word_no : Z
}.

(** Equality of two word tuples. *)
Definition word_eqb (a b : Word) : bool :=
  Qeq_bool (x0 a) (x0 b) && Qeq_bool (y0 a) (y0 b) &&
  Qeq_bool (x1 a) (x1 b) && Qeq_bool (y1 a) (y1 b) &&
  String.eqb (text a) (text b) &&
  Z.eqb (block_no a) (block_no b) && Z.eqb (line_no a) (line_no b) &&
  Z.eqb (word_no a) (word_no b).

(** [words.index(w)], counted from [n]; [None] is the ValueError. *)
Fixpoint index_from (n : nat) (w : Word) (words : list Word) : option nat :=
  match words with
  | [] => None
  | w' :: rest => if word_eqb w' w then Some n else index_from (S n) w rest
  end.

Definition index (words : list Word) (w : Word) : option nat :=
  index_from 0 w words.

Record Rect := { rx0 : Q; ry0 : Q; rx1 : Q; ry1 : Q }.

(** fitz.Rect(word[0:4]) *)
Definition word_rect (w : Word) : Rect :=
  {| rx0 := x0 w; ry0 := y0 w; rx1 := x1 w; ry1 := y1 w |}.

Record Candidate := {
  phrase : string;
  bbox : Rect;
  word_indices : list nat;
  phrase_length : nat;        (* key 'length' *)
  line_index : nat;
  position_in_line : nat
}.

(** abs(word[1] - current_line[-1][1]) <= y_tolerance *)
Definition same_line (y_tolerance : Q) (prev word : Word) : bool :=
  Qle_bool (Qabs (fsub (y0 word) (y0 prev))) y_tolerance.

(** Lines 286-295. *)
Definition group_lines (y_tolerance : Q) (words : list Word)
  : list (list Word) :=
  split_runs (same_line y_tolerance) words.

(** line.sort(key=lambda w: w[0]) *)
Definition sort_line (line : list Word) : list Word :=
  py_sorted (λ a b, Qltb (x0 a) (x0 b)) line.

(** key=lambda m: (-m['length'], m['line_index'], m['position_in_line']) *)
Definition candidate_ltb (a b : Candidate) : bool :=
  (phrase_length b <? phrase_length a)%nat
  || ((phrase_length a =? phrase_length b)%nat
      && ((line_index a <? line_index b)%nat
          || ((line_index a =? line_index b)%nat
              && (position_in_line a <? position_in_line b)%nat))).

(** What a phrase that has passed the two "already used" tests meets:
    nothing; an exception of [query_llm] (line 365; it raises on some
    replies) or of [page.draw_rect] (line 386); or an exception of
    [st_data.get], [hex_to_rgb] (lines 408-409; it raises on some colours)
    or [draw_circle] (line 412). *)
Inductive fault :=
  | NoFault
  | ClassifyRaises
  | DrawRaises.

Section page.
Context (rect_union : Rect → Rect → Rect).
Context (location_key : Q → Q → string).
(** [fault_at k c]: what the [k]-th phrase of the page that passes the two
    tests meets, if this phrase is [c]. *)
Context (fault_at : nat → Candidate → fault).

(** The bounding box of the words [line[i:i+phrase_length]] (lines 316-318);
    the slice is never empty. *)
Definition slice_bbox (slice : list Word) : Rect :=
  match slice with
  | [] => {| rx0 := 0; ry0 := 0; rx1 := 0; ry1 := 0 |}
  | w :: ws => foldl rect_union (word_rect w) (word_rect <$> ws)
  end.

(** The dictionary appended for one [(phrase_length, i)] (lines 311-336). *)
Definition candidate (words : list Word) (line_idx : nat) (line : list Word)
    (len i : nat) : Candidate :=
  let slice := take len (drop i line) in
  {| phrase := join_space (text <$> slice);
     bbox := slice_bbox slice;
     word_indices := omap (index words) slice;
     phrase_length := len;
     line_index := line_idx;
     position_in_line := i |}.

(** The candidates of one line (lines 302-336), [line] already sorted. *)
Definition line_candidates (words : list Word) (line_idx : nat)
    (line : list Word) : list Candidate :=
  let max_phrase_length := (5 `min` length line)%nat in
  len ← seq 1 max_phrase_length;
  i ← seq 0 (Z.to_nat (Z.of_nat (length line) - Z.of_nat len + 1));
  [candidate words line_idx line len i].

(** The sorted lines of one pass. *)
Definition sorted_lines (y_tolerance : Q) (words : list Word)
  : list (list Word) :=
  sort_line <$> group_lines y_tolerance words.

(** [potential_phrases] after the sort of line 339. *)
Definition potential_phrases (y_tolerance : Q) (words : list Word)
  : list Candidate :=
  py_sorted candidate_ltb
    (item ← enumerate (sorted_lines y_tolerance words);
     line_candidates words item.1 item.2).

(** [c] is made of [phrase_length c] consecutive words, between 1 and 5, of
    one sorted line of the pass with tolerance [y_tolerance]. *)
Definition consecutive_words (y_tolerance : Q) (words : list Word)
    (c : Candidate) : Prop :=
  (1 ≤ phrase_length c ≤ 5)%nat
  ∧ ∃ line, sorted_lines y_tolerance words !! line_index c = Some line
      ∧ (position_in_line c + phrase_length c ≤ length line)%nat
      ∧ phrase c
        = join_space
            (text <$> take (phrase_length c) (drop (position_in_line c) line))
      ∧ length (take (phrase_length c) (drop (position_in_line c) line))
        = phrase_length c.

Record State := {
  page_used_word_indices : gset nat;
  pass_used_word_indices : gset nat;
  annotated_locations : gset string;
  first_dot_radius : option Q;
  annotated : list Candidate;   (* the phrases of message_schedule, in order *)
  accepted : nat;               (* phrases that have passed the two tests *)
  raised : bool                 (* an exception has left the page *)
}.

(** any(idx in s for idx in phrase_info['word_indices']) *)
Definition any_in (s : gset nat) (idxs : list nat) : bool :=
  existsb (λ idx, bool_decide (idx ∈ s)) idxs.

(** One iteration of [for phrase_info in potential_phrases] (lines 345-443);
    nothing runs once an exception has left the page. *)
Definition annotate (st : State) (c : Candidate) : State :=
  if raised st then st
  else if any_in (page_used_word_indices st) (word_indices c) then st
  else if any_in (pass_used_word_indices st) (word_indices c) then st
  else
    match fault_at (accepted st) c with
    | ClassifyRaises =>
        {| page_used_word_indices := page_used_word_indices st;
           pass_used_word_indices := pass_used_word_indices st;
           annotated_locations := annotated_locations st;
           first_dot_radius := first_dot_radius st;
           annotated := annotated st;
           accepted := S (accepted st);
           raised := true |}
    | met =>
        let average_height := fsub (ry1 (bbox c)) (ry0 (bbox c)) in
        let radius := default (fmul average_height 1) (first_dot_radius st) in
        let center_x := fdiv (fadd (rx0 (bbox c)) (rx1 (bbox c))) 2 in
        let center_y :=
          fsub (ry0 (bbox c)) (fmul (round64 (105 # 100)) radius) in
        let key := location_key center_x center_y in
        if bool_decide (key ∈ annotated_locations st)
        then {| page_used_word_indices := page_used_word_indices st;
                pass_used_word_indices := pass_used_word_indices st;
                annotated_locations := annotated_locations st;
                first_dot_radius := Some radius;
                annotated := annotated st;
                accepted := S (accepted st);
                raised := false |}
        else
          match met with
          | DrawRaises =>
              {| page_used_word_indices := page_used_word_indices st;
                 pass_used_word_indices := pass_used_word_indices st;
                 annotated_locations := annotated_locations st;
                 first_dot_radius := Some radius;
                 annotated := annotated st;
                 accepted := S (accepted st);
                 raised := true |}
          | _ =>
              {| page_used_word_indices :=
                   list_to_set (word_indices c) ∪ page_used_word_indices st;
                 pass_used_word_indices :=
                   list_to_set (word_indices c) ∪ pass_used_word_indices st;
                 annotated_locations := {[key]} ∪ annotated_locations st;
                 first_dot_radius := Some radius;
                 annotated := annotated st ++ [c];
                 accepted := S (accepted st);
                 raised := false |}
          end
    end.

(** One pass over the page (one iteration of the loop of line 281). *)
Definition pass (words : list Word) (st : State) (y_tolerance : Z) : State :=
  if raised st then st
  else
    foldl annotate
      {| page_used_word_indices := page_used_word_indices st;
         pass_used_word_indices := ∅;
         annotated_locations := annotated_locations st;
         first_dot_radius := first_dot_radius st;
         annotated := annotated st;
         accepted := accepted st;
         raised := false |}
      (potential_phrases (inject_Z y_tolerance) words).

(** The ten passes of one page, from the locations and the dot radius left by
    the pages before it. *)
Definition process_page (words : list Word) (locations : gset string)
    (radius : option Q) : State :=
  foldl (pass words)
    {| page_used_word_indices := ∅;
       pass_used_word_indices := ∅;
       annotated_locations := locations;
       first_dot_radius := radius;
       annotated := [];
       accepted := 0;
       raised := false |}
    (range_down 10 0).

(** Lines 446-447, which run when no exception has left the page. *)
Definition unmatched_indices (words : list Word) (st : State)
  : option (gset nat) :=
  if raised st then None
  else Some (unmatched (length words) (page_used_word_indices st)).

End page.

End Automapper.

(** ** Python string operations (ASCII texts) *)

Module Py.

(** sub in s *)
Fixpoint str_in (sub s : string) : bool :=
  String.prefix sub s
  || match s with
     | EmptyString => false
     | String _ s' => str_in sub s'
     end.

(** c in s, for a character c of a string being iterated *)
Definition char_in (c : ascii) (s : string) : bool :=
  str_in (String c EmptyString) s.

Definition chars (s : string) : list ascii := String.list_ascii_of_string s.

Definition is_space (c : ascii) : bool :=
  let n := nat_of_ascii c in
  (((9 <=? n) && (n <=? 13)) || ((28 <=? n) && (n <=? 32)))%nat.

Definition is_digit (c : ascii) : bool :=
  let n := nat_of_ascii c in ((48 <=? n) && (n <=? 57))%nat.

Fixpoint lstrip (l : list ascii) : list ascii :=
  match l with
  | c :: l' => if is_space c then lstrip l' else l
  | [] => []
  end.

(** s.strip() *)
Definition strip (s : string) : string :=
  String.string_of_list_ascii (rev (lstrip (rev (lstrip (chars s))))).

(** s.isdigit(): false on the empty string *)
Definition isdigit (s : string) : bool :=
  match chars s with
  | [] => false
  | l => forallb is_digit l
  end.

(** s.replace(c, '') for a one-character c *)
Definition remove_char (c : ascii) (s : string) : string :=
  String.string_of_list_ascii (filter (λ d, d ≠ c) (chars s)).

Definition upper_char (c : ascii) : ascii :=
  let n := nat_of_ascii c in
  if ((97 <=? n) && (n <=? 122))%nat then ascii_of_nat (n - 32) else c.

(** s.upper() *)
Definition upper (s : string) : string :=
  String.string_of_list_ascii (upper_char <$> chars s).

(** s.startswith(c) for a one-character c *)
Definition startswith_char (c : ascii) (s : string) : bool :=
  match s with
  | String d _ => bool_decide (d = c)
  | EmptyString => false
  end.

(** s[1:] *)
Definition tail (s : string) : string :=
  match s with
  | String _ s' => s'
  | EmptyString => EmptyString
  end.

End Py.

(** ** run_multi_scan.py / deduplication_demo.py: the duplicate reducer *)

Module Dedup.

Record Label := {
  text : string;
  x : Q;
  y : Q;
  confidence : Q;
  scan : string
}.

(** sum(1 for c in text1 if c in text2) *)
Definition common_chars (text1 text2 : string) : nat :=
  foldl (λ common c, if Py.char_in c text2 then S common else common)
    0%nat (Py.chars text1).

Definition text_similarity (text1 text2 : string) : Q :=
  if String.eqb text1 text2 then 1%Q
  else if Py.str_in text1 text2 || Py.str_in text2 text1 then (8 # 10)%Q
  else
    let common := common_chars text1 text2 in
    let max_len := (String.length text1 `max` String.length text2)%nat in
    if (0 <? max_len)%nat
    then (inject_Z (Z.of_nat common) / inject_Z (Z.of_nat max_len))%Q
    else 0%Q.

(** math.sqrt((x1 - x2)**2 + (y1 - y2)**2) < position_threshold *)
Definition near (position_threshold : Q) (t1 t2 : Label) : bool :=
  let dx := (x t1 - x t2)%Q in
  let dy := (y t1 - y t2)%Q in
  Qltb 0 position_threshold
  && Qltb (dx * dx + dy * dy)%Q (position_threshold * position_threshold)%Q.

(** The two nested tests of the inner loop. *)
Definition duplicate_of (position_threshold similarity_threshold : Q)
    (text1 text2 : Label) : bool :=
  near position_threshold text1 text2
  && Qle_bool similarity_threshold (text_similarity (text text1) (text text2)).

(** [a] occurs inside [b]. *)
Definition substring_of (a b : string) : Prop :=
  ∃ p q, b = (p ++ a ++ q)%string.

(** The number of characters (positions) of [a] whose character occurs
    somewhere in [b]. *)
Definition shared_chars (a b : string) : nat :=
  length (filter (λ c, c ∈ Py.chars b) (Py.chars a)).

(** [b] is a member of [group] with the highest confidence and, among the
    members of that confidence, with the longest text. *)
Definition is_best (group : list Label) (b : Label) : Prop :=
  b ∈ group
  ∧ ∀ m, m ∈ group →
      (confidence m <= confidence b)%Q
      ∧ ((confidence m == confidence b)%Q →
         (String.length (text m) ≤ String.length (text b))%nat).

Section thresholds.
Context (position_threshold similarity_threshold : Q).

(** No label of [l] is a duplicate of a label before it in [l]. *)
Definition settled (l : list Label) : Prop :=
  ∀ i j a b, (i < j)%nat → l !! i = Some a → l !! j = Some b →
    duplicate_of position_threshold similarity_threshold a b = false.

(** The inner loop [for j, text2 in enumerate(texts)]. *)
Fixpoint absorb (text1 : Label) (items : list (nat * Label))
    (used : gset nat) (group : list Label) : gset nat * list Label :=
  match items with
  | [] => (used, group)
  | (j, text2) :: rest =>
      if bool_decide (j ∈ used) then absorb text1 rest used group
      else if duplicate_of position_threshold similarity_threshold text1 text2
      then absorb text1 rest ({[j]} ∪ used) (group ++ [text2])
      else absorb text1 rest used group
  end.

(** The outer loop [for i, text1 in enumerate(texts)]. *)
Fixpoint group_loop (texts : list Label) (items : list (nat * Label))
    (used : gset nat) (groups : list (list Label)) : list (list Label) :=
  match items with
  | [] => groups
  | (i, text1) :: rest =>
      if bool_decide (i ∈ used) then group_loop texts rest used groups
      else
        let st := absorb text1 (enumerate texts) ({[i]} ∪ used) [text1] in
        group_loop texts rest st.1 (groups ++ [st.2])
  end.

Definition groups_of (texts : list Label) : list (list Label) :=
  group_loop texts (enumerate texts) ∅ [].

(** key=lambda t: (t['confidence'], len(t['text'])), compared as tuples *)
Definition key_ltb (a b : Label) : bool :=
  Qltb (confidence a) (confidence b)
  || (Qeq_bool (confidence a) (confidence b)
      && (String.length (text a) <? String.length (text b))%nat).

(** max(group, key=...): the first element with the largest key; [None] is
    the ValueError on an empty group. *)
Definition best_of (group : list Label) : option Label :=
  match group with
  | [] => None
  | t :: rest => Some (foldl (λ best t, if key_ltb best t then t else best) t rest)
  end.

(** run_multi_scan.py *)
Definition deduplicate_texts (texts : list Label) : option (list Label) :=
  mapM best_of (groups_of texts).

(** deduplication_demo.py: a group of one is returned without [max]. *)
Definition demo_best_of (group : list Label) : option Label :=
  match group with
  | [t] => Some t
  | _ => best_of group
  end.

Definition demo_deduplicate_texts (texts : list Label) : option (list Label) :=
  mapM demo_best_of (groups_of texts).

End thresholds.

End Dedup.

(** ** run_enhanced_multi_scan.py: the multiline joiner *)

Module Joiner.

Definition is_room_code (text : string) : bool :=
  let t := Py.strip text in
  if Py.startswith_char "T" t && (1 <? String.length t)%nat
     && Py.isdigit (Py.remove_char "." (Py.tail t))
  then true
  else if Py.isdigit
            (Py.remove_char " " (Py.remove_char "," (Py.remove_char "." t)))
  then true
  else false.

(** [l] is a non-empty run of digits. *)
Definition digits (l : list ascii) : Prop :=
  l ≠ [] ∧ Forall (λ c, Py.is_digit c = true) l.

(** What [is_room_code] takes for a code, on the stripped text [t]: a "T"
    followed by digits, any dots among them left out (commas and spaces are
    not left out here); or digits, any dots, commas and spaces among them
    left out. *)
Definition room_code (t : string) : Prop :=
  (∃ rest, Py.chars t = "T"%char :: rest
     ∧ digits (filter (λ c, c ≠ "."%char) rest))
  ∨ digits (filter (λ c, c ≠ " "%char)
              (filter (λ c, c ≠ ","%char)
                 (filter (λ c, c ≠ "."%char) (Py.chars t)))).

Record Phrase := {
  text : string;
  confidence : Q;
  x : Q;
  y : Q
}.

Record Room := {
  room_text : string;
  room_confidence : Q;
  room_x : Q;
  room_y : Q;
  parts : nat;
  multiline : bool
}.

(** key=lambda p: (p['x'], p['y']) *)
Definition xy_ltb (a b : Phrase) : bool :=
  Qltb (x a) (x b) || (Qeq_bool (x a) (x b) && Qltb (y a) (y b)).

(** key=lambda p: p['y'] *)
Definition y_ltb (a b : Phrase) : bool := Qltb (y a) (y b).

Section thresholds.
Context (vertical_threshold horizontal_threshold : Q).

(** x_diff < horizontal_threshold and 0 < y_diff < vertical_threshold *)
Definition aligned (phrase1 phrase2 : Phrase) : bool :=
  let x_diff := Qabs (fsub (x phrase1) (x phrase2)) in
  let y_diff := fsub (y phrase2) (y phrase1) in
  Qltb x_diff horizontal_threshold
  && (Qltb 0 y_diff && Qltb y_diff vertical_threshold).

(** not is_room_code(text) or "RM" in text.upper() *)
Definition continuation (phrase2 : Phrase) : bool :=
  negb (is_room_code (text phrase2)) || Py.str_in "RM" (Py.upper (text phrase2)).

(** The test that lets the phrase at position [j] join the seed at position
    [i], with [used_phrases] consumed when the seed starts collecting. *)
Definition joins (i : nat) (phrase1 : Phrase) (used_phrases : gset nat)
    (item : nat * Phrase) : Prop :=
  (i < item.1)%nat ∧ ¬ (item.1 ∈ used_phrases)
  ∧ aligned phrase1 item.2 = true ∧ continuation item.2 = true.

#[global] Instance joins_dec i phrase1 used_phrases item :
  Decision (joins i phrase1 used_phrases item).
Proof. unfold joins. apply _. Defined.

(** The inner loop [for j, phrase2 in enumerate(phrases)] for the seed at
    position [i]. *)
Fixpoint collect (i : nat) (phrase1 : Phrase) (items : list (nat * Phrase))
    (used_phrases : gset nat) (room_parts : list Phrase)
  : gset nat * list Phrase :=
  match items with
  | [] => (used_phrases, room_parts)
  | (j, phrase2) :: rest =>
      if (j <=? i)%nat || bool_decide (j ∈ used_phrases)
      then collect i phrase1 rest used_phrases room_parts
      else if aligned phrase1 phrase2
      then if continuation phrase2
           then collect i phrase1 rest ({[j]} ∪ used_phrases)
                  (room_parts ++ [phrase2])
           else collect i phrase1 rest used_phrases room_parts
      else collect i phrase1 rest used_phrases room_parts
  end.

(** The entry appended for a seed and its parts (lines 238-261). *)
Definition room_entry (phrase1 : Phrase) (room_parts : list Phrase) : Room :=
  if (1 <? length room_parts)%nat
  then
    let room_parts := py_sorted y_ltb room_parts in
    let top := default phrase1 (head room_parts) in
    {| room_text := join_space (text <$> room_parts);
       room_confidence := fdiv (py_sum (confidence <$> room_parts))
                            (inject_Z (Z.of_nat (length room_parts)));
       room_x := x top;
       room_y := y top;
       parts := length room_parts;
       multiline := true |}
  else
    {| room_text := text phrase1;
       room_confidence := confidence phrase1;
       room_x := x phrase1;
       room_y := y phrase1;
       parts := 1;
       multiline := false |}.

(** The outer loop [for i, phrase1 in enumerate(phrases)]. *)
Fixpoint room_loop (phrases : list Phrase) (items : list (nat * Phrase))
    (used_phrases : gset nat) (multiline_rooms : list Room) : list Room :=
  match items with
  | [] => multiline_rooms
  | (i, phrase1) :: rest =>
      if bool_decide (i ∈ used_phrases)
      then room_loop phrases rest used_phrases multiline_rooms
      else
        let st := collect i phrase1 (enumerate phrases)
                    ({[i]} ∪ used_phrases) [phrase1] in
        room_loop phrases rest st.1
          (multiline_rooms ++ [room_entry phrase1 st.2])
  end.

Definition identify_multiline_room_names (phrases : list Phrase) : list Room :=
  let phrases := py_sorted xy_ltb phrases in
  room_loop phrases (enumerate phrases) ∅ [].

End thresholds.

End Joiner.

(** ** Automapper.py: [query_llm]

    The HTTP service is the environment: attempt [k] (counted from 0) of one
    call meets [world k], either a [requests] exception (raised by [post], by
    [raise_for_status] or by [response.json()] on a body that is not JSON) or
    a decoded JSON body.  [json.loads] is a parameter, with its three
    outcomes.  The trace records the requests sent, the sleeps and the lines
    appended to [debug_log]. *)

Module LLM.

#[warnings="-register-all"]
Inductive json :=
| JNull
| JBool (b : bool)
| JNum (q : Q)
| JStr (s : string)
| JArr (items : list json)
| JObj (fields : list (string * json)).

Inductive exn :=
| AttributeError     (* .get on a value that is not a dict *)
| IndexError         (* [0] on an empty list or string *)
| KeyError           (* [0] on a dict *)
| TypeError          (* [0] on a number, bool or None; json.loads of a non-string *)
| ValueError         (* time.sleep of a negative delay; json.loads of an
                        integer with more digits than the interpreter allows *)
| RecursionError.    (* json.loads of a too deeply nested document *)

Inductive result (A : Type) :=
| Ok (a : A)
| Raise (e : exn).
Arguments Ok {A} a.
Arguments Raise {A} e.

Definition bind {A B} (r : result A) (k : A → result B) : result B :=
  match r with
  | Ok a => k a
  | Raise e => Raise e
  end.

Fixpoint assoc (key : string) (fields : list (string * json)) : option json :=
  match fields with
  | [] => None
  | (k, v) :: rest => if String.eqb k key then Some v else assoc key rest
  end.

(** value.get(key, default) *)
Definition get (value : json) (key : string) (default_value : json)
  : result json :=
  match value with
  | JObj fields => Ok (default default_value (assoc key fields))
  | _ => Raise AttributeError
  end.

(** value[0] *)
Definition first (value : json) : result json :=
  match value with
  | JArr (v :: _) => Ok v
  | JArr [] => Raise IndexError
  | JStr (String c _) => Ok (JStr (String c EmptyString))
  | JStr EmptyString => Raise IndexError
  | JObj _ => Raise KeyError
  | JNull | JBool _ | JNum _ => Raise TypeError
  end.

Record LLMConfig := {
  api_url : string;
  api_key : string;
  model_name : string;
  max_retries : Z;
  retry_delay : Q
}.

Inductive response :=
| RequestException (message : string)
| Body (body : json).

Inductive log_line :=
| LogParseFailure (text : string)
| LogRawResponse (content : string)
| LogRequestFailed (attempt : nat) (max_retries : Z) (message : string)
| LogAllFailed (text : string).

Inductive event :=
| Post (attempt : nat)
| Sleep (delay : Q)
| Log (line : log_line).

Record SignData := { SignType : json; FullMessage : json }.

(** What [json.loads] does with a string: it returns the decoded value, or
    raises [json.JSONDecodeError], which line 69 catches, or raises another
    exception (ValueError, RecursionError), which it does not. *)
Inductive loads :=
| Loaded (data : json)
| JSONDecodeError
| LoadsRaises (e : exn).

(** The number of requests sent and the sleeps taken, read off a trace. *)
Definition posts (trace : list event) : nat :=
  length (omap (λ e, match e with Post k => Some k | _ => None end) trace).

Definition sleeps (trace : list event) : list Q :=
  omap (λ e, match e with Sleep d => Some d | _ => None end) trace.

(** The "unclassified" fallback: category UNKNOWN, the text unchanged. *)
Definition fallback (text : string) : SignData :=
  {| SignType := JStr "UNKNOWN"; FullMessage := JStr text |}.

Section query.
Context (json_loads : string → loads).
Context (world : nat → response).

(** result.get("choices", [{}])[0].get("message", {}).get("content", "{}") *)
Definition reply_content (body : json) : result json :=
  bind (get body "choices" (JArr [JObj []])) (λ choices,
  bind (first choices) (λ choice,
  bind (get choice "message" (JObj [])) (λ message,
  get message "content" (JStr "{}")))).

(** The body of the [try] for a decoded response (lines 59-76). *)
Definition parse_response (text : string) (body : json)
  : result SignData * list event :=
  match reply_content body with
  | Raise e => (Raise e, [])
  | Ok (JStr content) =>
      match json_loads content with
      | Loaded data =>
          (bind (get data "SignType" (JStr "UNKNOWN")) (λ sign_type,
           bind (get data "FullMessage" (JStr text)) (λ full_message,
           Ok {| SignType := sign_type; FullMessage := full_message |})),
           [])
      | JSONDecodeError =>
          (Ok (fallback text),
           [Log (LogParseFailure text); Log (LogRawResponse content)])
      | LoadsRaises e => (Raise e, [])
      end
  | Ok _ => (Raise TypeError, [])
  end.

(** The loop [for attempt in range(config.max_retries)], with [remaining]
    iterations to go, followed by lines 83-88. *)
Fixpoint attempts (config : LLMConfig) (text : string)
    (attempt remaining : nat) (trace : list event)
  : result SignData * list event :=
  match remaining with
  | O => (Ok (fallback text), trace ++ [Log (LogAllFailed text)])
  | S remaining' =>
      match world attempt with
      | Body body =>
          let r := parse_response text body in
          (r.1, trace ++ [Post attempt] ++ r.2)
      | RequestException message =>
          let trace :=
            trace ++ [Post attempt;
                      Log (LogRequestFailed attempt (max_retries config) message)] in
          if (Z.of_nat attempt <? max_retries config - 1)%Z
          then
            if Qle_bool 0 (retry_delay config)
            then attempts config text (S attempt) remaining'
                   (trace ++ [Sleep (retry_delay config)])
            else (Raise ValueError, trace)
          else attempts config text (S attempt) remaining' trace
      end
  end.

Definition query_llm (config : LLMConfig) (text : string)
  : result SignData * list event :=
  attempts config text 0 (Z.to_nat (max_retries config)) [].

End query.

End LLM.

(** ** More of Python

    [int] on numbers, and a dictionary that is read back in insertion order
    ([list(d.values())]). *)

(** int(q): truncation towards zero. *)
Definition py_int (q : Q) : Z := Z.quot (Qnum q) (Z.pos (Qden q)).

(** d[k] = v: a key that is already there keeps its position. *)
Fixpoint dict_set {K V} `{EqDecision K} (k : K) (v : V) (d : list (K * V))
  : list (K * V) :=
  match d with
  | [] => [(k, v)]
  | (k', v') :: d' =>
      if decide (k' = k) then (k, v) :: d' else (k', v') :: dict_set k v d'
  end.

(** d.get(k) *)
Fixpoint dict_get {K V} `{EqDecision K} (k : K) (d : list (K * V)) : option V :=
  match d with
  | [] => None
  | (k', v') :: d' => if decide (k' = k) then Some v' else dict_get k d'
  end.

(** ** enhanced_multiline_ocr.py, run_multi_scan.py,
    run_enhanced_multi_scan.py: [scan_with_offset_grid]

    The page enters by its width and height.  The two [while] loops run on
    fuel: [None] is a loop that has not finished. *)

Module Grid.

Record Region := {
  row : nat;
  col : nat;
  x : Q;
  y : Q;
  width : Q;
  height : Q
}.

Section page.
Context (page_width page_height : Q).

(** The inner loop [while x < page.rect.width] of the row at [y]. *)
Fixpoint cols_loop (fuel : nat) (grid_size step : Q) (row : nat) (y : Q)
    (x : Q) (col : nat) (regions : list Region) : option (list Region) :=
  match fuel with
  | O => None
  | S fuel =>
      if Qltb x page_width
      then
        let width := Qmin grid_size (page_width - x) in
        let height := Qmin grid_size (page_height - y) in
        let regions :=
          if Qltb 20 width && Qltb 20 height
          then regions ++ [{| row := row; col := col; x := x; y := y;
                              width := width; height := height |}]
          else regions in
        cols_loop fuel grid_size step row y (x + step) (S col) regions
      else Some regions
  end.

(** The outer loop [while y < page.rect.height]; [fuel] is the fuel of each
    run of the inner loop. *)
Fixpoint rows_loop (fuel_rows fuel : nat) (grid_size step offset_x : Q)
    (y : Q) (row : nat) (regions : list Region) : option (list Region) :=
  match fuel_rows with
  | O => None
  | S fuel_rows =>
      if Qltb y page_height
      then
        regions ← cols_loop fuel grid_size step row y offset_x 0 regions;
        rows_loop fuel_rows fuel grid_size step offset_x (y + step) (S row)
          regions
      else Some regions
  end.

Definition scan_with_offset_grid (fuel : nat)
    (offset_x offset_y grid_size overlap : Q) : option (list Region) :=
  let step := (grid_size - overlap)%Q in
  rows_loop fuel fuel grid_size step offset_x offset_y 0 [].

End page.
End Grid.

(** A region appended by the run of the inner loop that starts at [x0] with
    column number [col0], in the row [row] at [y], on a page [W] wide and [H]
    high. *)
Definition in_row (W H grid_size step : Q) (row : nat) (y x0 : Q) (col0 : nat)
    (r : Grid.Region) : Prop :=
  Grid.row r = row ∧ (col0 ≤ Grid.col r)%nat ∧ Grid.y r = y
  ∧ (Grid.x r == x0 + inject_Z (Z.of_nat (Grid.col r - col0)) * step)%Q
  ∧ (Grid.x r < W)%Q
  ∧ Grid.width r = Qmin grid_size (W - Grid.x r)
  ∧ Grid.height r = Qmin grid_size (H - y)
  ∧ (20 < Grid.width r)%Q ∧ (20 < Grid.height r)%Q.

(** A region appended by the run of the outer loop that starts at [y0] with
    row number [row0]. *)
Definition in_grid (W H grid_size step offset_x y0 : Q) (row0 : nat)
    (r : Grid.Region) : Prop :=
  (row0 ≤ Grid.row r)%nat
  ∧ (Grid.y r == y0 + inject_Z (Z.of_nat (Grid.row r - row0)) * step)%Q
  ∧ (Grid.y r < H)%Q
  ∧ (Grid.x r == offset_x + inject_Z (Z.of_nat (Grid.col r)) * step)%Q
  ∧ (Grid.x r < W)%Q
  ∧ Grid.width r = Qmin grid_size (W - Grid.x r)
  ∧ Grid.height r = Qmin grid_size (H - Grid.y r)
  ∧ (20 < Grid.width r)%Q ∧ (20 < Grid.height r)%Q.

(** [r] sits at its place in the grid, is more than 20 and at most
    [grid_size] wide and high, and lies inside the page. *)
Definition region_in_page (W H offset_x offset_y grid_size overlap : Q)
    (r : Grid.Region) : Prop :=
  (Grid.x r
   == offset_x + inject_Z (Z.of_nat (Grid.col r)) * (grid_size - overlap))%Q
  ∧ (Grid.y r
     == offset_y + inject_Z (Z.of_nat (Grid.row r)) * (grid_size - overlap))%Q
  ∧ (20 < Grid.width r <= grid_size)%Q ∧ (20 < Grid.height r <= grid_size)%Q
  ∧ (Grid.x r + Grid.width r <= W)%Q
  ∧ (Grid.y r + Grid.height r <= H)%Q.

(** The point [(px, py)] is inside the region. *)
Definition covers (r : Grid.Region) (px py : Q) : Prop :=
  (Grid.x r <= px < Grid.x r + Grid.width r)%Q
  ∧ (Grid.y r <= py < Grid.y r + Grid.height r)%Q.

(** ** region_ocr.py: [grid_scan_pdf] *)

Module RegionOcr.

Section page.
Context (page_width page_height : Q).

(** The body of the two [for] loops for one [(row, col)]. *)
Definition cell (grid_size step : Q) (row col : nat) : list Grid.Region :=
  let x := (inject_Z (Z.of_nat col) * step)%Q in
  let y := (inject_Z (Z.of_nat row) * step)%Q in
  let width := Qmin grid_size (page_width - x) in
  let height := Qmin grid_size (page_height - y) in
  if Qltb 20 width && Qltb 20 height
  then [{| Grid.row := row; Grid.col := col; Grid.x := x; Grid.y := y;
           Grid.width := width; Grid.height := height |}]
  else [].

(** [None]: ZeroDivisionError, when [grid_size = overlap]. *)
Definition grid_scan_pdf (grid_size overlap : Q) : option (list Grid.Region) :=
  let step := (grid_size - overlap)%Q in
  if Qeq_bool step 0 then None
  else
    let cols := py_int ((page_width + overlap) / step) in
    let rows := py_int ((page_height + overlap) / step) in
    Some (row ← seq 0 (Z.to_nat rows);
          col ← seq 0 (Z.to_nat cols);
          cell grid_size step row col).

End page.
End RegionOcr.

(** ** run_enhanced_multi_scan.py: [deduplicate_room_names]
    (fast_fullpage_ocr.py: [deduplicate_rooms]) *)

Module RoomDedup.

Section threshold.
Context (position_threshold : Q).

(** f"{round(room['x']/position_threshold)}_{round(room['y']/position_threshold)}":
    the two integers determine the string and the string determines them, so
    the key is the pair.  [None]: ZeroDivisionError. *)
Definition pos_key (room : Joiner.Room) : option (Z * Z) :=
  if Qeq_bool position_threshold 0 then None
  else Some (py_round (Joiner.room_x room / position_threshold),
             py_round (Joiner.room_y room / position_threshold)).

(** One iteration of [for room in room_names]. *)
Definition step (unique_rooms : list (Z * Z * Joiner.Room))
    (room : Joiner.Room) : option (list (Z * Z * Joiner.Room)) :=
  pos_key ← pos_key room;
  match dict_get pos_key unique_rooms with
  | None => Some (dict_set pos_key room unique_rooms)
  | Some old =>
      if Qltb (Joiner.room_confidence old) (Joiner.room_confidence room)
      then Some (dict_set pos_key room unique_rooms)
      else Some unique_rooms
  end.

Fixpoint loop (room_names : list Joiner.Room)
    (unique_rooms : list (Z * Z * Joiner.Room))
  : option (list (Z * Z * Joiner.Room)) :=
  match room_names with
  | [] => Some unique_rooms
  | room :: rest => unique_rooms ← step unique_rooms room; loop rest unique_rooms
  end.

Definition deduplicate_room_names (room_names : list Joiner.Room)
  : option (list Joiner.Room) :=
  unique_rooms ← loop room_names [];
  Some (unique_rooms.*2).

(** The two rooms have the same position key. *)
Definition same_cell (a b : Joiner.Room) : Prop := pos_key a = pos_key b.

(** The invariant of the loop, with [seen] the rooms read so far: the keys
    are distinct, every entry is a room read, stored under its key, and every
    room read has an entry under its key with at least its confidence. *)
Definition dedup_inv (seen : list Joiner.Room)
    (d : list (Z * Z * Joiner.Room)) : Prop :=
  NoDup d.*1
  ∧ (∀ k v, (k, v) ∈ d → v ∈ seen ∧ pos_key v = Some k)
  ∧ (∀ r, r ∈ seen →
       ∃ k v, pos_key r = Some k ∧ (k, v) ∈ d
         ∧ (Joiner.room_confidence r <= Joiner.room_confidence v)%Q).

End threshold.
End RoomDedup.

(** A phrase of ocr_server.py has at least one word and sits at the position
    of one of [words]. *)
Definition server_phrase_of (words : list WordBox) (p : OcrServer.Phrase)
  : Prop :=
  (1 ≤ OcrServer.word_count p)%nat
  ∧ ∃ w, w ∈ words ∧ OcrServer.x p = w_x w ∧ OcrServer.y p = w_y w.

(** ** Greedy grouping around seeds

    The loop shared by [merge_adjacent_texts] and [group_nearby_texts]: the
    first item not yet used seeds a group, and one scan over all items adds
    to the group every unused item that [accepts seed parts] lets in, where
    [parts] are the members of the group so far.  Here the groups keep the
    indices of their members; the functions of the scripts, below, do not. *)
Section seed_groups.
Context {A : Type} (accepts : A → list A → A → bool).

Fixpoint seed_collect (seed : A) (items : list (nat * A)) (used : gset nat)
    (parts : list (nat * A)) : gset nat * list (nat * A) :=
  match items with
  | [] => (used, parts)
  | (j, c) :: rest =>
      if bool_decide (j ∈ used) then seed_collect seed rest used parts
      else if accepts seed parts.*2 c
      then seed_collect seed rest ({[j]} ∪ used) (parts ++ [(j, c)])
      else seed_collect seed rest used parts
  end.

Fixpoint seed_loop (texts : list A) (items : list (nat * A)) (used : gset nat)
    (groups : list (list (nat * A))) : list (list (nat * A)) :=
  match items with
  | [] => groups
  | (i, seed) :: rest =>
      if bool_decide (i ∈ used) then seed_loop texts rest used groups
      else
        let st := seed_collect seed (enumerate texts) ({[i]} ∪ used)
                    [(i, seed)] in
        seed_loop texts rest st.1 (groups ++ [st.2])
  end.

Definition seed_groups (texts : list A) : list (list (nat * A)) :=
  seed_loop texts (enumerate texts) ∅ [].

(** Each member after the seed was let in by [accepts], given the members
    before it. *)
Definition seed_chain (group : list (nat * A)) : Prop :=
  ∃ seed, head group = Some seed
    ∧ ∀ k c, (0 < k)%nat → group !! k = Some c →
        accepts seed.2 (take k group).*2 c.2 = true.

(** [it] is an item of [texts] under its index. *)
Definition from_texts (texts : list A) (it : nat * A) : Prop :=
  texts !! it.1 = Some it.2.

(** The invariant of [seed_loop]: the members of the groups are items of
    [texts], with distinct indices, which are the used ones. *)
Definition seed_inv (texts : list A) (used : gset nat)
    (groups : list (list (nat * A))) : Prop :=
  NoDup (concat groups).*1
  ∧ (∀ j, j ∈ used ↔ j ∈ (concat groups).*1)
  ∧ Forall (from_texts texts) (concat groups)
  ∧ Forall seed_chain groups.

End seed_groups.

(** ** run_multi_scan.py: [merge_adjacent_texts]
    (deduplication_demo.py: [merge_nearby_texts]) *)

Module Merge.

Section threshold.
Context (merge_threshold : Q).

(** y_diff < 5 and x_diff < merge_threshold *)
Definition close (text1 text2 : Dedup.Label) : bool :=
  Qltb (Qabs (fsub (Dedup.y text1) (Dedup.y text2))) 5
  && Qltb (Qabs (fsub (Dedup.x text1) (Dedup.x text2))) merge_threshold.

(** any(text2['text'] in p['text'] or p['text'] in text2['text']
        for p in parts) *)
Definition contained (text2 : Dedup.Label) (parts : list Dedup.Label) : bool :=
  existsb (λ p, Py.str_in (Dedup.text text2) (Dedup.text p)
                || Py.str_in (Dedup.text p) (Dedup.text text2)) parts.

(** The inner loop [for j, text2 in enumerate(texts)]. *)
Fixpoint collect (text1 : Dedup.Label) (items : list (nat * Dedup.Label))
    (used : gset nat) (parts : list Dedup.Label)
  : gset nat * list Dedup.Label :=
  match items with
  | [] => (used, parts)
  | (j, text2) :: rest =>
      if bool_decide (j ∈ used) then collect text1 rest used parts
      else if close text1 text2
      then if negb (contained text2 parts)
           then collect text1 rest ({[j]} ∪ used) (parts ++ [text2])
           else collect text1 rest used parts
      else collect text1 rest used parts
  end.

(** key=lambda t: t['x'] *)
Definition x_ltb (a b : Dedup.Label) : bool := Qltb (Dedup.x a) (Dedup.x b).

(** What is appended for the seed [text1] and its [parts]; the key
    'scan_mode' ('scan' in the demo) is the field [scan]. *)
Definition merged_entry (text1 : Dedup.Label) (parts : list Dedup.Label)
  : Dedup.Label :=
  if (1 <? length parts)%nat
  then
    let parts := py_sorted x_ltb parts in
    let leftmost := default text1 (head parts) in
    {| Dedup.text := join_space (Dedup.text <$> parts);
       Dedup.x := Dedup.x leftmost;
       Dedup.y := Dedup.y leftmost;
       Dedup.confidence := fdiv (py_sum (Dedup.confidence <$> parts))
                             (inject_Z (Z.of_nat (length parts)));
       Dedup.scan := "merged" |}
  else text1.

(** The outer loop [for i, text1 in enumerate(texts)]. *)
Fixpoint merge_loop (texts : list Dedup.Label)
    (items : list (nat * Dedup.Label)) (used : gset nat)
    (merged : list Dedup.Label) : list Dedup.Label :=
  match items with
  | [] => merged
  | (i, text1) :: rest =>
      if bool_decide (i ∈ used) then merge_loop texts rest used merged
      else
        let st := collect text1 (enumerate texts) ({[i]} ∪ used) [text1] in
        merge_loop texts rest st.1 (merged ++ [merged_entry text1 st.2])
  end.

Definition merge_adjacent_texts (texts : list Dedup.Label)
  : list Dedup.Label :=
  merge_loop texts (enumerate texts) ∅ [].

(** [group] is a seed followed by the texts merged into it, and [m] is its
    entry: each merged text is close to the seed, and no text of the group
    occurs inside a later one or contains it (so no two are equal). *)
Definition merge_group (group : list Dedup.Label) (m : Dedup.Label) : Prop :=
  ∃ text1 rest, group = text1 :: rest
    ∧ m = merged_entry text1 group
    ∧ Forall (λ text2, close text1 text2 = true) rest
    ∧ ∀ i j p c, (i < j)%nat → group !! i = Some p → group !! j = Some c →
        ¬ Dedup.substring_of (Dedup.text c) (Dedup.text p)
        ∧ ¬ Dedup.substring_of (Dedup.text p) (Dedup.text c).

End threshold.
End Merge.

(** ** run_multi_scan.py, run_enhanced_multi_scan.py,
    enhanced_multiline_ocr.py: [is_valid_room_name] *)

Module RoomName.

(** c.isalpha() and c.isalnum() for an ASCII character *)
Definition is_alpha (c : ascii) : bool :=
  let n := nat_of_ascii c in
  (((65 <=? n) && (n <=? 90)) || ((97 <=? n) && (n <=? 122)))%nat.

Definition is_alnum (c : ascii) : bool := is_alpha c || Py.is_digit c.

(** run_multi_scan.py *)
Definition is_valid_room_name (text : string) : bool :=
  let t := Py.strip text in
  if Py.startswith_char "T" t && Py.isdigit (Py.tail t) then false
  else if Py.isdigit (Py.remove_char "," (Py.remove_char "." t)) then false
  else if (String.length t <? 2)%nat then false
  else if negb (existsb is_alpha (Py.chars t)) then false
  else true.

(** enhanced_multiline_ocr.py and run_enhanced_multi_scan.py *)
Definition enhanced_is_valid_room_name (text : string) : bool :=
  let t := Py.strip text in
  if Joiner.is_room_code t then false
  else if (String.length t <? 2)%nat then false
  else if negb (existsb is_alpha (Py.chars t)) then false
  else
    let alnum :=
      length (filter (λ c, is_alnum c || Py.char_in c " .,#-/" = true)
                (Py.chars t)) in
    if Qltb (inject_Z (Z.of_nat alnum))
         (inject_Z (Z.of_nat (String.length t)) * (5 # 10))
    then false
    else true.

End RoomName.

(** ** extract_real_room_names.py: [group_nearby_texts], [is_room_name] *)

Module Nearby.

Section threshold.
Context (distance_threshold : Q).

(** x_diff < 50 and y_diff < distance_threshold *)
Definition close (text1 text2 : Dedup.Label) : bool :=
  Qltb (Qabs (fsub (Dedup.x text1) (Dedup.x text2))) 50
  && Qltb (Qabs (fsub (Dedup.y text1) (Dedup.y text2))) distance_threshold.

(** The inner loop [for j, text2 in enumerate(texts)]. *)
Fixpoint collect (text1 : Dedup.Label) (items : list (nat * Dedup.Label))
    (used : gset nat) (group : list Dedup.Label)
  : gset nat * list Dedup.Label :=
  match items with
  | [] => (used, group)
  | (j, text2) :: rest =>
      if bool_decide (j ∈ used) then collect text1 rest used group
      else if close text1 text2
      then collect text1 rest ({[j]} ∪ used) (group ++ [text2])
      else collect text1 rest used group
  end.

(** The outer loop [for i, text1 in enumerate(texts)]. *)
Fixpoint group_loop (texts : list Dedup.Label)
    (items : list (nat * Dedup.Label)) (used : gset nat)
    (groups : list (list Dedup.Label)) : list (list Dedup.Label) :=
  match items with
  | [] => groups
  | (i, text1) :: rest =>
      if bool_decide (i ∈ used) then group_loop texts rest used groups
      else
        let st := collect text1 (enumerate texts) ({[i]} ∪ used) [text1] in
        group_loop texts rest st.1 (groups ++ [st.2])
  end.

Definition group_nearby_texts (texts : list Dedup.Label)
  : list (list Dedup.Label) :=
  group_loop texts (enumerate texts) ∅ [].

End threshold.

(** re.match(r'^T\d{3,4}', t) *)
Definition t_code (t : string) : bool :=
  match Py.chars t with
  | c0 :: c1 :: c2 :: c3 :: _ =>
      bool_decide (c0 = "T"%char) && Py.is_digit c1 && Py.is_digit c2
      && Py.is_digit c3
  | _ => false
  end.

(** re.match(r'^[\d\.\,]+$', t), for a [t] that does not end in a newline
    (it is stripped) *)
Definition number_chars (t : string) : bool :=
  match Py.chars t with
  | [] => false
  | l => forallb (λ c, Py.is_digit c || bool_decide (c = "."%char)
                       || bool_decide (c = ","%char)) l
  end.

(** The rest of [l] after its leading digits. *)
Fixpoint skip_digits (l : list ascii) : list ascii :=
  match l with
  | c :: l' => if Py.is_digit c then skip_digits l' else l
  | [] => []
  end.

(** re.match(r'^\d+\.?\d*$', t), for a [t] that does not end in a newline *)
Definition measurement (t : string) : bool :=
  match Py.chars t with
  | [] => false
  | c :: l =>
      Py.is_digit c
      && match skip_digits l with
         | [] => true
         | d :: fraction =>
             bool_decide (d = "."%char) && forallb Py.is_digit fraction
         end
  end.

Definition is_room_name (text : string) : bool :=
  let t := Py.strip text in
  if t_code t then false
  else if number_chars t then false
  else if (String.length t <? 2)%nat then false
  else if measurement t then false
  else if negb (existsb RoomName.is_alpha (Py.chars t)) then false
  else true.

End Nearby.

(** ** Automapper.py: [hex_to_rgb] *)

Module Color.

(** s.lstrip('#') *)
Fixpoint lstrip_hash (l : list ascii) : list ascii :=
  match l with
  | c :: l' => if bool_decide (c = "#"%char) then lstrip_hash l' else l
  | [] => []
  end.

(** range(0, stop, step) for a positive step *)
Definition range_step (stop step : nat) : list nat :=
  (λ k, (k * step)%nat) <$> seq 0 ((stop + step - 1) / step).

(** The value of one hexadecimal digit. *)
Definition hex_digit (c : ascii) : option Z :=
  let n := nat_of_ascii c in
  if ((48 <=? n) && (n <=? 57))%nat then Some (Z.of_nat (n - 48))
  else if ((97 <=? n) && (n <=? 102))%nat then Some (Z.of_nat (n - 87))
  else if ((65 <=? n) && (n <=? 70))%nat then Some (Z.of_nat (n - 55))
  else None.

(** The number written by a list of hexadecimal digits. *)
Definition hex_value (digits : list Z) : Z :=
  foldl (λ acc d, (16 * acc + d)%Z) 0%Z digits.

Section int.
(** [int(s, 16)]; [None] is its ValueError. *)
Context (int16 : string → option Z).

Definition hex_to_rgb (hex_color : string) : option (list Q) :=
  let hex_color := lstrip_hash (Py.chars hex_color) in
  let lv := length hex_color in
  let step := (lv / 3)%nat in
  if (step =? 0)%nat then None        (* range() arg 3 must not be zero *)
  else
    mapM (λ i, n ← int16 (String.string_of_list_ascii
                            (take step (drop i hex_color)));
               Some (inject_Z n / 255)%Q)
      (range_step lv step).

(** [int16] reads a non-empty string of hexadecimal digits as the number it
    writes. *)
Definition reads_hex : Prop :=
  ∀ (s : string) (digits : list Z),
    s ≠ EmptyString → mapM hex_digit (Py.chars s) = Some digits →
    int16 s = Some (hex_value digits).

End int.
End Color.

(** ** Automapper.py: [extract_sign_type_pages] *)

Module SignPages.

(** One row of [get_toc(simple=True)]: [level, title, page_num]. *)
Record Bookmark := { level : Z; title : string; page_num : Z }.

(** What the call leaves behind: nothing (the two early returns), or an
    output PDF with the given pages of the source, in this order. *)
Inductive outcome :=
  | SourceNotFound
  | NoSignTypes
  | Saved (pages : list Z).

(** {details[1] for details in legend_data.values()} *)
Definition sign_types (legend_data : list (string * (nat * string)))
  : gset string :=
  list_to_set ((λ entry, entry.2.2) <$> legend_data).

(** {title.strip(): page_num - 1 for level, title, page_num in bookmarks}:
    a later bookmark replaces an earlier one of the same title. *)
Definition bookmark_dict (bookmarks : list Bookmark) : gmap string Z :=
  foldl (λ d b, <[Py.strip (title b) := (page_num b - 1)%Z]> d) ∅ bookmarks.

(** [bookmark_dict[sign_type] for sign_type in sign_types
     if sign_type in bookmark_dict], in the iteration order of the set *)
Definition pages_to_include (sign_types : gset string)
    (bookmark_dict : gmap string Z) : list Z :=
  omap (λ sign_type, bookmark_dict !! sign_type) (elements sign_types).

(** [source_is_file] is [os.path.isfile(source_pdf_path)]; the pages are
    [sorted(set(pages_to_include))]. *)
Definition extract_sign_type_pages
    (legend_data : list (string * (nat * string))) (source_is_file : bool)
    (bookmarks : list Bookmark) : outcome :=
  if negb source_is_file then SourceNotFound
  else
    let pages_to_include :=
      pages_to_include (sign_types legend_data) (bookmark_dict bookmarks) in
    match pages_to_include with
    | [] => NoSignTypes
    | _ => Saved (py_sorted Z.ltb
                    (elements (list_to_set pages_to_include : gset Z)))
    end.

(** Page [p] is the page of the bookmark of a sign type of the legend. *)
Definition wanted (legend_data : list (string * (nat * string)))
    (bookmarks : list Bookmark) (p : Z) : Prop :=
  ∃ color count sign_type,
    (color, (count, sign_type)) ∈ legend_data
    ∧ bookmark_dict bookmarks !! sign_type = Some p.

End SignPages.

(** ** Automapper.py: the bookkeeping of [process_all_pdfs]

    What an accepted phrase adds to [message_schedule], [dot_number] and
    [legend_data] (lines 408-430); sign types are strings. *)

Module Ledger.

(** One row of [message_schedule]; 'Number' is [dot_number], written with
    [f"{dot_number:04d}"]. *)
Record Entry := {
  SignType : string;
  Message : string;
  Number : nat;
  PDFPage : nat;
  PDFFile : string
}.

(** What an accepted phrase brings to the bookkeeping. *)
Record Annotation := {
  sign_type : string;
  full_message : string;
  page_num : nat;
  pdf_file : string
}.

Record State := {
  dot_number : nat;
  message_schedule : list Entry;
  legend_data : list (string * (nat * string))   (* color -> [count, type] *)
}.

Definition initial : State :=
  {| dot_number := 1; message_schedule := []; legend_data := [] |}.

Section colors.
Context (st_data : gmap string string) (default_color_hex : string).

(** st_data.get(sign_type, default_color_hex) *)
Definition color_of (sign_type : string) : string :=
  default default_color_hex (st_data !! sign_type).

(** Lines 426-430. *)
Definition legend_add (color_hex sign_type : string)
    (legend_data : list (string * (nat * string)))
  : list (string * (nat * string)) :=
  match dict_get color_hex legend_data with
  | Some (count, first_type) =>
      dict_set color_hex (S count, first_type) legend_data
  | None => dict_set color_hex (1%nat, sign_type) legend_data
  end.

(** The bookkeeping of one annotation. *)
Definition record (st : State) (a : Annotation) : State :=
  let color_hex := color_of (sign_type a) in
  {| dot_number := S (dot_number st);
     message_schedule :=
       message_schedule st
       ++ [{| SignType := sign_type a; Message := full_message a;
              Number := dot_number st; PDFPage := page_num a + 1;
              PDFFile := pdf_file a |}];
     legend_data := legend_add color_hex (sign_type a) (legend_data st) |}.

(** The annotations of colour [color_hex], in order. *)
Definition of_color (color_hex : string) (annotations : list Annotation)
  : list Annotation :=
  filter (λ a, color_of (sign_type a) = color_hex) annotations.

(** The state after the annotations [annotations]. *)
Definition ledger_inv (annotations : list Annotation) (st : State) : Prop :=
  dot_number st = S (length annotations)
  ∧ Number <$> message_schedule st = seq 1 (length annotations)
  ∧ SignType <$> message_schedule st = sign_type <$> annotations
  ∧ NoDup (legend_data st).*1
  ∧ ∀ color count first_type,
      (color, (count, first_type)) ∈ legend_data st
      ↔ count = length (of_color color annotations)
        ∧ sign_type <$> head (of_color color annotations) = Some first_type.

End colors.
End Ledger.

(** ** fast_fullpage_ocr.py: [group_multiline_texts_fast] *)

Module Fast.

Record Phrase := {
  text : string;
  confidence : Q;
  x : Q;
  y : Q;
  width : Q;
  height : Q;
  word_count : nat
}.

(** The dictionary built for the non-empty group [g0 :: gs]. *)
Definition phrase_entry (g0 : Multiline.Item) (gs : list Multiline.Item)
  : Phrase :=
  let group := g0 :: gs in
  let min_x := py_min (w_x g0.2) ((λ item : Multiline.Item, w_x item.2) <$> gs) in
  let min_y := py_min (w_y g0.2) ((λ item : Multiline.Item, w_y item.2) <$> gs) in
  let max_x := py_max (right_edge g0.2)
                 ((λ item : Multiline.Item, right_edge item.2) <$> gs) in
  let max_y := py_max (bottom_edge g0.2)
                 ((λ item : Multiline.Item, bottom_edge item.2) <$> gs) in
  {| text := join_space ((λ item : Multiline.Item, w_text item.2) <$> group);
     confidence :=
       fdiv (py_sum ((λ item : Multiline.Item, w_confidence item.2) <$> group))
         (inject_Z (Z.of_nat (length group)));
     x := min_x;
     y := min_y;
     width := fsub max_x min_x;
     height := fsub max_y min_y;
     word_count := length group |}.

(** for group in phrase_groups: if not group: continue; ... *)
Definition group_entry (group : list Multiline.Item) : option Phrase :=
  match group with
  | [] => None
  | g0 :: gs => Some (phrase_entry g0 gs)
  end.

Definition group_lines (y_tolerance : Q) (texts : list WordBox)
  : list (list Multiline.Item) :=
  split_runs (λ p c : Multiline.Item, same_line y_tolerance p.2 c.2)
    (enumerate texts).

(** One iteration of [for line in lines]; [line[0]] raises IndexError on an
    empty line. *)
Definition line_phrases (x_tolerance : Q) (line : list Multiline.Item)
  : option (list Phrase) :=
  match py_sorted (λ a b : Multiline.Item, x_ltb a.2 b.2) line with
  | [] => None
  | l0 :: rest =>
      let phrase_groups :=
        close_runs
          (run_loop (λ p c : Multiline.Item, same_phrase x_tolerance p.2 c.2)
             rest [] [l0]) in
      Some (omap group_entry phrase_groups)
  end.

Definition group_multiline_texts_fast (texts : list WordBox)
    (y_tolerance x_tolerance : Q) : option (list Phrase) :=
  let texts := py_sorted yx_ltb texts in
  let lines := group_lines y_tolerance texts in
  phrases ← mapM (line_phrases x_tolerance) lines;
  Some (concat phrases).

(** A phrase of [group_multiline_texts] without its 'y_tolerance' and
    'indices'. *)
Definition of_multiline (p : Multiline.Phrase) : Phrase :=
  {| text := Multiline.text p;
     confidence := Multiline.confidence p;
     x := Multiline.x p;
     y := Multiline.y p;
     width := Multiline.width p;
     height := Multiline.height p;
     word_count := Multiline.word_count p |}.

End Fast.

(** Every index of the candidate [c] is the first position of some word of
    the page ([words.index]). *)
Definition first_positions (words : list Automapper.Word)
    (c : Automapper.Candidate) : Prop :=
  Forall (λ k, ∃ w, Automapper.index words w = Some k)
    (Automapper.word_indices c).

(** ** Automapper.py: the cache of sign data of [process_all_pdfs] *)

Module Cache.

Section llm.
(** What the [n]-th call of [query_llm] of the run gives for the phrase it is
    sent: the sign data it returns, or [None] when it raises. *)
Context (answer : nat → string → option LLM.SignData).

Record State := {
  llm_cache : gmap string LLM.SignData;
  (* the phrases sent to [query_llm], in order, with what came back *)
  calls : list (string * option LLM.SignData)
}.

Definition initial : State := {| llm_cache := ∅; calls := [] |}.

(** Lines 358-366: the sign data of an accepted phrase; [None] when
    [query_llm] raises, which leaves the cache as it was. *)
Definition classify (st : State) (phrase : string)
  : State * option LLM.SignData :=
  match llm_cache st !! phrase with
  | Some sign_data => (st, Some sign_data)
  | None =>
      match answer (length (calls st)) phrase with
      | Some sign_data =>
          ({| llm_cache := <[phrase := sign_data]> (llm_cache st);
              calls := calls st ++ [(phrase, Some sign_data)] |},
           Some sign_data)
      | None =>
          ({| llm_cache := llm_cache st;
              calls := calls st ++ [(phrase, None)] |}, None)
      end
  end.

(** The accepted phrases of one PDF file, in order.  An exception leaves the
    file (line 463): its remaining phrases are not classified. *)
Fixpoint classify_file (st : State) (phrases : list string)
  : State * list (string * LLM.SignData) :=
  match phrases with
  | [] => (st, [])
  | phrase :: rest =>
      match classify st phrase with
      | (st', Some sign_data) =>
          let out := classify_file st' rest in
          (out.1, (phrase, sign_data) :: out.2)
      | (st', None) => (st', [])
      end
  end.

(** The files of the run, with the one cache of line 257. *)
Fixpoint classify_files (st : State) (files : list (list string))
  : State * list (list (string * LLM.SignData)) :=
  match files with
  | [] => (st, [])
  | phrases :: rest =>
      let out := classify_file st phrases in
      let outs := classify_files out.1 rest in
      (outs.1, out.2 :: outs.2)
  end.

End llm.

(** The phrases of the calls that returned. *)
Definition returned (calls : list (string * option LLM.SignData))
  : list string :=
  omap (λ c, match c.2 with Some _ => Some c.1 | None => None end) calls.

(** The cache holds exactly what the returned calls gave, once each. *)
Definition cache_inv (st : State) : Prop :=
  NoDup (returned (calls st))
  ∧ (∀ p, p ∈ returned (calls st) ↔ is_Some (llm_cache st !! p))
  ∧ (∀ p d, llm_cache st !! p = Some d → (p, Some d) ∈ calls st).

(** [st'] comes later in the run than [st]. *)
Definition extends (st st' : State) : Prop :=
  ∀ p d, llm_cache st !! p = Some d → llm_cache st' !! p = Some d.

End Cache.


(** * Properties *)

(** ** Numbers *)

Lemma Qltb_lt (a b : Q) : Qltb a b = true ↔ (a < b)%Q.
Proof.
  unfold Qltb. rewrite negb_true_iff. split.
  - intros H. apply Qnot_le_lt. intros Hle.
    apply Qle_bool_iff in Hle. congruence.
  - intros H. destruct (Qle_bool b a) eqn:E; [|done].
    apply Qle_bool_iff in E. exfalso. eapply Qlt_not_le; eauto.
Qed.

Lemma Qltb_ge (a b : Q) : Qltb a b = false ↔ (b <= a)%Q.
Proof. unfold Qltb. rewrite negb_false_iff. apply Qle_bool_iff. Qed.

Lemma Qltb_asym (a b : Q) : Qltb a b = true → Qltb b a = false.
Proof.
  rewrite Qltb_lt, Qltb_ge. apply Qlt_le_weak.
Qed.

(** ** The stable sort *)

Section py_sorted_facts.
Context {A : Type} (ltb : A → A → bool).

Lemma insert_stable_perm (a : A) (l : list A) :
  insert_stable ltb a l ≡ₚ a :: l.
Proof.
  induction l as [|b l IH]; simpl; [done|].
  destruct (ltb b a); [|done].
  rewrite IH. apply Permutation_swap.
Qed.

Lemma py_sorted_perm (l : list A) : py_sorted ltb l ≡ₚ l.
Proof.
  induction l as [|a l IH]; simpl; [done|].
  rewrite insert_stable_perm. by rewrite IH.
Qed.

Lemma py_sorted_length (l : list A) : length (py_sorted ltb l) = length l.
Proof. apply Permutation_length, py_sorted_perm. Qed.

Lemma py_sorted_nil_inv (l : list A) : py_sorted ltb l = [] → l = [].
Proof.
  intros H. apply Permutation_nil_r. rewrite <- H. symmetry. apply py_sorted_perm.
Qed.

(** With an asymmetric comparison the result is ascending: no element is
    strictly smaller than its predecessor. *)
Lemma insert_stable_adjacent (a : A) (l : list A) :
  (∀ u v, ltb u v = true → ltb v u = false) →
  adjacent (λ u v, ltb v u = false) l →
  adjacent (λ u v, ltb v u = false) (insert_stable ltb a l).
Proof.
  intros Hasym. induction l as [|b l IH]; simpl; [done|].
  intros Hl. destruct (ltb b a) eqn:Hba.
  - destruct l as [|c l]; simpl in *.
    + split; [by apply Hasym|done].
    + destruct Hl as [Hbc Hl]. specialize (IH Hl).
      destruct (ltb c a) eqn:Hca.
      * split; [done|exact IH].
      * split; [by apply Hasym|exact IH].
  - split; [done|exact Hl].
Qed.

Lemma py_sorted_adjacent (l : list A) :
  (∀ u v, ltb u v = true → ltb v u = false) →
  adjacent (λ u v, ltb v u = false) (py_sorted ltb l).
Proof.
  intros Hasym. induction l as [|a l IH]; simpl; [done|].
  by apply insert_stable_adjacent.
Qed.

End py_sorted_facts.

(** ** The run splitter *)

Section runs_facts.
Context {A : Type} (joins : A → A → bool).

Local Abbreviation R := (λ a b : A, joins a b = true).

Lemma adjacent_snoc (l : list A) (t : A) :
  adjacent R l → (∀ p, last l = Some p → joins p t = true) →
  adjacent R (l ++ [t]).
Proof.
  induction l as [|a l IH]; simpl; [done|].
  destruct l as [|b l]; simpl in *.
  - intros _ H. split; [by apply H|done].
  - intros [Hab Hl] H. split; [done|]. apply IH; [done|]. exact H.
Qed.

Lemma boundaries_grow (runs : list (list A)) (cur : list A) (t : A) :
  cur ≠ [] → boundaries R (runs ++ [cur]) →
  boundaries R (runs ++ [cur ++ [t]]).
Proof.
  intros Hne. induction runs as [|r runs IH]; simpl; [done|].
  destruct runs as [|r2 runs]; simpl in *.
  - intros [H _]. split; [|done]. intros a b Ha Hb. apply H; [done|].
    destruct cur; [done|]. simpl in *. done.
  - intros [H Hrest]. split; [done|]. by apply IH.
Qed.

Lemma boundaries_snoc (runs : list (list A)) (cur next : list A) :
  boundaries R (runs ++ [cur]) →
  (∀ a b, last cur = Some a → head next = Some b → ¬ joins a b = true) →
  boundaries R ((runs ++ [cur]) ++ [next]).
Proof.
  induction runs as [|r runs IH]; simpl.
  - intros _ H. split; [exact H|done].
  - destruct runs as [|r2 runs]; simpl in *.
    + intros [H _] Hn. split; [done|]. split; [exact Hn|done].
    + intros [H Hrest] Hn. split; [done|]. by apply IH.
Qed.

Lemma run_loop_inv (items : list A) : ∀ runs cur,
  run_inv R runs cur →
  run_inv R (run_loop joins items runs cur).1 (run_loop joins items runs cur).2
  ∧ concat (run_loop joins items runs cur).1 ++ (run_loop joins items runs cur).2
    = concat runs ++ cur ++ items.
Proof.
  induction items as [|t items IH]; intros runs cur Hinv; simpl.
  - split; [done|]. by rewrite app_nil_r.
  - destruct Hinv as (Hruns & Hcur & Hb & Hnil).
    destruct (last cur) as [prev|] eqn:Hlast.
    + assert (cur ≠ []) as Hne by (intros ->; done).
      destruct (joins prev t) eqn:Hj.
      * destruct (IH runs (cur ++ [t])) as [Hinv' Hcat].
        { split_and!; [done| |by apply boundaries_grow|].
          - apply adjacent_snoc; [done|]. intros p Hp. congruence.
          - intros E. by apply app_eq_nil in E as [_ ?]. }
        split; [done|]. rewrite Hcat. by rewrite <- !app_assoc.
      * destruct (IH (runs ++ [cur]) [t]) as [Hinv' Hcat].
        { split_and!; [|done| |done].
          - apply Forall_app. split; [done|]. by apply Forall_singleton.
          - apply boundaries_snoc; [done|].
            intros a b Ha Hb'. simpl in Hb'. simplify_eq. congruence. }
        split; [done|]. rewrite Hcat, concat_app. simpl.
        by rewrite app_nil_r, <- !app_assoc.
    + apply last_None in Hlast. subst cur. specialize (Hnil eq_refl). subst runs.
      destruct (IH [] [t]) as [Hinv' Hcat].
      { split_and!; [done|done|done|done]. }
      simpl in *. split; [done|]. by rewrite Hcat.
Qed.

Lemma close_runs_ok (runs : list (list A)) (cur items : list A) :
  run_inv R runs cur → concat runs ++ cur = items →
  runs_ok R (close_runs (runs, cur)) items.
Proof.
  intros (Hruns & Hcur & Hb & Hnil) Hcat. unfold close_runs. simpl.
  destruct cur as [|c cur].
  - rewrite Hnil in * by done. subst. split_and!; done.
  - split_and!.
    + rewrite concat_app. simpl. by rewrite app_nil_r.
    + apply Forall_app. split; [done|]. by apply Forall_singleton.
    + done.
Qed.

(** The runs are a partition of the input, in order, into non-empty pieces;
    inside a run every element joins its predecessor, and the first element of
    a run does not join the last element of the run before it. *)
Lemma split_runs_ok (items : list A) :
  runs_ok R (split_runs joins items) items.
Proof.
  unfold split_runs.
  destruct (run_loop_inv items [] []) as [Hinv Hcat]; [by split_and!|].
  destruct (run_loop joins items [] []) as [runs cur]. by apply close_runs_ok.
Qed.

Lemma run_loop_seeded (w0 : A) (rest : list A) :
  close_runs (run_loop joins rest [] [w0]) = split_runs joins (w0 :: rest).
Proof. done. Qed.

Lemma adjacent_lookup (Rp : A → A → Prop) (l : list A) (k : nat) (a b : A) :
  adjacent Rp l → l !! k = Some a → l !! S k = Some b → Rp a b.
Proof.
  revert k. induction l as [|c l IH]; intros k; [done|].
  destruct l as [|d l]; [by destruct k|].
  intros [Hcd Hl] Ha Hb. destruct k as [|k]; simpl in *.
  - by simplify_eq.
  - by eapply IH.
Qed.

(** Two consecutive elements of the input are in the same run exactly when
    the second joins the first. *)
Lemma same_run_iff (runs : list (list A)) (items : list A) :
  runs_ok R runs items → ∀ k a b,
  items !! k = Some a → items !! S k = Some b →
  (run_index runs k = run_index runs (S k) ↔ joins a b = true).
Proof.
  intros (Hcat & Hall & Hb). subst items.
  induction runs as [|r runs IH]; intros k a b Ha Hb'; [done|].
  simpl in Ha, Hb'. apply Forall_cons in Hall as [[Hne Hadj] Hall].
  assert (boundaries R runs) as Hbr.
  { destruct runs; [done|]. by destruct Hb. }
  simpl. destruct (decide (k < length r)) as [Hk|Hk].
  - rewrite lookup_app_l in Ha by done.
    destruct (decide (S k < length r)) as [Hk'|Hk'].
    + rewrite lookup_app_l in Hb' by done.
      split; [|done]. intros _. by eapply (adjacent_lookup R).
    + rewrite lookup_app_r in Hb' by lia.
      replace (S k - length r) with 0 in Hb' by lia.
      split; [done|]. intros Hj. exfalso.
      destruct runs as [|r2 runs]; [done|].
      destruct Hb as [Hb _]. apply (Hb a b); [| |done].
      * rewrite last_lookup. rewrite <- Ha. f_equal. lia.
      * apply Forall_cons in Hall as [[Hne2 _] _].
        destruct r2; [done|]. simpl in Hb'. done.
  - rewrite lookup_app_r in Ha by lia.
    rewrite lookup_app_r in Hb' by lia.
    destruct (decide (S k < length r)); [lia|].
    replace (S k - length r) with (S (k - length r)) in * by lia.
    rewrite <- (IH Hall Hbr (k - length r) a b Ha Hb'). lia.
Qed.

End runs_facts.

(** ** Float arithmetic *)

Lemma py_round_near (q : Q) : (Qabs (q - inject_Z (py_round q)) <= 1 # 2)%Q.
Proof.
  unfold py_round.
  pose proof (Qfloor_le q) as Hl. pose proof (Qlt_floor q) as Hu.
  rewrite inject_Z_plus in Hu. change (inject_Z 1) with 1%Q in Hu.
  apply Qabs_Qle_condition.
  destruct (Qltb (q - inject_Z (Qfloor q)) (1 # 2)) eqn:E1.
  { apply Qltb_lt in E1. split; lra. }
  apply Qltb_ge in E1.
  destruct (Qltb (1 # 2) (q - inject_Z (Qfloor q))) eqn:E2.
  { rewrite inject_Z_plus. change (inject_Z 1) with 1%Q. split; lra. }
  apply Qltb_ge in E2.
  destruct (Z.even (Qfloor q)).
  - split; lra.
  - rewrite inject_Z_plus. change (inject_Z 1) with 1%Q. split; lra.
Qed.

Lemma pow2_pos (k : Z) : (0 < pow2 k)%Q.
Proof. apply Qpower_0_lt. reflexivity. Qed.

Lemma pow2_plus (a b : Z) : (pow2 (a + b) == pow2 a * pow2 b)%Q.
Proof. apply Qpower_plus. discriminate. Qed.

Lemma pow2_nonneg (k : Z) : (0 ≤ k)%Z → (pow2 k == inject_Z (2 ^ k))%Q.
Proof. intros Hk. unfold pow2. by rewrite Zpower_Qpower. Qed.

Lemma ulp_pos (q : Q) : (0 < ulp q)%Q.
Proof. apply pow2_pos. Qed.

(** The rounded number is within half a unit of the exact one. *)
Lemma round64_near (q : Q) : (Qabs (round64 q - q) <= (1 # 2) * ulp q)%Q.
Proof.
  pose proof (ulp_pos q) as Hu. unfold round64.
  destruct (Qeq_bool q 0) eqn:E.
  - apply Qeq_bool_iff in E. apply Qabs_Qle_condition. split; lra.
  - rewrite Qred_correct.
    pose proof (py_round_near (q / ulp q)) as Hn.
    set (z := inject_Z (py_round (q / ulp q))) in *.
    assert (q / ulp q * ulp q == q)%Q as Eq by (field; lra).
    set (s := (q / ulp q)%Q) in *.
    apply Qabs_Qle_condition in Hn. apply Qabs_Qle_condition.
    split; nra.
Qed.

Lemma binade_spec (q : Q) :
  (0 < q)%Q → (pow2 (binade q) <= q < pow2 (binade q + 1))%Q.
Proof.
  intros Hq. destruct q as [n d]. unfold binade. cbn [Qnum Qden].
  assert (0 < n)%Z as Hn.
  { unfold Qlt in Hq. simpl in Hq. lia. }
  set (a := Z.log2 n). set (b := Z.log2 (Z.pos d)).
  pose proof (Z.log2_spec n Hn) as [Ha1 Ha2]. fold a in Ha1, Ha2.
  pose proof (Z.log2_spec (Z.pos d) ltac:(lia)) as [Hb1 Hb2].
  fold b in Hb1, Hb2.
  pose proof (Z.log2_nonneg n) as Ha0. fold a in Ha0.
  pose proof (Z.log2_nonneg (Z.pos d)) as Hb0. fold b in Hb0.
  assert (n # d == inject_Z n / inject_Z (Z.pos d))%Q as Eq.
  { apply Qmake_Qdiv. }
  assert (0 < inject_Z (Z.pos d))%Q as Hd.
  { change 0%Q with (inject_Z 0). rewrite <- Zlt_Qlt. lia. }
  assert (inject_Z (2 ^ a) <= inject_Z n)%Q as HA1 by (by rewrite <- Zle_Qle).
  assert (inject_Z n < inject_Z (2 ^ (a + 1)))%Q as HA2.
  { rewrite <- Zlt_Qlt. by rewrite <- Z.add_1_r in Ha2. }
  assert (inject_Z (2 ^ b) <= inject_Z (Z.pos d))%Q as HB1 by (by rewrite <- Zle_Qle).
  assert (inject_Z (Z.pos d) < inject_Z (2 ^ (b + 1)))%Q as HB2.
  { rewrite <- Zlt_Qlt. by rewrite <- Z.add_1_r in Hb2. }
  rewrite <- !pow2_nonneg in HA1, HA2, HB1, HB2 by lia.
  (* lower bound at a - b - 1, upper bound at a - b + 1 *)
  assert (pow2 (a - b - 1) <= n # d)%Q as Hlow.
  { rewrite Eq. apply Qle_shift_div_l; [done|].
    assert (pow2 (a - b - 1) * pow2 (b + 1) == pow2 a)%Q as E.
    { rewrite <- pow2_plus. by replace (a - b - 1 + (b + 1))%Z with a by lia. }
    pose proof (pow2_pos (a - b - 1)). nra. }
  assert (n # d < pow2 (a - b + 1))%Q as Hup.
  { rewrite Eq. apply Qlt_shift_div_r; [done|].
    assert (pow2 (a - b + 1) * pow2 b == pow2 (a + 1))%Q as E.
    { rewrite <- pow2_plus. by replace (a - b + 1 + b)%Z with (a + 1)%Z by lia. }
    pose proof (pow2_pos (a - b + 1)). nra. }
  destruct (Qle_bool (pow2 (a - b)) (n # d)) eqn:E.
  - apply Qle_bool_iff in E. split; done.
  - split.
    + done.
    + replace (a - b - 1 + 1)%Z with (a - b)%Z by lia.
      apply Qnot_le_lt. intros H. apply Qle_bool_iff in H. congruence.
Qed.

(** For a number that is not below the smallest normal double the rounding
    error is at most the fraction 2 ** -53 of it. *)
Lemma round64_relative (q : Q) :
  (pow2 (-1022) <= Qabs q)%Q →
  (Qabs (round64 q - q) <= pow2 (-53) * Qabs q)%Q.
Proof.
  intros Hnormal.
  pose proof (pow2_pos (-1022)) as Hp.
  assert (0 < Qabs q)%Q as Hq by lra.
  pose proof (binade_spec (Qabs q) Hq) as [Hlo Hhi].
  pose proof (round64_near q) as Hnear.
  set (e := binade (Qabs q)) in *.
  assert (-1022 ≤ e)%Z as He.
  { destruct (Z.le_gt_cases (-1022) e) as [?|Hlt]; [done|]. exfalso.
    assert (pow2 (-1022) == pow2 (e + 1) * pow2 (-1022 - (e + 1)))%Q as E.
    { rewrite <- pow2_plus.
      by replace (e + 1 + (-1022 - (e + 1)))%Z with (-1022)%Z by lia. }
    assert (1 <= pow2 (-1022 - (e + 1)))%Q as H1.
    { rewrite pow2_nonneg by lia. change 1%Q with (inject_Z 1).
      rewrite <- Zle_Qle.
      pose proof (Z.pow_pos_nonneg 2 (-1022 - (e + 1))). lia. }
    pose proof (pow2_pos (e + 1)) as Hpe.
    set (a := pow2 (e + 1)) in *. set (c := pow2 (-1022 - (e + 1))) in *.
    assert (0 <= a * (c - 1))%Q by (apply Qmult_le_0_compat; lra).
    lra. }
  assert (ulp q == pow2 (-52) * pow2 e)%Q as Eu.
  { unfold ulp. fold e. rewrite Z.max_l by lia.
    replace (e - 52)%Z with (-52 + e)%Z by lia. apply pow2_plus. }
  assert (pow2 (-53) == (1 # 2) * pow2 (-52))%Q as E53 by reflexivity.
  rewrite Eu in Hnear. rewrite E53.
  pose proof (pow2_pos (-52)). 
  set (u := pow2 (-52)) in *. set (p := pow2 e) in *.
  nra.
Qed.

Lemma pow2_le (a b : Z) : (a ≤ b)%Z → (pow2 a <= pow2 b)%Q.
Proof.
  intros Hab.
  assert (pow2 b == pow2 a * pow2 (b - a))%Q as E.
  { rewrite <- pow2_plus. by replace (a + (b - a))%Z with b by lia. }
  assert (1 <= pow2 (b - a))%Q as H1.
  { rewrite pow2_nonneg by lia. change 1%Q with (inject_Z 1).
    rewrite <- Zle_Qle. pose proof (Z.pow_pos_nonneg 2 (b - a)). lia. }
  pose proof (pow2_pos a) as Hpa.
  set (x := pow2 a) in *. set (c := pow2 (b - a)) in *.
  assert (0 <= x * (c - 1))%Q by (apply Qmult_le_0_compat; lra).
  lra.
Qed.

Lemma Qltb_comp (a a' b b' : Q) :
  (a == a')%Q → (b == b')%Q → Qltb a b = Qltb a' b'.
Proof.
  intros Ea Eb. destruct (Qltb a' b') eqn:E.
  - apply Qltb_lt. apply Qltb_lt in E. lra.
  - apply Qltb_ge. apply Qltb_ge in E. lra.
Qed.

Lemma py_round_comp (q q' : Q) : (q == q')%Q → py_round q = py_round q'.
Proof.
  intros E. unfold py_round.
  assert (Qfloor q = Qfloor q') as -> by (by apply Qfloor_comp).
  rewrite (Qltb_comp (q - inject_Z (Qfloor q')) (q' - inject_Z (Qfloor q'))
             (1 # 2) (1 # 2)) by lra.
  rewrite (Qltb_comp (1 # 2) (1 # 2) (q - inject_Z (Qfloor q'))
             (q' - inject_Z (Qfloor q'))) by lra.
  done.
Qed.

Lemma py_round_Z (n : Z) : py_round (inject_Z n) = n.
Proof.
  unfold py_round. rewrite Qfloor_Z.
  assert (Qltb (inject_Z n - inject_Z n) (1 # 2) = true) as ->; [|done].
  apply Qltb_lt. lra.
Qed.

(** A double is not changed by the rounding: [m * 2 ** k] with a
    significand [m] of at most 53 bits and [k] not below -1074. *)
Lemma round64_exact (m k : Z) :
  (Z.abs m < 2 ^ 53)%Z → (-1074 ≤ k)%Z →
  (round64 (inject_Z m * pow2 k) == inject_Z m * pow2 k)%Q.
Proof.
  intros Hm Hk. set (q := (inject_Z m * pow2 k)%Q).
  pose proof (pow2_pos k) as Hpk.
  unfold round64. destruct (Qeq_bool q 0) eqn:E0.
  { apply Qeq_bool_iff in E0. by rewrite E0. }
  rewrite Qred_correct.
  assert (¬ q == 0)%Q as Hq0.
  { intros H. apply Qeq_bool_iff in H. congruence. }
  assert (0 < Qabs q)%Q as Hq.
  { destruct (Qlt_le_dec 0 (Qabs q)) as [?|Hle]; [done|].
    exfalso. apply Hq0. pose proof (Qabs_nonneg q).
    assert (Qabs q == 0)%Q as H0 by lra.
    destruct (Qabs_Qle_condition q 0) as [Hc _].
    destruct Hc as [? ?]; lra. }
  pose proof (binade_spec (Qabs q) Hq) as [Hlo Hhi].
  set (e := binade (Qabs q)) in *.
  (* the unit is not above 2 ** k *)
  assert (Qabs q < pow2 (53 + k))%Q as Hlt.
  { unfold q. rewrite Qabs_Qmult, (Qabs_pos (pow2 k)) by lra.
    rewrite pow2_plus. rewrite (pow2_nonneg 53) by lia.
    assert (Qabs (inject_Z m) == inject_Z (Z.abs m))%Q as ->.
    { unfold Qabs, inject_Z. reflexivity. }
    assert (inject_Z (Z.abs m) < inject_Z (2 ^ 53))%Q by (by rewrite <- Zlt_Qlt).
    set (x := inject_Z (Z.abs m)) in *. set (y := inject_Z (2 ^ 53)) in *.
    set (p := pow2 k) in *.
    assert (0 < (y - x) * p)%Q by (apply Qmult_lt_0_compat; lra).
    lra. }
  assert (e - 52 ≤ k)%Z as He.
  { destruct (Z.le_gt_cases (e - 52) k) as [?|Hgt]; [done|]. exfalso.
    pose proof (pow2_le (53 + k) e ltac:(lia)). lra. }
  set (u := Z.max (e - 52) (-1074)).
  assert (u ≤ k)%Z as Hu by lia.
  assert (ulp q = pow2 u) as -> by done.
  pose proof (pow2_pos u) as Hpu.
  assert (pow2 k == pow2 (k - u) * pow2 u)%Q as Ek.
  { rewrite <- pow2_plus. by replace (k - u + u)%Z with k by lia. }
  assert (q / pow2 u == inject_Z (m * 2 ^ (k - u)))%Q as Es.
  { rewrite inject_Z_mult, <- pow2_nonneg by lia. unfold q.
    rewrite Ek. field. lra. }
  rewrite (py_round_comp _ _ Es), py_round_Z.
  rewrite inject_Z_mult, <- pow2_nonneg by lia. unfold q. rewrite Ek. ring.
Qed.

Lemma binade_unique (q : Q) (e : Z) :
  (pow2 e <= q < pow2 (e + 1))%Q → binade q = e.
Proof.
  intros [Hlo Hhi].
  assert (0 < q)%Q as Hq by (pose proof (pow2_pos e); lra).
  destruct (binade_spec q Hq) as [Hlo' Hhi'].
  set (e' := binade q) in *.
  destruct (Z.lt_trichotomy e' e) as [Hlt|[?|Hgt]]; [|done|].
  - pose proof (pow2_le (e' + 1) e ltac:(lia)). lra.
  - pose proof (pow2_le (e + 1) e' ltac:(lia)). lra.
Qed.

(** The rounding does not depend on how the rational is written. *)
Lemma round64_comp (q q' : Q) : (q == q')%Q → round64 q = round64 q'.
Proof.
  intros E. unfold round64.
  assert (Qeq_bool q 0 = Qeq_bool q' 0) as ->.
  { destruct (Qeq_bool q' 0) eqn:E0.
    - apply Qeq_bool_iff. apply Qeq_bool_iff in E0. lra.
    - destruct (Qeq_bool q 0) eqn:E1; [|done].
      apply Qeq_bool_iff in E1.
      assert (Qeq_bool q' 0 = true) by (apply Qeq_bool_iff; lra).
      congruence. }
  destruct (Qeq_bool q' 0) eqn:E0; [done|].
  assert (ulp q = ulp q') as ->.
  { unfold ulp. f_equal. f_equal. f_equal.
    assert (0 < Qabs q')%Q as Hq.
    { destruct (Qlt_le_dec 0 (Qabs q')) as [?|Hle]; [done|]. exfalso.
      pose proof (Qabs_nonneg q').
      destruct (Qabs_Qle_condition q' 0) as [Hc _].
      destruct Hc as [? ?]; [lra|].
      assert (Qeq_bool q' 0 = true) by (apply Qeq_bool_iff; lra).
      congruence. }
    apply binade_unique. rewrite E. by apply binade_spec. }
  apply Qred_complete.
  rewrite (py_round_comp (q / ulp q') (q' / ulp q')); [done|].
  by rewrite E.
Qed.

(** Whole numbers of at most 53 bits are doubles. *)
Lemma round64_Z (n : Z) :
  (Z.abs n < 2 ^ 53)%Z → (round64 (inject_Z n) == inject_Z n)%Q.
Proof.
  intros Hn.
  assert (inject_Z n == inject_Z n * pow2 0)%Q as E.
  { change (pow2 0) with 1%Q. ring. }
  rewrite (round64_comp _ _ E), round64_exact by (done || lia).
  by rewrite <- E.
Qed.

(** The rounded number is a double, and rounding it again changes
    nothing. *)
Lemma round64_double (q : Q) :
  ∃ m k, (Z.abs m < 2 ^ 53)%Z ∧ (-1074 ≤ k)%Z
    ∧ (round64 q == inject_Z m * pow2 k)%Q.
Proof.
  unfold round64. destruct (Qeq_bool q 0) eqn:E0.
  { exists 0%Z, 0%Z. split_and!; [done|done|]. by vm_compute. }
  assert (0 < Qabs q)%Q as Hq.
  { destruct (Qlt_le_dec 0 (Qabs q)) as [?|Hle]; [done|]. exfalso.
    pose proof (Qabs_nonneg q).
    destruct (Qabs_Qle_condition q 0) as [Hc _].
    destruct Hc as [? ?]; [lra|].
    assert (Qeq_bool q 0 = true) by (apply Qeq_bool_iff; lra).
    congruence. }
  pose proof (binade_spec (Qabs q) Hq) as [Hlo Hhi].
  unfold ulp. set (e := binade (Qabs q)) in *.
  set (u := Z.max (e - 52) (-1074)).
  pose proof (pow2_pos u) as Hpu.
  set (z := py_round (q / pow2 u)).
  (* the scaled number is below 2 ** 53 *)
  assert (Qabs (q / pow2 u) < inject_Z (2 ^ 53))%Q as Hs.
  { unfold Qdiv. rewrite Qabs_Qmult, (Qabs_pos (/ pow2 u)).
    2:{ apply Qlt_le_weak, Qinv_lt_0_compat, Hpu. }
    apply Qlt_shift_div_r; [done|].
    rewrite <- pow2_nonneg by lia. rewrite <- pow2_plus.
    eapply Qlt_le_trans; [exact Hhi|]. apply pow2_le. lia. }
  assert (Z.abs z ≤ 2 ^ 53)%Z as Hz.
  { pose proof (py_round_near (q / pow2 u)) as Hn. fold z in Hn.
    set (s := (q / pow2 u)%Q) in *.
    apply Qabs_Qle_condition in Hn. apply Qabs_Qlt_condition in Hs.
    assert (inject_Z z < inject_Z (2 ^ 53 + 1))%Q as H1.
    { rewrite inject_Z_plus. change (inject_Z 1) with 1%Q. lra. }
    assert (inject_Z (- (2 ^ 53 + 1)) < inject_Z z)%Q as H2.
    { rewrite inject_Z_opp, inject_Z_plus. change (inject_Z 1) with 1%Q. lra. }
    rewrite <- Zlt_Qlt in H1, H2. lia. }
  destruct (Z.eq_dec (Z.abs z) (2 ^ 53)%Z) as [Hmax|Hne].
  - exists (Z.sgn z), (u + 53)%Z. split_and!; [lia|lia|].
    rewrite Qred_correct, pow2_plus, (pow2_nonneg 53) by lia.
    assert (inject_Z z == inject_Z (Z.sgn z) * inject_Z (2 ^ 53))%Q as ->.
    { rewrite <- inject_Z_mult. f_equiv. rewrite <- Hmax. lia. }
    ring.
  - exists z, u. split_and!; [lia|lia|apply Qred_correct].
Qed.

Lemma round64_idem (q : Q) : (round64 (round64 q) == round64 q)%Q.
Proof.
  destruct (round64_double q) as (m & k & Hm & Hk & E).
  rewrite (round64_comp _ _ E), round64_exact by done. by rewrite E.
Qed.

(** ** Line grouping (ocr_server.py, enhanced_multiline_ocr.py) *)

Lemma same_line_le (y_tolerance : Q) (a b : WordBox) :
  same_line y_tolerance a b = true
  ↔ (Qabs (fsub (w_y b) (w_y a)) <= y_tolerance)%Q.
Proof. apply Qle_bool_iff. Qed.

Lemma same_phrase_le (x_tolerance : Q) (a b : WordBox) :
  same_phrase x_tolerance a b = true ↔ (x_gap a b <= x_tolerance)%Q.
Proof. apply Qle_bool_iff. Qed.

(** Skipping the used words inside the loop is the same as looping over the
    words that are not used. *)
Lemma multiline_line_loop_filter (y_tolerance : Q) (used : gset nat)
    (items : list Multiline.Item) : ∀ lines cur,
  Multiline.line_loop y_tolerance used items lines cur
  = run_loop (λ p c : Multiline.Item, same_line y_tolerance p.2 c.2)
      (filter (λ it : Multiline.Item, it.1 ∉ used) items) lines cur.
Proof.
  induction items as [|[i text] items IH]; intros lines cur; [done|].
  simpl. rewrite filter_cons. simpl.
  destruct (decide (i ∈ used)) as [Hin|Hin].
  - rewrite bool_decide_eq_true_2 by done.
    rewrite decide_False by (intros H; by apply H). apply IH.
  - rewrite bool_decide_eq_false_2 by done.
    rewrite decide_True by done. simpl.
    destruct (last cur) as [prev|]; [|apply IH].
    destruct (same_line y_tolerance prev.2 text); apply IH.
Qed.

Lemma multiline_group_lines_ok (y_tolerance : Q) (used : gset nat)
    (texts : list WordBox) :
  runs_ok (λ p c : Multiline.Item, same_line y_tolerance p.2 c.2 = true)
    (Multiline.group_lines y_tolerance used texts)
    (filter (λ it : Multiline.Item, it.1 ∉ used) (enumerate texts)).
Proof.
  unfold Multiline.group_lines. rewrite multiline_line_loop_filter.
  apply (split_runs_ok (λ p c : Multiline.Item, same_line y_tolerance p.2 c.2)).
Qed.

(** Three words, each one unit below the one before: with tolerance 1 they
    form one line, whose first and last word are 2 apart. *)
Example chained_line_spread :
  let w (y : Q) := {| w_text := "W"; w_confidence := 90; w_x := 0; w_y := y;
                      w_width := Some 5%Q; w_height := Some 5%Q;
                      w_display_x := None; w_display_y := None |} in
  let texts := [w 0%Q; w 1%Q; w 2%Q] in
  py_sorted yx_ltb texts = texts
  ∧ OcrServer.group_lines 1 texts = [texts]
  ∧ (Multiline.group_lines 1 ∅ texts = [enumerate texts])
  ∧ (1 < Qabs (w_y (w 2%Q) - w_y (w 0%Q)))%Q.
Proof. by vm_compute. Qed.

(** The difference that is compared with the tolerance is the float
    difference.  Two words with their tops at the pixels 1 and 36 of an image
    rendered at scale 2.5 have y = 0.4 and y = 14.4: their float difference
    is 14.0, and with tolerance 14 they are one line, although the two
    doubles are a little more than 14 apart. *)
Example line_difference_rounded :
  let w (y : Q) := {| w_text := "W"; w_confidence := 90; w_x := 0; w_y := y;
                      w_width := Some 5%Q; w_height := Some 5%Q;
                      w_display_x := None; w_display_y := None |} in
  let y1 := fdiv 1 (5 # 2) in
  let y2 := fdiv 36 (5 # 2) in
  let texts := [w y1; w y2] in
  py_sorted yx_ltb texts = texts
  ∧ OcrServer.group_lines 14 texts = [texts]
  ∧ Multiline.group_lines 14 ∅ texts = [enumerate texts]
  ∧ fsub y2 y1 = 14%Q
  ∧ (14 < y2 - y1)%Q.
Proof. by vm_compute. Qed.

(** C5.  The line grouper works on the words sorted by (y, x).  In
    ocr_server.py two consecutive words of that sequence end up in the same
    line exactly when the absolute difference of their y coordinates, as
    [abs(text['y'] - last['y'])] computes it, is at most the tolerance; in
    enhanced_multiline_ocr.py the same holds for two consecutive words among
    those not yet used.  The comparison is with the word added last, so a
    line can be taller than the tolerance: three words at y = 0, 1, 2 form
    one line under tolerance 1. *)
Theorem C5_line_grouper_chained (y_tolerance : Q) (texts : list WordBox)
    (used : gset nat) :
  let sorted_texts := py_sorted yx_ltb texts in
  (let lines := OcrServer.group_lines y_tolerance sorted_texts in
   concat lines = sorted_texts ∧ Forall (λ line, line ≠ []) lines
   ∧ ∀ k a b, sorted_texts !! k = Some a → sorted_texts !! S k = Some b →
       (run_index lines k = run_index lines (S k)
        ↔ (Qabs (fsub (w_y b) (w_y a)) <= y_tolerance)%Q))
  ∧ (let unused := filter (λ it : Multiline.Item, it.1 ∉ used)
                     (enumerate sorted_texts) in
     let lines := Multiline.group_lines y_tolerance used sorted_texts in
     concat lines = unused ∧ Forall (λ line, line ≠ []) lines
     ∧ ∀ k a b, unused !! k = Some a → unused !! S k = Some b →
         (run_index lines k = run_index lines (S k)
          ↔ (Qabs (fsub (w_y b.2) (w_y a.2)) <= y_tolerance)%Q))
  ∧ (∃ (tolerance : Q) (line : list WordBox) (a b : WordBox),
       py_sorted yx_ltb line = line
       ∧ OcrServer.group_lines tolerance line = [line]
       ∧ Multiline.group_lines tolerance ∅ line = [enumerate line]
       ∧ line !! 0%nat = Some a ∧ line !! 2%nat = Some b
       ∧ (tolerance < Qabs (w_y b - w_y a))%Q).
Proof.
  intros sorted_texts. split_and!.
  - pose proof (split_runs_ok (same_line y_tolerance) sorted_texts) as Hok.
    split; [apply Hok|]. split.
    { destruct Hok as (_ & Hall & _).
      eapply Forall_impl; [exact Hall|]. by intros line [? _]. }
    intros k a b Ha Hb.
    rewrite <- same_line_le. by eapply same_run_iff.
  - pose proof (multiline_group_lines_ok y_tolerance used sorted_texts) as Hok.
    split; [apply Hok|]. split.
    { destruct Hok as (_ & Hall & _).
      eapply Forall_impl; [exact Hall|]. by intros line [? _]. }
    intros k a b Ha Hb.
    rewrite <- same_line_le.
    by eapply (same_run_iff (λ p c : Multiline.Item, same_line y_tolerance p.2 c.2)).
  - destruct chained_line_spread as (H1 & H2 & H3 & H4).
    eexists 1%Q, _, _, _. split_and!; [exact H1|exact H2|exact H3|done|done|exact H4].
Qed.

Lemma C5_line_grouper_chained_witness :
  let w (x y : Q) := {| w_text := "W"; w_confidence := 90; w_x := x; w_y := y;
                        w_width := Some 5%Q; w_height := Some 5%Q;
                        w_display_x := None; w_display_y := None |} in
  let texts := [w 0%Q 30%Q; w 0%Q 0%Q; w 10%Q 4%Q] in
  run_index (OcrServer.group_lines 5 (py_sorted yx_ltb texts)) 0
  = run_index (OcrServer.group_lines 5 (py_sorted yx_ltb texts)) 1
  ↔ (Qabs (fsub (w_y (w 10%Q 4%Q)) (w_y (w 0%Q 0%Q))) <= 5)%Q.
Proof.
  intros w texts.
  destruct (C5_line_grouper_chained 5 texts ∅) as [(_ & _ & H) _].
  apply (H 0%nat (w 0%Q 0%Q) (w 10%Q 4%Q)); reflexivity.
Defined.

(** ** Phrase building (ocr_server.py) *)

Lemma adjacent_app_l {A} (R : A → A → Prop) (l1 l2 : list A) :
  adjacent R (l1 ++ l2) → adjacent R l1.
Proof.
  induction l1 as [|a l1 IH]; [done|].
  destruct l1 as [|b l1]; [done|]. simpl. intros [? ?]. split; [done|].
  by apply IH.
Qed.

Lemma adjacent_app_r {A} (R : A → A → Prop) (l1 l2 : list A) :
  adjacent R (l1 ++ l2) → adjacent R l2.
Proof.
  induction l1 as [|a l1 IH]; [done|].
  destruct l1 as [|b l1]; simpl.
  - destruct l2; [done|]. by intros [_ ?].
  - intros [_ ?]. by apply IH.
Qed.

Lemma adjacent_concat {A} (R : A → A → Prop) (ls : list (list A)) :
  adjacent R (concat ls) → Forall (adjacent R) ls.
Proof.
  induction ls as [|l ls IH]; simpl; [done|].
  intros H. apply Forall_cons. split.
  - by eapply adjacent_app_l.
  - apply IH. by eapply adjacent_app_r.
Qed.

Lemma x_sorted_ascending (line : list WordBox) :
  adjacent (λ a b, (w_x a <= w_x b)%Q) (py_sorted x_ltb line).
Proof.
  pose proof (py_sorted_adjacent x_ltb line) as H.
  assert (∀ u v, x_ltb u v = true → x_ltb v u = false) as Hasym.
  { intros u v. apply Qltb_asym. }
  specialize (H Hasym). revert H.
  generalize (py_sorted x_ltb line). intros l.
  induction l as [|a l IH]; [done|]. destruct l as [|b l]; [done|].
  simpl. intros [Hab Hl]. split; [|by apply IH].
  by apply Qltb_ge in Hab.
Qed.

Lemma adjacent_head {A} (R : A → A → Prop) (a : A) (l : list A) :
  (∀ u v w, R u v → R v w → R u w) →
  adjacent R (a :: l) → ∀ b, b ∈ l → R a b.
Proof.
  intros Htrans. revert a. induction l as [|c l IH]; intros a Hadj b Hb.
  - by apply elem_of_nil in Hb.
  - destruct Hadj as [Hac Hadj]. apply elem_of_cons in Hb as [->|Hb]; [done|].
    eapply Htrans; [exact Hac|]. by apply IH.
Qed.

(** Two ascending arrangements of the same elements are equal when the order
    is transitive and, on these elements, antisymmetric. *)
Lemma ascending_unique {A} (R : A → A → Prop) (l1 : list A) : ∀ l2,
  (∀ u v w, R u v → R v w → R u w) →
  (∀ a b, a ∈ l1 → b ∈ l1 → R a b → R b a → a = b) →
  adjacent R l1 → adjacent R l2 → l1 ≡ₚ l2 → l1 = l2.
Proof.
  induction l1 as [|a l1 IH]; intros l2 Htrans Hanti H1 H2 Hperm.
  - by apply Permutation_nil_l in Hperm.
  - destruct l2 as [|b l2]; [by apply Permutation_nil_r in Hperm|].
    assert (a = b) as ->.
    { assert (a ∈ b :: l2) as Ha by (rewrite <- Hperm; left).
      assert (b ∈ a :: l1) as Hb by (rewrite Hperm; left).
      apply elem_of_cons in Ha as [?|Ha]; [done|].
      apply elem_of_cons in Hb as [?|Hb]; [done|].
      apply Hanti; [by left|by right| |].
      - by apply (adjacent_head R a l1).
      - by apply (adjacent_head R b l2). }
    f_equal. apply IH.
    + done.
    + intros u v Hu Hv. apply Hanti; by right.
    + destruct l1; [done|]. by destruct H1.
    + destruct l2; [done|]. by destruct H2.
    + by apply Permutation_cons_inv in Hperm.
Qed.

(** Sorting by x forgets the order of the input when x-ties are between
    identical words only. *)
Lemma x_sorted_perm_eq (line line' : list WordBox) :
  x_ties_identical line → line' ≡ₚ line →
  py_sorted x_ltb line' = py_sorted x_ltb line.
Proof.
  intros Hties Hperm.
  apply (ascending_unique (λ a b, (w_x a <= w_x b)%Q)).
  - intros u v w. apply Qle_trans.
  - intros a b Ha Hb Hab Hba. rewrite py_sorted_perm, Hperm in Ha, Hb.
    apply Hties; [done|done|]. by apply Qle_antisym.
  - apply x_sorted_ascending.
  - apply x_sorted_ascending.
  - by rewrite !py_sorted_perm.
Qed.

Lemma phrase_groups_split (x_tolerance : Q) (line : list WordBox) :
  line ≠ [] →
  OcrServer.phrase_groups x_tolerance line
  = Some (split_runs (same_phrase x_tolerance) (py_sorted x_ltb line)).
Proof.
  intros Hne. unfold OcrServer.phrase_groups.
  destruct (py_sorted x_ltb line) as [|w0 rest] eqn:Hs.
  - by apply py_sorted_nil_inv in Hs.
  - by rewrite run_loop_seeded.
Qed.

Lemma server_phrase_entries (groups : list (list WordBox)) :
  Forall (λ g, g ≠ []) groups →
  ∃ phrases, mapM OcrServer.phrase_entry groups = Some phrases
    ∧ Forall2 (λ g p, OcrServer.phrase_entry g = Some p) groups phrases.
Proof.
  induction 1 as [|g groups Hg _ (phrases & Hm & Hall)].
  - by exists [].
  - destruct g as [|g0 g]; [done|].
    eexists (_ :: phrases). simpl. rewrite Hm. simpl. split; [done|].
    by constructor.
Qed.

Lemma line_phrases_total (x_tolerance : Q) (line : list WordBox) :
  line ≠ [] → is_Some (OcrServer.line_phrases x_tolerance line).
Proof.
  intros Hne. unfold OcrServer.line_phrases.
  rewrite phrase_groups_split by done. simpl.
  destruct (server_phrase_entries
              (split_runs (same_phrase x_tolerance) (py_sorted x_ltb line)))
    as (phrases & -> & _); [|done].
  pose proof (split_runs_ok (same_phrase x_tolerance) (py_sorted x_ltb line))
    as (_ & Hall & _).
  eapply Forall_impl; [exact Hall|]. by intros g [? _].
Qed.

(** [group_texts_into_phrases] returns for every input: no line is empty. *)
Lemma group_texts_into_phrases_total (texts : list WordBox)
    (y_tolerance x_tolerance : Q) :
  is_Some (OcrServer.group_texts_into_phrases texts y_tolerance x_tolerance).
Proof.
  unfold OcrServer.group_texts_into_phrases. destruct texts as [|t texts]; [done|].
  set (lines := OcrServer.group_lines _ _).
  assert (is_Some (mapM (OcrServer.line_phrases x_tolerance) lines))
    as [phrases ->]; [|done].
  apply mapM_is_Some.
  pose proof (split_runs_ok (same_line y_tolerance)
                (py_sorted yx_ltb (t :: texts))) as (_ & Hall & _).
  eapply Forall_impl; [exact Hall|].
  intros line [Hne _]. by apply line_phrases_total.
Qed.

(** Example scenario 1: "BOILER" at x = 10 and "RM" at x = 60 on one line,
    horizontal tolerance 50. *)
Example scenario_1 :
  let w (t : string) (x : Q) :=
    {| w_text := t; w_confidence := 90; w_x := x; w_y := 100;
       w_width := Some 40%Q; w_height := Some 8%Q;
       w_display_x := None; w_display_y := None |} in
  (∃ p, OcrServer.group_texts_into_phrases [w "BOILER" 10%Q; w "RM" 60%Q] 15 50
        = Some [p]
        ∧ OcrServer.text p = "BOILER RM")
  ∧ (λ p : Multiline.Phrase, (Multiline.text p, Multiline.indices p))
      <$> Multiline.group_multiline_texts [w "BOILER" 10%Q; w "RM" 60%Q]
            (10, 1)%Z 50
    = [("BOILER RM"%string, [0; 1]%nat)].
Proof. split; [eexists; by vm_compute|by vm_compute]. Qed.

(** The gap is computed in floats, with one rounding for the right edge and
    one for the difference.  Words of the pixels 0 (72 wide) and 322 of an
    image rendered at scale 2.5 are at x = 0.0 (width 28.8) and x = 128.8:
    their gap is computed as a little more than 100, and with tolerance 100
    they are two phrases.  Words at 1e16 (width 1) and 1e16 + 2 have the
    computed gap 2, not 1. *)
Example gap_rounded :
  let w (x width : Q) :=
    {| w_text := "W"; w_confidence := 90; w_x := x; w_y := 100;
       w_width := Some width; w_height := Some 5%Q;
       w_display_x := None; w_display_y := None |} in
  let a := w (fdiv 0 (5 # 2)) (fdiv 72 (5 # 2)) in
  let b := w (fdiv 322 (5 # 2)) (fdiv 72 (5 # 2)) in
  let c := w 10000000000000000%Q 1%Q in
  let d := w 10000000000000002%Q 1%Q in
  (100 < x_gap a b)%Q
  ∧ OcrServer.phrase_groups 100 [a; b] = Some [[a]; [b]]
  ∧ x_gap c d = 2%Q
  ∧ OcrServer.phrase_groups 1 [c; d] = Some [[c]; [d]].
Proof. by vm_compute. Qed.

(** C6.  For a non-empty line the phrase builder returns (it does not raise).
    The line is first sorted by x; its groups cut the sorted line into
    consecutive pieces; two consecutive words of the sorted line are in the
    same group exactly when the gap from the right edge (x + width) of the
    first to the left edge of the second, as the code computes it, is at
    most the tolerance, so a gap equal to the tolerance merges and a larger
    one starts a new phrase; and
    the text of each phrase is the space-join of the texts of its group,
    whose words are in ascending x order whatever the order of the line.
    Any reordering of the line gives the same phrases, provided words with
    equal x are identical (the sort is stable, so words with equal x keep
    their input order). *)
Theorem C6_phrase_builder (x_tolerance : Q) (line : list WordBox) :
  line ≠ [] →
  let sorted_line := py_sorted x_ltb line in
  ∃ groups phrases,
    OcrServer.phrase_groups x_tolerance line = Some groups
    ∧ OcrServer.line_phrases x_tolerance line = Some phrases
    ∧ sorted_line ≡ₚ line
    ∧ adjacent (λ a b, (w_x a <= w_x b)%Q) sorted_line
    ∧ concat groups = sorted_line
    ∧ (∀ k a b, sorted_line !! k = Some a → sorted_line !! S k = Some b →
         (run_index groups k = run_index groups (S k)
          ↔ (fsub (w_x b) (fadd (w_x a) (get_width a)) <= x_tolerance)%Q))
    ∧ Forall2 (λ g p,
         g ≠ [] ∧ adjacent (λ a b, (w_x a <= w_x b)%Q) g
         ∧ OcrServer.text p = join_space (w_text <$> g)
         ∧ OcrServer.word_count p = length g) groups phrases
    ∧ (∀ line', line' ≡ₚ line → x_ties_identical line →
         OcrServer.line_phrases x_tolerance line' = Some phrases).
Proof.
  intros Hne sorted_line.
  pose proof (split_runs_ok (same_phrase x_tolerance) sorted_line)
    as (Hcat & Hall & Hb).
  pose proof (phrase_groups_split x_tolerance line Hne) as Hgroups.
  fold sorted_line in Hgroups.
  set (groups := split_runs (same_phrase x_tolerance) sorted_line) in *.
  destruct (server_phrase_entries groups) as (phrases & Hm & Hentries).
  { eapply Forall_impl; [exact Hall|]. by intros g [? _]. }
  assert (OcrServer.line_phrases x_tolerance line = Some phrases) as Hline.
  { unfold OcrServer.line_phrases. by rewrite Hgroups. }
  exists groups, phrases. split_and!.
  - exact Hgroups.
  - exact Hline.
  - apply py_sorted_perm.
  - apply x_sorted_ascending.
  - exact Hcat.
  - intros k a b Ha Hb'.
    change (fsub (w_x b) (fadd (w_x a) (get_width a))) with (x_gap a b).
    rewrite <- same_phrase_le.
    eapply same_run_iff; [|done|done]. by split_and!.
  - assert (Forall (adjacent (λ a b, (w_x a <= w_x b)%Q)) groups) as Hasc.
    { apply adjacent_concat. rewrite Hcat. apply x_sorted_ascending. }
    clear Hm Hcat Hb Hgroups Hline.
    induction Hentries as [|g p groups' phrases Hgp _ IH].
    + constructor.
    + apply Forall_cons in Hall as [[Hg _] Hall].
      apply Forall_cons in Hasc as [Hga Hasc].
      constructor; [|by apply IH].
      destruct g as [|g0 g]; [done|]. simpl in Hgp. by simplify_eq.
  - intros line' Hperm Hties. rewrite <- Hline.
    unfold OcrServer.line_phrases, OcrServer.phrase_groups.
    by rewrite (x_sorted_perm_eq line line').
Qed.

Lemma C6_phrase_builder_witness :
  let w (t : string) (x : Q) :=
    {| w_text := t; w_confidence := 90; w_x := x; w_y := 100;
       w_width := Some 30%Q; w_height := Some 5%Q;
       w_display_x := None; w_display_y := None |} in
  ∃ groups phrases,
    OcrServer.phrase_groups 20 [w "RM" 60%Q; w "BOILER" 10%Q] = Some groups
    ∧ OcrServer.line_phrases 20 [w "RM" 60%Q; w "BOILER" 10%Q] = Some phrases
    ∧ OcrServer.text <$> phrases = ["BOILER RM"].
Proof.
  intros w.
  destruct (C6_phrase_builder 20 [w "RM" 60%Q; w "BOILER" 10%Q])
    as (groups & phrases & Hg & Hp & _); [done|].
  exists groups, phrases. split_and!; [exact Hg|exact Hp|].
  vm_compute in Hp. injection Hp as <-. reflexivity.
Defined.

(** ** Consumption of words by the multi-pass runs *)

Lemma disjoint_cover_nil : disjoint_cover [] ∅.
Proof.
  split; [done|]. intros i. split; [set_solver|].
  intros (I & HI & _). by apply elem_of_nil in HI.
Qed.

Lemma disjoint_cover_add (idxs : list (list nat)) (used : gset nat)
    (I : list nat) :
  disjoint_cover idxs used → (∀ i, i ∈ I → i ∉ used) →
  disjoint_cover (idxs ++ [I]) (list_to_set I ∪ used).
Proof.
  intros [Hdisj Hcov] Hfresh. split.
  - intros k1 k2 I1 I2 i H1 H2 Hi1 Hi2.
    apply lookup_app_Some in H1 as [H1|[Hk1 H1]];
      apply lookup_app_Some in H2 as [H2|[Hk2 H2]].
    + by eapply Hdisj.
    + apply list_lookup_singleton_Some in H2 as [_ <-].
      exfalso. apply (Hfresh i Hi2). apply Hcov. exists I1. split; [|done].
      by eapply list_elem_of_lookup_2.
    + apply list_lookup_singleton_Some in H1 as [_ <-].
      exfalso. apply (Hfresh i Hi1). apply Hcov. exists I2. split; [|done].
      by eapply list_elem_of_lookup_2.
    + apply list_lookup_singleton_Some in H1 as [? _].
      apply list_lookup_singleton_Some in H2 as [? _]. lia.
  - intros i. rewrite elem_of_union, elem_of_list_to_set, Hcov. split.
    + intros [Hi|(J & HJ & Hi)].
      * exists I. split; [|done]. apply elem_of_app. right. by apply list_elem_of_singleton.
      * exists J. split; [|done]. apply elem_of_app. by left.
    + intros (J & HJ & Hi). apply elem_of_app in HJ as [HJ|HJ].
      * right. by exists J.
      * apply list_elem_of_singleton in HJ as ->. by left.
Qed.

Lemma disjoint_cover_partitioned (n : nat) (idxs : list (list nat))
    (used : gset nat) :
  disjoint_cover idxs used → partitioned n idxs (unmatched n used).
Proof.
  intros [Hdisj Hcov]. split.
  - intros k1 k2 I1 I2 i Hne H1 H2 Hi1 Hi2. apply Hne. by eapply Hdisj.
  - intros i Hi. unfold unmatched. destruct (decide (i ∈ used)) as [Hu|Hu].
    + left. split; [|set_solver].
      apply Hcov in Hu as (I & HI & HiI).
      apply list_elem_of_lookup in HI as [k Hk].
      exists k, I. split_and!; [done|done|].
      intros k' I' Hk' Hi'. by eapply Hdisj.
    + right. split.
      * intros I HI HiI. apply Hu, Hcov. by exists I.
      * apply elem_of_difference. split; [|done].
        apply elem_of_set_seq. lia.
Qed.

(** *** enumerate *)

Lemma enumerate_from_fst {A} (n : nat) (l : list A) :
  fst <$> enumerate_from n l = seq n (length l).
Proof.
  revert n. induction l as [|a l IH]; intros n; [done|].
  simpl. by rewrite IH.
Qed.

Lemma enumerate_from_lookup {A} (n : nat) (l : list A) (i : nat) (a : A) :
  (i, a) ∈ enumerate_from n l → (n ≤ i)%nat ∧ l !! (i - n)%nat = Some a.
Proof.
  revert n. induction l as [|b l IH]; intros n; simpl.
  - intros H. by apply elem_of_nil in H.
  - intros H. apply elem_of_cons in H as [H|H].
    + simplify_eq. split; [lia|]. by rewrite Nat.sub_diag.
    + apply IH in H as [Hle Hl]. split; [lia|].
      replace (i - n)%nat with (S (i - S n)) by lia. done.
Qed.

Lemma enumerate_lookup {A} (l : list A) (i : nat) (a : A) :
  (i, a) ∈ enumerate l → l !! i = Some a.
Proof.
  intros H. apply enumerate_from_lookup in H as [_ H].
  by rewrite Nat.sub_0_r in H.
Qed.

Lemma enumerate_from_elem {A} (l : list A) : ∀ (n j : nat) (a : A),
  l !! j = Some a → ((n + j)%nat, a) ∈ enumerate_from n l.
Proof.
  induction l as [|b l IH]; intros n j a Hj; [done|].
  destruct j as [|j]; simpl in *.
  - simplify_eq. rewrite Nat.add_0_r. by left.
  - right. replace (n + S j)%nat with (S n + j)%nat by lia. by apply IH.
Qed.

Lemma enumerate_elem {A} (l : list A) (j : nat) (a : A) :
  l !! j = Some a → (j, a) ∈ enumerate l.
Proof. intros H. by apply (enumerate_from_elem l 0). Qed.

Lemma enumerate_NoDup {A} (l : list A) : NoDup (fst <$> enumerate l).
Proof. unfold enumerate. rewrite enumerate_from_fst. apply NoDup_seq. Qed.

Lemma sublist_of_concat {A} (l : list A) (ls : list (list A)) :
  l ∈ ls → l `sublist_of` concat ls.
Proof.
  induction ls as [|l' ls IH]; intros H; [by apply elem_of_nil in H|].
  apply elem_of_cons in H as [->|H]; simpl.
  - by apply sublist_inserts_r.
  - apply sublist_inserts_l. by apply IH.
Qed.

(** *** enhanced_multiline_ocr.py *)

Lemma mark_used_eq (used : gset nat) (group : list Multiline.Item) :
  Multiline.mark_used used group = list_to_set (fst <$> group) ∪ used.
Proof.
  unfold Multiline.mark_used. revert used.
  induction group as [|it group IH]; intros used; simpl.
  - set_solver.
  - rewrite IH. set_solver.
Qed.

Lemma items_ok_sublist texts (l1 l2 : list Multiline.Item) :
  l1 `sublist_of` l2 → Multiline.items_ok texts l2 → Multiline.items_ok texts l1.
Proof.
  intros Hsub [Hnd Hall]. split.
  - eapply sublist_NoDup; [exact Hnd|]. by apply fmap_sublist.
  - rewrite Forall_forall in *. intros it Hit. apply Hall.
    eapply sublist_subseteq; eauto.
Qed.

Lemma items_ok_perm texts (l1 l2 : list Multiline.Item) :
  l1 ≡ₚ l2 → Multiline.items_ok texts l2 → Multiline.items_ok texts l1.
Proof.
  intros Hp [Hnd Hall]. split.
  - by rewrite Hp.
  - by rewrite Hp.
Qed.

Lemma add_group_inv texts all y_tol st (group : list Multiline.Item) :
  Multiline.multiline_inv texts all st →
  Forall (λ item : Multiline.Item, texts !! item.1 = Some item.2) group →
  (∀ i, i ∈ fst <$> group → i ∉ st.2) →
  Multiline.multiline_inv texts all (Multiline.add_group y_tol st group)
  ∧ (Multiline.add_group y_tol st group).2 = list_to_set (fst <$> group) ∪ st.2.
Proof.
  intros [Hdc Hfg] Hok Hfresh. destruct group as [|g0 gs].
  - simpl. split; [by split|]. set_solver.
  - unfold Multiline.add_group. rewrite mark_used_eq.
    split; [|done]. split; cbn [fst snd].
    + rewrite app_assoc, fmap_app. simpl.
      by apply disjoint_cover_add.
    + rewrite app_assoc. apply Forall_app. split; [done|].
      apply Forall_singleton. by exists y_tol, g0, gs.
Qed.

Lemma add_groups_inv texts all y_tol (groups : list (list Multiline.Item)) :
  ∀ st,
  Multiline.multiline_inv texts all st →
  Multiline.items_ok texts (concat groups) →
  (∀ i, i ∈ fst <$> concat groups → i ∉ st.2) →
  Multiline.multiline_inv texts all (foldl (Multiline.add_group y_tol) st groups).
Proof.
  induction groups as [|g groups IH]; intros st Hinv [Hnd Hall] Hfresh; [done|].
  simpl in *. rewrite fmap_app in Hnd, Hfresh.
  apply NoDup_app in Hnd as (Hg & Hgr & Hr).
  apply Forall_app in Hall as [Hallg Hallr].
  destruct (add_group_inv texts all y_tol st g) as [Hinv' Hused]; [done|done| |].
  { intros i Hi. apply Hfresh. apply elem_of_app. by left. }
  apply IH; [done|by split|].
  intros i Hi. rewrite Hused. rewrite not_elem_of_union, elem_of_list_to_set.
  split.
  - intros Hig. by apply (Hgr i).
  - apply Hfresh. apply elem_of_app. by right.
Qed.

Lemma process_line_inv texts all x_tolerance y_tol st
    (line : list Multiline.Item) :
  Multiline.multiline_inv texts all st → Multiline.items_ok texts line →
  Multiline.multiline_inv texts all (Multiline.process_line x_tolerance y_tol st line).
Proof.
  intros Hinv Hline. unfold Multiline.process_line.
  set (sorted := py_sorted _ line).
  destruct (forallb _ sorted); [done|].
  destruct (filter _ sorted) as [|u0 rest] eqn:Hf; [done|].
  rewrite run_loop_seeded.
  pose proof (split_runs_ok
    (λ p c : Multiline.Item, same_phrase x_tolerance p.2 c.2) (u0 :: rest))
    as (Hcat & _ & _).
  assert (Multiline.items_ok texts (u0 :: rest)) as Hok.
  { rewrite <- Hf. eapply items_ok_sublist; [apply sublist_filter|].
    eapply items_ok_perm; [apply py_sorted_perm|done]. }
  apply add_groups_inv; [done|by rewrite Hcat|].
  rewrite Hcat, <- Hf. intros i Hi.
  apply list_elem_of_fmap in Hi as (it & -> & Hit).
  by apply list_elem_of_filter in Hit as [? _].
Qed.

Lemma process_lines_inv texts all x_tolerance y_tol
    (lines : list (list Multiline.Item)) : ∀ st,
  Multiline.multiline_inv texts all st → Forall (Multiline.items_ok texts) lines →
  Multiline.multiline_inv texts all
    (foldl (Multiline.process_line x_tolerance y_tol) st lines).
Proof.
  induction lines as [|line lines IH]; intros st Hinv Hlines; [done|].
  apply Forall_cons in Hlines as [Hline Hlines]. simpl.
  apply IH; [|done]. by apply process_line_inv.
Qed.

Lemma group_lines_items_ok y_tolerance used texts :
  Forall (Multiline.items_ok texts) (Multiline.group_lines y_tolerance used texts).
Proof.
  destruct (multiline_group_lines_ok y_tolerance used texts) as (Hcat & _ & _).
  apply Forall_forall. intros line Hline.
  eapply items_ok_sublist.
  { etrans; [by apply sublist_of_concat|]. rewrite Hcat. apply sublist_filter. }
  split; [apply enumerate_NoDup|].
  apply Forall_forall. intros [i t] Hit. by apply enumerate_lookup.
Qed.

Lemma pass_inv texts x_tolerance st y_tol :
  Multiline.multiline_inv texts [] st →
  Multiline.multiline_inv texts [] (Multiline.pass x_tolerance texts st y_tol).
Proof.
  intros Hinv. unfold Multiline.pass.
  pose proof (process_lines_inv texts st.1 x_tolerance y_tol
    (Multiline.group_lines (inject_Z y_tol) st.2 texts) ([], st.2)) as H.
  unfold Multiline.multiline_inv in *. simpl in *. rewrite app_nil_r in H.
  apply H; [done|]. apply group_lines_items_ok.
Qed.

Lemma multiline_run_inv texts y_tolerance_range x_tolerance :
  Multiline.multiline_inv (py_sorted yx_ltb texts) []
    (Multiline.run texts y_tolerance_range x_tolerance).
Proof.
  unfold Multiline.run.
  generalize (range_down y_tolerance_range.1 (y_tolerance_range.2 - 1)).
  intros passes.
  assert (Multiline.multiline_inv (py_sorted yx_ltb texts) [] ([], ∅)) as Hinit.
  { split; [apply disjoint_cover_nil|done]. }
  revert Hinit. generalize (([], ∅) : list Multiline.Phrase * gset nat).
  induction passes as [|y_tol passes IH]; intros st Hinv; [done|].
  simpl. apply IH. by apply pass_inv.
Qed.

(** *** Every word is consumed by the first pass *)

Lemma add_groups_used (y_tol : Z) (groups : list (list Multiline.Item)) :
  ∀ st, (foldl (Multiline.add_group y_tol) st groups).2
        = list_to_set (fst <$> concat groups) ∪ st.2.
Proof.
  induction groups as [|g groups IH]; intros st; simpl.
  - set_solver.
  - rewrite IH. destruct g as [|g0 gs]; simpl.
    + done.
    + rewrite mark_used_eq, fmap_app. simpl. set_solver.
Qed.

Lemma process_line_used (x_tolerance : Q) (y_tol : Z)
    (st : list Multiline.Phrase * gset nat) (line : list Multiline.Item) :
  ∀ i, i ∈ (Multiline.process_line x_tolerance y_tol st line).2
       ↔ i ∈ st.2 ∨ i ∈ fst <$> line.
Proof.
  intros i. unfold Multiline.process_line.
  set (sorted := py_sorted _ line).
  assert (i ∈ fst <$> line ↔ i ∈ fst <$> sorted) as ->.
  { subst sorted. by rewrite py_sorted_perm. }
  destruct (forallb _ sorted) eqn:Hall.
  { split; [by left|]. intros [?|Hi]; [done|].
    apply list_elem_of_fmap_1 in Hi as (it & -> & Hit).
    rewrite forallb_forall in Hall.
    apply list_elem_of_In, Hall in Hit. by apply bool_decide_eq_true in Hit. }
  assert (∀ it, it ∈ sorted →
            it.1 ∈ st.2
            ∨ it ∈ filter (λ item : Multiline.Item, item.1 ∉ st.2) sorted)
    as Hsplit.
  { intros it Hit. destruct (decide (it.1 ∈ st.2)); [by left|right].
    by apply list_elem_of_filter. }
  destruct (filter _ sorted) as [|u0 rest] eqn:Hf.
  { split; [by left|]. intros [?|Hi]; [done|].
    apply list_elem_of_fmap_1 in Hi as (it & -> & Hit).
    destruct (Hsplit it Hit) as [?|Hno]; [done|]. by apply elem_of_nil in Hno. }
  rewrite run_loop_seeded, add_groups_used.
  pose proof (split_runs_ok
    (λ p c : Multiline.Item, same_phrase x_tolerance p.2 c.2) (u0 :: rest))
    as (-> & _ & _).
  rewrite elem_of_union, elem_of_list_to_set. split.
  - intros [Hi|?]; [|by left]. right.
    apply list_elem_of_fmap_1 in Hi as (it & -> & Hit).
    apply list_elem_of_fmap_2. rewrite <- Hf in Hit.
    by apply list_elem_of_filter in Hit as [_ ?].
  - intros [?|Hi]; [by right|].
    apply list_elem_of_fmap_1 in Hi as (it & -> & Hit).
    destruct (Hsplit it Hit) as [?|Hin]; [by right|]. left.
    by apply list_elem_of_fmap_2.
Qed.

Lemma process_lines_used (x_tolerance : Q) (y_tol : Z)
    (lines : list (list Multiline.Item)) : ∀ st i,
  i ∈ (foldl (Multiline.process_line x_tolerance y_tol) st lines).2
  ↔ i ∈ st.2 ∨ i ∈ fst <$> concat lines.
Proof.
  induction lines as [|line lines IH]; intros st i; simpl.
  - split; [by left|]. intros [?|H]; [done|]. by apply elem_of_nil in H.
  - rewrite IH, process_line_used, fmap_app, elem_of_app. tauto.
Qed.

(** After a pass the consumed words are all the words of the input. *)
Lemma pass_used (x_tolerance : Q) (texts : list WordBox)
    (st : list Multiline.Phrase * gset nat) (y_tol : Z) :
  st.2 ⊆ set_seq 0 (length texts) →
  (Multiline.pass x_tolerance texts st y_tol).2 = set_seq 0 (length texts).
Proof.
  intros Hsub. apply set_eq. intros i. unfold Multiline.pass. simpl.
  rewrite process_lines_used. simpl.
  destruct (multiline_group_lines_ok (inject_Z y_tol) st.2 texts) as (-> & _).
  rewrite elem_of_set_seq. split.
  - intros [Hi|Hi].
    + apply Hsub, elem_of_set_seq in Hi. lia.
    + apply list_elem_of_fmap_1 in Hi as ([j t] & -> & Hit).
      apply list_elem_of_filter in Hit as [_ Hit].
      apply enumerate_lookup, lookup_lt_Some in Hit. simpl. lia.
  - intros Hi. destruct (decide (i ∈ st.2)) as [?|Hno]; [by left|right].
    destruct (lookup_lt_is_Some_2 texts i) as [t Ht]; [lia|].
    apply (list_elem_of_fmap_2' fst _ (i, t)); [|done].
    apply list_elem_of_filter. split; [done|]. by apply enumerate_elem.
Qed.

Lemma passes_used (x_tolerance : Q) (texts : list WordBox)
    (passes : list Z) : ∀ st,
  passes ≠ [] → st.2 ⊆ set_seq 0 (length texts) →
  (foldl (Multiline.pass x_tolerance texts) st passes).2
  = set_seq 0 (length texts).
Proof.
  induction passes as [|y_tol passes IH]; intros st Hne Hsub; [done|].
  simpl. destruct passes as [|y_tol' passes].
  - simpl. by apply pass_used.
  - apply IH; [done|]. by rewrite pass_used.
Qed.

(** With a non-empty range of tolerances, [group_multiline_texts] leaves no
    word over: every word of the input is consumed, and is a member of a
    phrase. *)
Theorem multiline_consumes_all (texts : list WordBox)
    (y_tolerance_range : Z * Z) (x_tolerance : Q) :
  (y_tolerance_range.2 ≤ y_tolerance_range.1)%Z →
  let st := Multiline.run texts y_tolerance_range x_tolerance in
  unmatched (length texts) st.2 = ∅
  ∧ ∀ i, (i < length texts)%nat →
         ∃ p, p ∈ Multiline.group_multiline_texts texts y_tolerance_range
                    x_tolerance
              ∧ i ∈ Multiline.indices p.
Proof.
  intros Hrange st.
  assert (st.2 = set_seq 0 (length texts)) as Hused.
  { subst st. unfold Multiline.run.
    rewrite <- (py_sorted_length yx_ltb texts). apply passes_used; [|done].
    unfold range_down.
    replace (Z.to_nat (y_tolerance_range.1 - (y_tolerance_range.2 - 1)))
      with (S (Z.to_nat (y_tolerance_range.1 - y_tolerance_range.2))) by lia.
    done. }
  split.
  - unfold unmatched. rewrite Hused. set_solver.
  - intros i Hi.
    destruct (multiline_run_inv texts y_tolerance_range x_tolerance)
      as [[_ Hcov] _].
    fold st in Hcov. simpl in Hcov.
    destruct (Hcov i) as [(I & HI & HiI) _].
    { rewrite Hused. apply elem_of_set_seq. lia. }
    apply list_elem_of_fmap_1 in HI as (p & -> & Hp). by exists p.
Qed.

Lemma multiline_consumes_all_witness :
  let w (t : string) (x y : Q) :=
    {| w_text := t; w_confidence := 90; w_x := x; w_y := y;
       w_width := Some 5%Q; w_height := Some 5%Q;
       w_display_x := None; w_display_y := None |} in
  let texts := [w "A" 0%Q 0%Q; w "B" 500%Q 300%Q] in
  unmatched (length texts) (Multiline.run texts (10, 1)%Z 50).2 = ∅.
Proof.
  intros w texts.
  destruct (multiline_consumes_all texts (10, 1)%Z 50) as [H _]; [simpl; lia|].
  exact H.
Defined.

(** *** Automapper.py *)

Lemma any_in_false (s : gset nat) (idxs : list nat) :
  Automapper.any_in s idxs = false → ∀ i, i ∈ idxs → i ∉ s.
Proof.
  unfold Automapper.any_in. intros H i Hi Hs.
  assert (existsb (λ idx, bool_decide (idx ∈ s)) idxs = true) as Ht; [|congruence].
  apply existsb_exists. exists i. split; [by apply list_elem_of_In|].
  by apply bool_decide_eq_true.
Qed.

Section automapper_facts.
Context (rect_union : Automapper.Rect → Automapper.Rect → Automapper.Rect).
Context (location_key : Q → Q → string).
Context (fault_at : nat → Automapper.Candidate → Automapper.fault).

Local Abbreviation page_inv st :=
  (disjoint_cover (Automapper.word_indices <$> Automapper.annotated st)
     (Automapper.page_used_word_indices st)).

Lemma annotate_inv st c :
  page_inv st → page_inv (Automapper.annotate location_key fault_at st c).
Proof.
  intros Hinv. unfold Automapper.annotate.
  destruct (Automapper.raised st); [done|].
  destruct (Automapper.any_in _ _) eqn:Hpage; [done|].
  destruct (Automapper.any_in (Automapper.pass_used_word_indices st) _); [done|].
  destruct (fault_at _ c); [|done|]; case_bool_decide; try done.
  cbn [Automapper.annotated Automapper.page_used_word_indices].
  rewrite fmap_app. cbn [fmap list_fmap]. apply disjoint_cover_add; [done|].
  by apply any_in_false.
Qed.

Lemma annotate_all_inv (cs : list Automapper.Candidate) : ∀ st,
  page_inv st →
  page_inv (foldl (Automapper.annotate location_key fault_at) st cs).
Proof.
  induction cs as [|c cs IH]; intros st Hinv; [done|].
  simpl. apply IH. by apply annotate_inv.
Qed.

Lemma page_pass_inv words st y_tolerance :
  page_inv st →
  page_inv (Automapper.pass rect_union location_key fault_at words st
              y_tolerance).
Proof.
  intros Hinv. unfold Automapper.pass.
  destruct (Automapper.raised st); [done|]. by apply annotate_all_inv.
Qed.

Lemma process_page_inv words locations radius :
  page_inv (Automapper.process_page rect_union location_key fault_at words
              locations radius).
Proof.
  unfold Automapper.process_page. generalize (range_down 10 0). intros passes.
  set (st0 := Automapper.Build_State _ _ _ _ _ _ _).
  assert (page_inv st0) as Hinit by apply disjoint_cover_nil.
  revert Hinit. generalize st0.
  induction passes as [|y_tol passes IH]; intros st Hinv; [done|].
  simpl. apply IH. by apply page_pass_inv.
Qed.

(** Without an exception the page is processed to the end. *)
Lemma annotate_completes st c :
  (∀ k c, fault_at k c = Automapper.NoFault) →
  Automapper.raised st = false →
  Automapper.raised (Automapper.annotate location_key fault_at st c) = false.
Proof.
  intros Hno Hst. unfold Automapper.annotate. rewrite Hst.
  destruct (Automapper.any_in _ _); [done|].
  destruct (Automapper.any_in _ _); [done|].
  rewrite Hno. by case_bool_decide.
Qed.

Lemma annotate_all_completes (cs : list Automapper.Candidate) : ∀ st,
  (∀ k c, fault_at k c = Automapper.NoFault) →
  Automapper.raised st = false →
  Automapper.raised (foldl (Automapper.annotate location_key fault_at) st cs)
  = false.
Proof.
  induction cs as [|c cs IH]; intros st Hno Hst; [done|].
  simpl. apply IH; [done|]. by apply annotate_completes.
Qed.

Lemma process_page_completes words locations radius :
  (∀ k c, fault_at k c = Automapper.NoFault) →
  Automapper.raised
    (Automapper.process_page rect_union location_key fault_at words locations
       radius) = false.
Proof.
  intros Hno. unfold Automapper.process_page.
  generalize (range_down 10 0). intros passes.
  set (st0 := Automapper.Build_State _ _ _ _ _ _ _).
  assert (Automapper.raised st0 = false) as Hinit by done.
  revert Hinit. generalize st0.
  induction passes as [|y_tol passes IH]; intros st Hst; [done|].
  simpl. apply IH. unfold Automapper.pass. rewrite Hst.
  by apply annotate_all_completes.
Qed.

End automapper_facts.

(** The claim fails for a page on which a call raises.  Two words on two
    lines; the first is annotated, and for the second [query_llm] raises:
    the page is left with the phrase of word 0 recorded, no set of unmatched
    words is computed, and word 1 is in no phrase. *)
Lemma C1_counterexample :
  let w (t : string) (y : Q) :=
    {| Automapper.x0 := 0; Automapper.y0 := y; Automapper.x1 := 8;
       Automapper.y1 := y + 10; Automapper.text := t;
       Automapper.block_no := 0; Automapper.line_no := 0;
       Automapper.word_no := 0 |} in
  let words := [w "EXIT" 0%Q; w "STAIR" 100%Q] in
  let fault_at (k : nat) (c : Automapper.Candidate) :=
    if (k =? 1)%nat then Automapper.ClassifyRaises else Automapper.NoFault in
  let st := Automapper.process_page (λ r _, r) (λ _ _, EmptyString) fault_at
              words ∅ None in
  Automapper.word_indices <$> Automapper.annotated st = [[0%nat]]
  ∧ Automapper.raised st = true
  ∧ Automapper.unmatched_indices words st = None.
Proof. by vm_compute. Qed.

(** C1 (as amended).  In a run of [group_multiline_texts] the member index
    lists of two different phrases share no index, and every index of the
    (sorted) input is either in exactly one phrase and not among the words
    left over after the last pass, or left over and in no phrase.  On a page
    of [process_all_pdfs] the word indices of two different annotated phrases
    share no index.  When no exception leaves the page, which is so when no
    call raises, [unmatched_indices] is computed and the same partition
    holds with it; when an exception leaves the page, no set of unmatched
    words is computed. *)
Theorem C1_multipass_partition :
  (∀ (texts : list WordBox) (y_tolerance_range : Z * Z) (x_tolerance : Q),
     let st := Multiline.run texts y_tolerance_range x_tolerance in
     Multiline.group_multiline_texts texts y_tolerance_range x_tolerance = st.1
     ∧ partitioned (length texts) (Multiline.indices <$> st.1)
         (unmatched (length texts) st.2))
  ∧ (∀ (rect_union : Automapper.Rect → Automapper.Rect → Automapper.Rect)
       (location_key : Q → Q → string)
       (fault_at : nat → Automapper.Candidate → Automapper.fault)
       (words : list Automapper.Word) (locations : gset string)
       (radius : option Q),
       let st := Automapper.process_page rect_union location_key fault_at
                   words locations radius in
       let idxs := Automapper.word_indices <$> Automapper.annotated st in
       (∀ k1 k2 I1 I2 i, k1 ≠ k2 → idxs !! k1 = Some I1 →
          idxs !! k2 = Some I2 → i ∈ I1 → i ∉ I2)
       ∧ (Automapper.raised st = false →
          ∃ rest, Automapper.unmatched_indices words st = Some rest
            ∧ partitioned (length words) idxs rest)
       ∧ (Automapper.raised st = true →
          Automapper.unmatched_indices words st = None)
       ∧ ((∀ k c, fault_at k c = Automapper.NoFault) →
          Automapper.raised st = false)).
Proof.
  split.
  - intros texts y_tolerance_range x_tolerance st. split; [done|].
    apply disjoint_cover_partitioned.
    by destruct (multiline_run_inv texts y_tolerance_range x_tolerance) as [H _].
  - intros rect_union location_key fault_at words locations radius st idxs.
    pose proof (process_page_inv rect_union location_key fault_at words
                  locations radius) as Hinv.
    fold st in Hinv.
    pose proof (disjoint_cover_partitioned (length words) _ _ Hinv) as Hpart.
    fold idxs in Hpart. split_and!.
    + apply Hpart.
    + intros Hst. unfold Automapper.unmatched_indices. rewrite Hst.
      by eexists.
    + intros Hst. unfold Automapper.unmatched_indices. by rewrite Hst.
    + apply process_page_completes.
Qed.

(** ** Bounding boxes *)

Lemma Qmin_cases (a b : Q) : Qmin a b = a ∨ Qmin a b = b.
Proof.
  unfold Qmin, GenericMinMax.gmin. destruct (a ?= b)%Q; auto.
Qed.

Lemma Qmax_cases (a b : Q) : Qmax a b = a ∨ Qmax a b = b.
Proof.
  unfold Qmax, GenericMinMax.gmax. destruct (a ?= b)%Q; auto.
Qed.

Lemma py_min_spec (l : list Q) : ∀ a,
  (∀ v, v ∈ a :: l → (py_min a l <= v)%Q) ∧ py_min a l ∈ a :: l.
Proof.
  induction l as [|b l IH]; intros a.
  - split; [|by left]. intros v Hv. apply list_elem_of_singleton in Hv as ->.
    apply Qle_refl.
  - destruct (IH (Qmin a b)) as [Hle Hin].
    change (py_min a (b :: l)) with (py_min (Qmin a b) l). split.
    + intros v Hv.
      assert (py_min (Qmin a b) l <= Qmin a b)%Q as Hm by (apply Hle; left).
      apply elem_of_cons in Hv as [->|Hv].
      { eapply Qle_trans; [exact Hm|apply Q.le_min_l]. }
      apply elem_of_cons in Hv as [->|Hv].
      { eapply Qle_trans; [exact Hm|apply Q.le_min_r]. }
      apply Hle. by right.
    + apply elem_of_cons in Hin as [Hin|Hin].
      * rewrite Hin. destruct (Qmin_cases a b) as [->| ->]; [by left|].
        right. by left.
      * right. by right.
Qed.

Lemma py_max_spec (l : list Q) : ∀ a,
  (∀ v, v ∈ a :: l → (v <= py_max a l)%Q) ∧ py_max a l ∈ a :: l.
Proof.
  induction l as [|b l IH]; intros a.
  - split; [|by left]. intros v Hv. apply list_elem_of_singleton in Hv as ->.
    apply Qle_refl.
  - destruct (IH (Qmax a b)) as [Hle Hin].
    change (py_max a (b :: l)) with (py_max (Qmax a b) l). split.
    + intros v Hv.
      assert (Qmax a b <= py_max (Qmax a b) l)%Q as Hm by (apply Hle; left).
      apply elem_of_cons in Hv as [->|Hv].
      { eapply Qle_trans; [apply Q.le_max_l|exact Hm]. }
      apply elem_of_cons in Hv as [->|Hv].
      { eapply Qle_trans; [apply Q.le_max_r|exact Hm]. }
      apply Hle. by right.
    + apply elem_of_cons in Hin as [Hin|Hin].
      * rewrite Hin. destruct (Qmax_cases a b) as [->| ->]; [by left|].
        right. by left.
      * right. by right.
Qed.

(** The extremum of a field over a group is the extremum over its words. *)
Lemma group_min (f : WordBox → Q) (g0 : Multiline.Item)
    (gs : list Multiline.Item) :
  let m := py_min (f g0.2) ((λ item : Multiline.Item, f item.2) <$> gs) in
  (∀ w, w ∈ snd <$> (g0 :: gs) → (m <= f w)%Q)
  ∧ ∃ w, w ∈ snd <$> (g0 :: gs) ∧ m = f w.
Proof.
  intros m.
  destruct (py_min_spec ((λ item : Multiline.Item, f item.2) <$> gs) (f g0.2))
    as [Hle Hin].
  assert (∀ v, v ∈ f g0.2 :: ((λ item : Multiline.Item, f item.2) <$> gs)
               ↔ ∃ w, w ∈ snd <$> (g0 :: gs) ∧ v = f w) as Hiff.
  { intros v. rewrite fmap_cons, elem_of_cons. split.
    - intros [->|Hv].
      + exists g0.2. split; [by left|done].
      + apply list_elem_of_fmap_1 in Hv as (it & -> & Hit).
        exists it.2. split; [|done]. right. by apply list_elem_of_fmap_2.
    - intros (w & Hw & ->). apply elem_of_cons in Hw as [->|Hw]; [by left|].
      apply list_elem_of_fmap_1 in Hw as (it & -> & Hit).
      right. by apply (list_elem_of_fmap_2 (λ item : Multiline.Item, f item.2)). }
  split.
  - intros w Hw. apply Hle. apply Hiff. by exists w.
  - by apply Hiff.
Qed.

Lemma group_max (f : WordBox → Q) (g0 : Multiline.Item)
    (gs : list Multiline.Item) :
  let m := py_max (f g0.2) ((λ item : Multiline.Item, f item.2) <$> gs) in
  (∀ w, w ∈ snd <$> (g0 :: gs) → (f w <= m)%Q)
  ∧ ∃ w, w ∈ snd <$> (g0 :: gs) ∧ m = f w.
Proof.
  intros m.
  destruct (py_max_spec ((λ item : Multiline.Item, f item.2) <$> gs) (f g0.2))
    as [Hle Hin].
  assert (∀ v, v ∈ f g0.2 :: ((λ item : Multiline.Item, f item.2) <$> gs)
               ↔ ∃ w, w ∈ snd <$> (g0 :: gs) ∧ v = f w) as Hiff.
  { intros v. rewrite fmap_cons, elem_of_cons. split.
    - intros [->|Hv].
      + exists g0.2. split; [by left|done].
      + apply list_elem_of_fmap_1 in Hv as (it & -> & Hit).
        exists it.2. split; [|done]. right. by apply list_elem_of_fmap_2.
    - intros (w & Hw & ->). apply elem_of_cons in Hw as [->|Hw]; [by left|].
      apply list_elem_of_fmap_1 in Hw as (it & -> & Hit).
      right. by apply (list_elem_of_fmap_2 (λ item : Multiline.Item, f item.2)). }
  split.
  - intros w Hw. apply Hle. apply Hiff. by exists w.
  - by apply Hiff.
Qed.

Lemma phrase_entry_bbox (y_tol : Z) (g0 : Multiline.Item)
    (gs : list Multiline.Item) :
  let p := Multiline.phrase_entry y_tol g0 gs in
  bounding_box (snd <$> (g0 :: gs)) (Multiline.x p) (Multiline.y p)
    (Multiline.width p) (Multiline.height p).
Proof.
  intros p.
  destruct (group_min w_x g0 gs) as [Hx1 Hx2].
  destruct (group_min w_y g0 gs) as [Hy1 Hy2].
  destruct (group_max right_edge g0 gs) as [HX1 HX2].
  destruct (group_max bottom_edge g0 gs) as [HY1 HY2].
  unfold bounding_box. subst p. unfold Multiline.phrase_entry.
  cbn [Multiline.x Multiline.y Multiline.width Multiline.height].
  split_and!.
  - done.
  - intros m Hm. split; [by apply Hx1|by apply Hy1].
  - done.
  - done.
  - destruct HX2 as (w & Hw & E). exists w. split_and!; [done| |].
    + intros m Hm. rewrite <- E. by apply HX1.
    + by rewrite <- E.
  - destruct HY2 as (w & Hw & E). exists w. split_and!; [done| |].
    + intros m Hm. rewrite <- E. by apply HY1.
    + by rewrite <- E.
Qed.

Lemma members_of_group (texts : list WordBox) (group : list Multiline.Item) :
  Forall (λ item : Multiline.Item, texts !! item.1 = Some item.2) group →
  omap (λ i, texts !! i) (fst <$> group) = snd <$> group.
Proof.
  induction 1 as [|it group Hit _ IH]; [done|].
  csimpl. rewrite Hit. csimpl. by rewrite IH.
Qed.

Lemma x_ascending_head (g0 : WordBox) (g : list WordBox) :
  adjacent (λ a b, (w_x a <= w_x b)%Q) (g0 :: g) →
  ∀ m, m ∈ g0 :: g → (w_x g0 <= w_x m)%Q.
Proof.
  revert g0. induction g as [|g1 g IH]; intros g0 Hadj m Hm.
  - apply list_elem_of_singleton in Hm as ->. apply Qle_refl.
  - destruct Hadj as [H01 Hadj].
    apply elem_of_cons in Hm as [->|Hm]; [apply Qle_refl|].
    eapply Qle_trans; [exact H01|]. by apply IH.
Qed.

(** The extent is stored as a rounded difference: one word at x = 0.1 of
    width 0.2 makes a phrase whose width is 0.20000000000000004, the float
    difference between the right edge 0.1 + 0.2 and 0.1. *)
Example width_rounded :
  let x := round64 (1 # 10) in
  let width := round64 (2 # 10) in
  let w := {| w_text := "W"; w_confidence := 90; w_x := x; w_y := 100;
              w_width := Some width; w_height := Some 5%Q;
              w_display_x := None; w_display_y := None |} in
  ∃ p, Multiline.group_multiline_texts [w] (10, 1)%Z 50 = [p]
    ∧ Multiline.x p = x
    ∧ Multiline.width p = fsub (fadd x width) x
    ∧ (width < Multiline.width p)%Q
    ∧ (Multiline.width p == width + (1 # 36028797018963968))%Q.
Proof. eexists. by vm_compute. Qed.

(** C8 (as amended).  Every phrase of [group_multiline_texts] has all its
    indices in range, and its box (x, y, width, height) is computed from
    its member words: x and y are the smallest x and y of the members, and
    width and height are the float differences between the largest right
    edge x + width, respectively bottom edge y + height, of the members and
    x, respectively y.  A phrase of ocr_server.py records no extent: its x
    and y are those of the leftmost word of its group, so its x is the
    smallest x of the members. *)
Theorem C8_bounding_box :
  (∀ (texts : list WordBox) (y_tolerance_range : Z * Z) (x_tolerance : Q)
     (k : nat) (p : Multiline.Phrase),
     Multiline.group_multiline_texts texts y_tolerance_range x_tolerance !! k
       = Some p →
     let members := Multiline.members (py_sorted yx_ltb texts) p in
     length members = length (Multiline.indices p)
     ∧ bounding_box members (Multiline.x p) (Multiline.y p)
         (Multiline.width p) (Multiline.height p))
  ∧ (∀ (x_tolerance : Q) (line : list WordBox) (groups : list (list WordBox))
       (k : nat) (g : list WordBox),
       OcrServer.phrase_groups x_tolerance line = Some groups →
       groups !! k = Some g →
       ∃ p g0, OcrServer.phrase_entry g = Some p ∧ head g = Some g0
         ∧ OcrServer.x p = w_x g0 ∧ OcrServer.y p = w_y g0
         ∧ ∀ m, m ∈ g → (OcrServer.x p <= w_x m)%Q).
Proof.
  split.
  - intros texts y_tolerance_range x_tolerance k p Hk members.
    destruct (multiline_run_inv texts y_tolerance_range x_tolerance)
      as [_ Hall].
    simpl in Hall. rewrite Forall_forall in Hall.
    destruct (Hall p) as (y_tol & g0 & gs & -> & Hitems).
    { by eapply list_elem_of_lookup_2. }
    subst members. unfold Multiline.members.
    change (Multiline.indices (Multiline.phrase_entry y_tol g0 gs))
      with (fst <$> (g0 :: gs)).
    rewrite members_of_group by done. split.
    + by rewrite !length_fmap.
    + apply phrase_entry_bbox.
  - intros x_tolerance line groups k g Hgroups Hk.
    unfold OcrServer.phrase_groups in Hgroups.
    destruct (py_sorted x_ltb line) as [|w0 rest] eqn:Hs; [done|].
    rewrite run_loop_seeded in Hgroups. simplify_eq.
    pose proof (split_runs_ok (same_phrase x_tolerance) (w0 :: rest))
      as (Hcat & Hall & _).
    assert (Forall (adjacent (λ a b, (w_x a <= w_x b)%Q))
              (split_runs (same_phrase x_tolerance) (w0 :: rest))) as Hasc.
    { apply adjacent_concat. rewrite Hcat, <- Hs. apply x_sorted_ascending. }
    rewrite Forall_forall in Hall, Hasc.
    apply list_elem_of_lookup_2 in Hk.
    destruct (Hall g Hk) as [Hne _]. specialize (Hasc g Hk).
    destruct g as [|g0 g]; [done|].
    eexists _, g0. split_and!; [done|done|done|done|].
    simpl. by apply x_ascending_head.
Qed.

Lemma C8_bounding_box_witness :
  let w (t : string) (x y : Q) :=
    {| w_text := t; w_confidence := 90; w_x := x; w_y := y;
       w_width := Some 5%Q; w_height := Some 5%Q;
       w_display_x := None; w_display_y := None |} in
  let texts := [w "A" 0%Q 5%Q; w "B" 10%Q 3%Q] in
  ∃ p, Multiline.group_multiline_texts texts (10, 1)%Z 50 !! 0%nat = Some p
    ∧ bounding_box (Multiline.members (py_sorted yx_ltb texts) p)
        (Multiline.x p) (Multiline.y p) (Multiline.width p)
        (Multiline.height p).
Proof.
  intros w texts. eexists. split; [vm_compute; reflexivity|].
  destruct C8_bounding_box as [H _].
  apply (H texts (10, 1)%Z 50%Q 0%nat). vm_compute. reflexivity.
Defined.

(** The claim fails for ocr_server.py: the words "A" at (0, 5) and "B" at
    (10, 3) form one phrase "A B" whose y is 5, the y of its leftmost word,
    while the smallest y of its members is 3. *)
Lemma C8_counterexample :
  let w (t : string) (x y : Q) :=
    {| w_text := t; w_confidence := 90; w_x := x; w_y := y;
       w_width := Some 5%Q; w_height := Some 5%Q;
       w_display_x := None; w_display_y := None |} in
  ∃ p, OcrServer.group_texts_into_phrases [w "A" 0%Q 5%Q; w "B" 10%Q 3%Q] 15 100
       = Some [p]
    ∧ OcrServer.phrase_groups 100 [w "B" 10%Q 3%Q; w "A" 0%Q 5%Q]
      = Some [[w "A" 0%Q 5%Q; w "B" 10%Q 3%Q]]
    ∧ OcrServer.text p = "A B"
    ∧ ¬ (OcrServer.y p <= w_y (w "B" 10%Q 3%Q))%Q.
Proof.
  intros w. eexists. split_and!; [vm_compute; reflexivity..|].
  by vm_compute.
Qed.

(** ** Candidate phrases of Automapper.py *)

Lemma range_down_elem (start stop y : Z) :
  y ∈ range_down start stop → (stop < y ≤ start)%Z.
Proof.
  unfold range_down. intros H.
  apply list_elem_of_fmap_1 in H as (k & -> & Hk).
  apply elem_of_seq in Hk. lia.
Qed.

Section candidate_facts.
Context (rect_union : Automapper.Rect → Automapper.Rect → Automapper.Rect).
Context (location_key : Q → Q → string).
Context (fault_at : nat → Automapper.Candidate → Automapper.fault).

Lemma line_candidates_elem words line_idx line c :
  c ∈ Automapper.line_candidates rect_union words line_idx line →
  ∃ len i, c = Automapper.candidate rect_union words line_idx line len i
    ∧ (1 ≤ len ≤ 5)%nat ∧ (i + len ≤ length line)%nat.
Proof.
  unfold Automapper.line_candidates. intros H.
  apply list_elem_of_bind in H as (len & H & Hlen).
  apply list_elem_of_bind in H as (i & H & Hi).
  apply list_elem_of_singleton in H.
  apply elem_of_seq in Hlen, Hi.
  exists len, i. split; [done|]. lia.
Qed.

Lemma potential_phrases_consecutive y_tolerance words c :
  c ∈ Automapper.potential_phrases rect_union y_tolerance words →
  Automapper.consecutive_words y_tolerance words c.
Proof.
  unfold Automapper.potential_phrases. rewrite py_sorted_perm. intros H.
  apply list_elem_of_bind in H as ([line_idx line] & H & Hline).
  apply enumerate_lookup in Hline. simpl in H.
  apply line_candidates_elem in H as (len & i & -> & Hlen & Hi).
  split; [done|]. exists line. simpl. split_and!; [done|done|done|].
  rewrite length_take, length_drop. lia.
Qed.

Local Abbreviation from_pass words :=
  (λ c, ∃ y_tolerance : Z, (1 ≤ y_tolerance ≤ 10)%Z
        ∧ Automapper.consecutive_words (inject_Z y_tolerance) words c).

Lemma annotate_from (P : Automapper.Candidate → Prop) st c :
  Forall P (Automapper.annotated st) → P c →
  Forall P
    (Automapper.annotated (Automapper.annotate location_key fault_at st c)).
Proof.
  intros Hst Hc. unfold Automapper.annotate.
  destruct (Automapper.raised st); [done|].
  destruct (Automapper.any_in _ _); [done|].
  destruct (Automapper.any_in _ _); [done|].
  destruct (fault_at _ c); [|done|]; case_bool_decide; try done.
  cbn [Automapper.annotated].
  apply Forall_app. split; [done|]. by apply Forall_singleton.
Qed.

Lemma annotate_all_from (P : Automapper.Candidate → Prop) cs : ∀ st,
  Forall P (Automapper.annotated st) → Forall P cs →
  Forall P
    (Automapper.annotated
       (foldl (Automapper.annotate location_key fault_at) st cs)).
Proof.
  induction cs as [|c cs IH]; intros st Hst Hcs; [done|].
  apply Forall_cons in Hcs as [Hc Hcs]. simpl. apply IH; [|done].
  by apply annotate_from.
Qed.

Lemma process_page_from words locations radius :
  Forall (from_pass words)
    (Automapper.annotated
       (Automapper.process_page rect_union location_key fault_at words
          locations radius)).
Proof.
  unfold Automapper.process_page.
  assert (∀ y, y ∈ range_down 10 0 → (1 ≤ y ≤ 10)%Z) as Hrange.
  { intros y Hy. apply range_down_elem in Hy. lia. }
  revert Hrange. generalize (range_down 10 0). intros passes.
  set (st0 := Automapper.Build_State _ _ _ _ _ _ _).
  assert (Forall (from_pass words) (Automapper.annotated st0)) as Hinit by done.
  revert Hinit. generalize st0.
  induction passes as [|y_tol passes IH]; intros st Hinv Hrange; [done|].
  simpl. apply IH.
  - unfold Automapper.pass. destruct (Automapper.raised st); [done|].
    apply annotate_all_from; [done|].
    apply Forall_forall. intros c Hc. exists y_tol. split.
    + apply Hrange. by left.
    + by apply potential_phrases_consecutive.
  - intros y Hy. apply Hrange. by right.
Qed.

End candidate_facts.

(** A line of six words: twenty candidates, the longest of five words. *)
Example six_word_line :
  let w (t : string) (x : Q) :=
    {| Automapper.x0 := x; Automapper.y0 := 100; Automapper.x1 := x + 8;
       Automapper.y1 := 110; Automapper.text := t; Automapper.block_no := 0;
       Automapper.line_no := 0; Automapper.word_no := 0 |} in
  let words := [w "A" 0%Q; w "B" 10%Q; w "C" 20%Q; w "D" 30%Q; w "E" 40%Q;
                w "F" 50%Q] in
  let candidates := Automapper.potential_phrases (λ r _, r) 10 words in
  Automapper.sorted_lines 10 words = [words]
  ∧ length candidates = 20%nat
  ∧ Automapper.phrase <$> take 3 candidates
    = ["A B C D E"; "B C D E F"; "A B C D"]
  ∧ forallb (λ c, Automapper.phrase_length c <=? 5)%nat candidates = true.
Proof. by vm_compute. Qed.

(** C10.  Every candidate phrase of a pass of the multipass loop is made of
    between 1 and 5 consecutive words of one (sorted) line of that pass: its
    length is at most min(5, length of the line), its text is the space-join
    of that slice of the line.  Every annotated phrase of a page is such a
    candidate of one of the passes with tolerance 10 down to 1. *)
Theorem C10_phrase_length_cap
    (rect_union : Automapper.Rect → Automapper.Rect → Automapper.Rect)
    (location_key : Q → Q → string)
    (fault_at : nat → Automapper.Candidate → Automapper.fault)
    (words : list Automapper.Word) :
  (∀ (y_tolerance : Q) (k : nat) (c : Automapper.Candidate),
     Automapper.potential_phrases rect_union y_tolerance words !! k = Some c →
     Automapper.consecutive_words y_tolerance words c)
  ∧ (∀ (locations : gset string) (radius : option Q) (k : nat)
       (c : Automapper.Candidate),
       Automapper.annotated
         (Automapper.process_page rect_union location_key fault_at words
            locations radius) !! k = Some c →
       ∃ y_tolerance : Z, (1 ≤ y_tolerance ≤ 10)%Z
         ∧ Automapper.consecutive_words (inject_Z y_tolerance) words c).
Proof.
  split.
  - intros y_tolerance k c Hk. eapply potential_phrases_consecutive.
    by eapply list_elem_of_lookup_2.
  - intros locations radius k c Hk.
    pose proof (process_page_from rect_union location_key fault_at words
                  locations radius) as H.
    rewrite Forall_forall in H. apply H. by eapply list_elem_of_lookup_2.
Qed.

Lemma C10_phrase_length_cap_witness :
  let w (t : string) (x : Q) :=
    {| Automapper.x0 := x; Automapper.y0 := 100; Automapper.x1 := x + 8;
       Automapper.y1 := 110; Automapper.text := t; Automapper.block_no := 0;
       Automapper.line_no := 0; Automapper.word_no := 0 |} in
  let words := [w "A" 0%Q; w "B" 10%Q; w "C" 20%Q; w "D" 30%Q; w "E" 40%Q;
                w "F" 50%Q] in
  ∃ c, Automapper.potential_phrases (λ r _, r) 10 words !! 0%nat = Some c
    ∧ Automapper.phrase c = "A B C D E"
    ∧ Automapper.consecutive_words 10 words c.
Proof.
  intros w words. eexists.
  split; [vm_compute; reflexivity|]. split; [reflexivity|].
  destruct (C10_phrase_length_cap (λ r _, r) (λ _ _, EmptyString)
              (λ _ _, Automapper.NoFault) words) as [H _].
  apply (H 10%Q 0%nat). vm_compute. reflexivity.
Defined.

(** ** Strings *)

Lemma string_app_cons (c : ascii) (s q : string) :
  (String c s ++ q)%string = String c (s ++ q)%string.
Proof. done. Qed.

Lemma string_app_nil (q : string) : (EmptyString ++ q)%string = q.
Proof. done. Qed.

Lemma prefix_spec (s1 s2 : string) :
  String.prefix s1 s2 = true ↔ ∃ q, s2 = (s1 ++ q)%string.
Proof.
  revert s2. induction s1 as [|a s1 IH]; intros s2.
  - assert (String.prefix EmptyString s2 = true) as -> by by destruct s2.
    split; [|done]. intros _. by exists s2.
  - destruct s2 as [|b s2]; simpl.
    + split; [done|]. intros [q Hq]. by rewrite string_app_cons in Hq.
    + destruct (ascii_dec a b) as [->|Hne].
      * rewrite IH. split; intros [q Hq]; exists q;
          rewrite string_app_cons in *; congruence.
      * split; [done|]. intros [q Hq]. rewrite string_app_cons in Hq.
        congruence.
Qed.

Lemma str_in_spec (sub s : string) :
  Py.str_in sub s = true ↔ Dedup.substring_of sub s.
Proof.
  unfold Dedup.substring_of. induction s as [|c s IH]; cbn [Py.str_in].
  - rewrite orb_false_r, prefix_spec. split.
    + intros [q Hq]. by exists EmptyString, q.
    + intros (p & q & Hq). destruct p as [|d p].
      * rewrite string_app_nil in Hq. by exists q.
      * by rewrite string_app_cons in Hq.
  - rewrite orb_true_iff, prefix_spec, IH. split.
    + intros [[q Hq]|(p & q & Hq)].
      * by exists EmptyString, q.
      * exists (String c p), q. rewrite string_app_cons. by rewrite Hq.
    + intros (p & q & Hq). destruct p as [|d p].
      * left. rewrite string_app_nil in Hq. by exists q.
      * right. rewrite string_app_cons in Hq. exists p, q. congruence.
Qed.

Lemma char_in_spec (c : ascii) (s : string) :
  Py.char_in c s = true ↔ c ∈ Py.chars s.
Proof.
  unfold Py.char_in, Py.chars. induction s as [|d s IH]; simpl.
  - split; [done|]. intros H. by apply elem_of_nil in H.
  - rewrite elem_of_cons, <- IH. destruct (ascii_dec c d) as [->|Hne]; simpl.
    + destruct s; simpl; split; auto.
    + split; [by right|]. intros [?|?]; done.
Qed.

Lemma common_chars_shared (a b : string) :
  Dedup.common_chars a b = Dedup.shared_chars a b.
Proof.
  unfold Dedup.common_chars, Dedup.shared_chars.
  assert (∀ l n,
    foldl (λ common c, if Py.char_in c b then S common else common) n l
    = (n + length (filter (λ c, c ∈ Py.chars b) l))%nat) as H.
  { induction l as [|c l IH]; intros n; simpl; [lia|].
    rewrite IH, filter_cons. destruct (Py.char_in c b) eqn:E.
    - apply char_in_spec in E. rewrite decide_True by done. simpl. lia.
    - rewrite decide_False; [done|]. intros Hc. apply char_in_spec in Hc.
      congruence. }
  apply H.
Qed.

Lemma chars_of_list (l : list ascii) :
  Py.chars (String.string_of_list_ascii l) = l.
Proof. apply String.list_ascii_of_string_of_list_ascii. Qed.

Lemma chars_remove (c : ascii) (s : string) :
  Py.chars (Py.remove_char c s) = filter (λ d, d ≠ c) (Py.chars s).
Proof. apply chars_of_list. Qed.

Lemma string_of_chars (s : string) :
  String.string_of_list_ascii (Py.chars s) = s.
Proof. apply String.string_of_list_ascii_of_string. Qed.

Lemma isdigit_spec (s : string) :
  Py.isdigit s = true ↔ Py.chars s ≠ [] ∧ Forall (λ c, Py.is_digit c = true) (Py.chars s).
Proof.
  unfold Py.isdigit. destruct (Py.chars s) as [|c l] eqn:E.
  - split; [done|]. by intros [? _].
  - rewrite forallb_forall, Forall_forall. split.
    + intros H. split; [done|]. intros d Hd. by apply H, list_elem_of_In.
    + intros [_ H] d Hd. by apply H, list_elem_of_In.
Qed.

(** ** Text similarity *)

(** C3.  [text_similarity a b] is 1 when the texts are equal; 0.8 when they
    differ and one occurs inside the other; and otherwise the number of
    characters of [a] that occur somewhere in [b], divided by the length of
    the longer text (which is then positive).  In particular the similarity
    of a non-empty text with itself is 1. *)
Theorem C3_text_similarity (a b : string) :
  (a = b → Dedup.text_similarity a b = 1%Q)
  ∧ (a ≠ b → Dedup.substring_of a b ∨ Dedup.substring_of b a →
     Dedup.text_similarity a b = (8 # 10)%Q)
  ∧ (a ≠ b → ¬ Dedup.substring_of a b → ¬ Dedup.substring_of b a →
     (0 < String.length a `max` String.length b)%nat
     ∧ Dedup.text_similarity a b
       = (inject_Z (Z.of_nat (Dedup.shared_chars a b))
          / inject_Z (Z.of_nat (String.length a `max` String.length b)))%Q)
  ∧ (a ≠ EmptyString → Dedup.text_similarity a a = 1%Q).
Proof.
  unfold Dedup.text_similarity. split_and!.
  - intros ->. by rewrite String.eqb_refl.
  - intros Hne Hsub.
    destruct (String.eqb_spec a b) as [?|_]; [done|].
    assert (Py.str_in a b || Py.str_in b a = true) as ->; [|done].
    apply orb_true_iff. by rewrite !str_in_spec.
  - intros Hne Hab Hba.
    destruct (String.eqb_spec a b) as [?|_]; [done|].
    assert (Py.str_in a b = false) as ->.
    { apply not_true_is_false. by rewrite str_in_spec. }
    assert (Py.str_in b a = false) as ->.
    { apply not_true_is_false. by rewrite str_in_spec. }
    simpl.
    assert (0 < String.length a `max` String.length b)%nat as Hpos.
    { destruct a as [|c a]; [|simpl; lia].
      exfalso. apply Hab. by exists EmptyString, b. }
    split; [done|].
    apply Nat.ltb_lt in Hpos. rewrite Hpos. by rewrite common_chars_shared.
  - intros _. by rewrite String.eqb_refl.
Qed.

Lemma C3_text_similarity_witness :
  Dedup.text_similarity "BOILER RM" "BOILER RM" = 1%Q
  ∧ Dedup.text_similarity "BOILER" "BOILER RM" = (8 # 10)%Q
  ∧ Dedup.text_similarity "BOILER RM" "BOILER RN"
    = (inject_Z 8 / inject_Z 9)%Q.
Proof.
  split_and!.
  - destruct (C3_text_similarity "BOILER RM" "BOILER RM") as (H & _).
    apply H. reflexivity.
  - destruct (C3_text_similarity "BOILER" "BOILER RM") as (_ & H & _).
    apply H; [discriminate|]. left. by exists EmptyString, " RM"%string.
  - destruct (C3_text_similarity "BOILER RM" "BOILER RN") as (_ & _ & H & _).
    apply H; [discriminate| |].
    + intros Hs. apply str_in_spec in Hs. vm_compute in Hs. discriminate.
    + intros Hs. apply str_in_spec in Hs. vm_compute in Hs. discriminate.
Defined.

(** ** The duplicate reducer *)

(** *** Filters *)

Lemma filter_split {A} (P Q : A → Prop) `{∀ x, Decision (P x)}
    `{∀ x, Decision (Q x)} (l : list A) :
  filter (λ x, P x ∧ Q x) l ++ filter (λ x, P x ∧ ¬ Q x) l ≡ₚ filter P l.
Proof.
  induction l as [|a l IH]; [done|].
  rewrite !filter_cons.
  destruct (decide (P a)) as [HP|HP], (decide (Q a)) as [HQ|HQ].
  - rewrite decide_True by done. rewrite decide_False by (intros [_ ?]; done).
    simpl. by rewrite IH.
  - rewrite decide_False by (intros [_ ?]; done). rewrite decide_True by done.
    rewrite <- Permutation_middle. by rewrite IH.
  - rewrite !decide_False by (intros [? _]; done). done.
  - rewrite !decide_False by (intros [? _]; done). done.
Qed.

Lemma filter_none {A} (P : A → Prop) `{∀ x, Decision (P x)} (l : list A) :
  (∀ x, x ∈ l → ¬ P x) → filter P l = [].
Proof.
  induction l as [|a l IH]; intros Hno; [done|].
  rewrite filter_cons, decide_False by (apply Hno; left).
  apply IH. intros x Hx. apply Hno. by right.
Qed.

Lemma filter_all {A} (P : A → Prop) `{∀ x, Decision (P x)} (l : list A) :
  (∀ x, x ∈ l → P x) → filter P l = l.
Proof.
  induction l as [|a l IH]; intros Hall; [done|].
  rewrite filter_cons, decide_True by (apply Hall; left).
  f_equal. apply IH. intros x Hx. apply Hall. by right.
Qed.

Lemma filter_agree {A} (P Q : A → Prop) `{∀ x, Decision (P x)}
    `{∀ x, Decision (Q x)} (l : list A) :
  (∀ x, x ∈ l → (P x ↔ Q x)) → filter P l = filter Q l.
Proof.
  induction l as [|a l IH]; intros Hiff; [done|].
  rewrite !filter_cons.
  rewrite IH by (intros x Hx; apply Hiff; by right).
  destruct (decide (P a)) as [HP|HP].
  - rewrite decide_True; [done|]. apply Hiff; [by left|done].
  - rewrite decide_False; [done|]. intros HQ. apply HP, Hiff; [by left|done].
Qed.

Section dedup_facts.
Context (position_threshold similarity_threshold : Q).

Local Abbreviation absorb := (Dedup.absorb position_threshold similarity_threshold).
Local Abbreviation group_loop :=
  (Dedup.group_loop position_threshold similarity_threshold).
Local Abbreviation groups_of :=
  (Dedup.groups_of position_threshold similarity_threshold).

(** The inner loop only appends members of the input to the group. *)
Lemma absorb_group text1 (items : list (nat * Dedup.Label)) : ∀ used group,
  ∃ more, (absorb text1 items used group).2 = group ++ more
    ∧ more ⊆ snd <$> items.
Proof.
  induction items as [|[j text2] items IH]; intros used group; simpl.
  - exists []. split; [by rewrite app_nil_r|done].
  - case_bool_decide.
    + destruct (IH used group) as (more & -> & Hsub).
      exists more. split; [done|]. set_solver.
    + destruct (Dedup.duplicate_of _ _ _ _).
      * destruct (IH ({[j]} ∪ used) (group ++ [text2])) as (more & -> & Hsub).
        exists (text2 :: more). split; [by rewrite <- app_assoc|]. set_solver.
      * destruct (IH used group) as (more & -> & Hsub).
        exists more. split; [done|]. set_solver.
Qed.

Lemma enumerate_snd {A} (n : nat) (l : list A) :
  snd <$> enumerate_from n l = l.
Proof.
  revert n. induction l as [|a l IH]; intros n; [done|].
  simpl. by rewrite IH.
Qed.

(** Every group is a non-empty list of members of the input, and there are
    no more groups than labels. *)
Lemma group_loop_groups texts (items : list (nat * Dedup.Label)) :
  ∀ used groups,
  snd <$> items ⊆ texts →
  Forall (λ g, g ≠ [] ∧ g ⊆ texts) groups →
  Forall (λ g, g ≠ [] ∧ g ⊆ texts) (group_loop texts items used groups)
  ∧ (length (group_loop texts items used groups)
     ≤ length groups + length items)%nat.
Proof.
  induction items as [|[i text1] items IH]; intros used groups Hitems Hgroups.
  - simpl. split; [done|lia].
  - simpl. assert (snd <$> items ⊆ texts) as Hitems' by set_solver.
    case_bool_decide.
    + destruct (IH used groups Hitems' Hgroups) as [? ?]. split; [done|lia].
    + destruct (absorb_group text1 (enumerate texts) ({[i]} ∪ used) [text1])
        as (more & Hmore & Hsub).
      unfold enumerate in Hsub. rewrite enumerate_snd in Hsub.
      edestruct (IH (absorb text1 (enumerate texts) ({[i]} ∪ used) [text1]).1
                   (groups ++ [(absorb text1 (enumerate texts)
                                  ({[i]} ∪ used) [text1]).2]) Hitems')
        as [Hall Hlen].
      { apply Forall_app. split; [done|]. apply Forall_singleton.
        rewrite Hmore. split; [done|]. set_solver. }
      split; [done|]. rewrite length_app in Hlen. simpl in Hlen. lia.
Qed.

Lemma groups_of_groups texts :
  Forall (λ g, g ≠ [] ∧ g ⊆ texts) (groups_of texts)
  ∧ (length (groups_of texts) ≤ length texts)%nat.
Proof.
  unfold Dedup.groups_of.
  destruct (group_loop_groups texts (enumerate texts) ∅ []) as [H1 H2].
  - unfold enumerate. by rewrite enumerate_snd.
  - done.
  - split; [done|]. simpl in H2.
    assert (length (enumerate texts) = length texts) as <-; [|done].
    rewrite <- (length_fmap snd). unfold enumerate. by rewrite enumerate_snd.
Qed.

(** *** The representative of a group *)

Lemma key_ltb_true (a b : Dedup.Label) :
  Dedup.key_ltb a b = true →
  (Dedup.confidence a < Dedup.confidence b)%Q
  ∨ ((Dedup.confidence a == Dedup.confidence b)%Q
     ∧ (String.length (Dedup.text a) < String.length (Dedup.text b))%nat).
Proof.
  unfold Dedup.key_ltb. intros H. apply orb_true_iff in H as [H|H].
  - left. by apply Qltb_lt.
  - right. apply andb_true_iff in H as [H1 H2]. split.
    + by apply Qeq_bool_iff.
    + by apply Nat.ltb_lt.
Qed.

Lemma key_ltb_false (a b : Dedup.Label) :
  Dedup.key_ltb a b = false →
  (Dedup.confidence b <= Dedup.confidence a)%Q
  ∧ ((Dedup.confidence b == Dedup.confidence a)%Q →
     (String.length (Dedup.text b) ≤ String.length (Dedup.text a))%nat).
Proof.
  unfold Dedup.key_ltb. intros H. apply orb_false_iff in H as [H1 H2].
  apply Qltb_ge in H1. split; [done|]. intros E.
  apply andb_false_iff in H2 as [H2|H2].
  - apply Qeq_bool_neq in H2. exfalso. apply H2. by symmetry.
  - apply Nat.ltb_ge in H2. done.
Qed.

Lemma pick_best (rest : list Dedup.Label) : ∀ seen best,
  Dedup.is_best seen best →
  Dedup.is_best (seen ++ rest)
    (foldl (λ best t, if Dedup.key_ltb best t then t else best) best rest).
Proof.
  induction rest as [|t rest IH]; intros seen best Hbest.
  - by rewrite app_nil_r.
  - simpl. replace (seen ++ t :: rest) with ((seen ++ [t]) ++ rest)
      by by rewrite <- app_assoc.
    apply IH. destruct Hbest as [Hin Hmax].
    destruct (Dedup.key_ltb best t) eqn:Hk.
    + apply key_ltb_true in Hk. split; [set_solver|].
      intros m Hm. apply elem_of_app in Hm as [Hm|Hm].
      * destruct (Hmax m Hm) as [Hle Hlen]. split.
        -- destruct Hk as [Hk|[Hk _]]; lra.
        -- intros E. destruct Hk as [Hk|[Hk Hk']]; [lra|].
           assert (Dedup.confidence m == Dedup.confidence best)%Q as E' by lra.
           specialize (Hlen E'). lia.
      * apply list_elem_of_singleton in Hm as ->. split; [lra|done].
    + apply key_ltb_false in Hk. split; [set_solver|].
      intros m Hm. apply elem_of_app in Hm as [Hm|Hm]; [by apply Hmax|].
      by apply list_elem_of_singleton in Hm as ->.
Qed.

Lemma best_of_is_best (group : list Dedup.Label) :
  group ≠ [] → ∃ b, Dedup.best_of group = Some b ∧ Dedup.is_best group b.
Proof.
  destruct group as [|t rest]; [done|]. intros _. eexists. split; [done|].
  apply (pick_best rest [t] t). split; [set_solver|].
  intros m Hm. apply list_elem_of_singleton in Hm as ->. split; [lra|done].
Qed.

Lemma demo_best_of_eq (group : list Dedup.Label) :
  Dedup.demo_best_of group = Dedup.best_of group.
Proof. by destruct group as [|t [|t' rest]]. Qed.

Lemma best_of_all (groups : list (list Dedup.Label)) :
  Forall (λ g, g ≠ []) groups →
  ∃ out, mapM Dedup.best_of groups = Some out
    ∧ mapM Dedup.demo_best_of groups = Some out
    ∧ Forall2 Dedup.is_best groups out.
Proof.
  intros Hne.
  assert (∃ out, Forall2 (λ g b, Dedup.best_of g = Some b ∧ Dedup.is_best g b)
                   groups out) as [out Hout].
  { induction Hne as [|g groups Hg _ [out Hout]]; [by exists []|].
    destruct (best_of_is_best g Hg) as (b & Hb & Hbest).
    exists (b :: out). by constructor. }
  exists out. split_and!.
  - apply mapM_Some. eapply Forall2_impl; [exact Hout|]. by intros g b [? _].
  - apply mapM_Some. eapply Forall2_impl; [exact Hout|].
    intros g b [? _]. by rewrite demo_best_of_eq.
  - eapply Forall2_impl; [exact Hout|]. by intros g b [_ ?].
Qed.

Lemma deduplicate_texts_total texts :
  ∃ out,
    Dedup.deduplicate_texts position_threshold similarity_threshold texts
      = Some out
    ∧ Dedup.demo_deduplicate_texts position_threshold similarity_threshold
        texts = Some out
    ∧ Forall2 Dedup.is_best (groups_of texts) out.
Proof.
  apply best_of_all. destruct (groups_of_groups texts) as [H _].
  eapply Forall_impl; [exact H|]. by intros g [? _].
Qed.

(** *** A second application *)

Lemma absorb_noop text1 (items : list (nat * Dedup.Label)) used group :
  (∀ j text2, (j, text2) ∈ items →
     j ∈ used
     ∨ Dedup.duplicate_of position_threshold similarity_threshold text1 text2
       = false) →
  absorb text1 items used group = (used, group).
Proof.
  induction items as [|[j text2] items IH]; intros H; [done|].
  simpl. assert (absorb text1 items used group = (used, group)) as IH'.
  { apply IH. intros j' t' Hj'. apply H. by right. }
  case_bool_decide as Hj; [done|].
  destruct (H j text2) as [?|Hdup]; [by left|done|by rewrite Hdup].
Qed.

Lemma group_loop_settled texts (rest : list Dedup.Label) : ∀ k groups,
  Dedup.settled position_threshold similarity_threshold texts →
  drop k texts = rest →
  group_loop texts (enumerate_from k rest) (set_seq 0 k) groups
  = groups ++ ((λ t, [t]) <$> rest).
Proof.
  induction rest as [|t rest IH]; intros k groups Hsettled Hdrop.
  - simpl. by rewrite app_nil_r.
  - simpl. rewrite bool_decide_eq_false_2
      by (rewrite elem_of_set_seq; lia).
    assert (texts !! k = Some t) as Hk.
    { rewrite <- (Nat.add_0_r k), <- lookup_drop, Hdrop. done. }
    rewrite absorb_noop.
    + simpl. replace ({[k]} ∪ set_seq 0 k : gset nat) with (set_seq 0 (S k) : gset nat).
      * rewrite IH; [by rewrite <- app_assoc|done|].
        rewrite (drop_S _ t) in Hdrop by done. by simplify_eq.
      * rewrite set_seq_S_end_union_L. done.
    + intros j text2 Hj. apply enumerate_lookup in Hj.
      destruct (decide (j ≤ k)%nat) as [Hle|Hgt].
      * left. rewrite elem_of_union, elem_of_singleton, elem_of_set_seq. lia.
      * right. eapply (Hsettled k j); [lia|done|done].
Qed.

Lemma deduplicate_settled texts :
  Dedup.settled position_threshold similarity_threshold texts →
  Dedup.deduplicate_texts position_threshold similarity_threshold texts
  = Some texts.
Proof.
  intros Hsettled. unfold Dedup.deduplicate_texts, Dedup.groups_of, enumerate.
  change (∅ : gset nat) with (set_seq 0 0 : gset nat).
  rewrite (group_loop_settled texts texts 0 []); [|done|done].
  simpl. apply mapM_Some. clear Hsettled.
  induction texts as [|t texts IH]; constructor; done.
Qed.

(** *** The clusters partition the input *)

Local Abbreviation dup :=
  (Dedup.duplicate_of position_threshold similarity_threshold).

(** The seed's group is, after what it held, the labels that are not consumed
    and are duplicates of the seed, in list order; they are the labels newly
    consumed. *)
Lemma absorb_spec text1 (items : list (nat * Dedup.Label)) :
  ∀ (used used0 : gset nat) group,
  NoDup (fst <$> items) →
  (∀ j, j ∈ fst <$> items → (j ∈ used ↔ j ∈ used0)) →
  (absorb text1 items used group).2
  = group ++ (snd <$> filter (λ it : nat * Dedup.Label,
                                ¬ (it.1 ∈ used0) ∧ dup text1 it.2 = true) items)
  ∧ ∀ j, j ∈ (absorb text1 items used group).1
         ↔ j ∈ used ∨ ∃ text2, (j, text2) ∈ items ∧ ¬ (j ∈ used0)
                                ∧ dup text1 text2 = true.
Proof.
  induction items as [|[j text2] items IH]; intros used used0 group Hnd Hused.
  - simpl. split; [by rewrite app_nil_r|]. intros j. split; [by left|].
    intros [?|(p & Hp & _)]; [done|]. by apply elem_of_nil in Hp.
  - rewrite fmap_cons in Hnd. apply NoDup_cons in Hnd as [Hj Hnd].
    assert (j ∈ used ↔ j ∈ used0) as Hju by (apply Hused; left).
    assert (∀ used',
      (∀ j', j' ∈ used' ↔ j' = j ∨ j' ∈ used) ∨ used' = used →
      ∀ j', j' ∈ fst <$> items → (j' ∈ used' ↔ j' ∈ used0)) as Hrest.
    { intros used' Hu j' Hj'. rewrite <- (Hused j') by by right.
      destruct Hu as [Hu| ->]; [|done]. rewrite Hu. split; [|by right].
      intros [->|?]; [done|done]. }
    simpl. rewrite filter_cons. simpl.
    destruct (decide (j ∈ used)) as [Hin|Hnin].
    { rewrite bool_decide_eq_true_2 by done.
      rewrite decide_False by (intros [Hno _]; apply Hno, Hju, Hin).
      destruct (IH used used0 group Hnd (Hrest used (or_intror eq_refl)))
        as [-> Hmem].
      split; [done|]. intros j'. rewrite Hmem. split.
      - intros [?|(p & Hp & Hjoin)]; [by left|]. right. exists p.
        split; [by right|done].
      - intros [?|(p & Hp & Hno & Hd)]; [by left|].
        apply elem_of_cons in Hp as [Hp|Hp].
        + simplify_eq. exfalso. apply Hno, Hju, Hin.
        + right. by exists p. }
    rewrite bool_decide_eq_false_2 by done.
    destruct (dup text1 text2) eqn:Hd.
    + rewrite decide_True by (split; [by rewrite <- Hju|done]).
      destruct (IH ({[j]} ∪ used) used0 (group ++ [text2]) Hnd) as [-> Hmem].
      { apply Hrest. left. intros j'. set_solver. }
      split; [by rewrite <- app_assoc|]. intros j'. rewrite Hmem. split.
      * intros [Hin|(p & Hp & Hjoin)].
        -- apply elem_of_union in Hin as [Hin|?]; [|by left].
           apply elem_of_singleton in Hin as ->. right. exists text2.
           split; [by left|]. split; [by rewrite <- Hju|done].
        -- right. exists p. split; [by right|done].
      * intros [?|(p & Hp & Hjoin)]; [left; set_solver|].
        apply elem_of_cons in Hp as [Hp|Hp].
        -- simplify_eq. left. set_solver.
        -- right. by exists p.
    + rewrite decide_False by (intros [_ ?]; congruence).
      destruct (IH used used0 group Hnd (Hrest used (or_intror eq_refl)))
        as [-> Hmem].
      split; [done|]. intros j'. rewrite Hmem. split.
      * intros [?|(p & Hp & Hjoin)]; [by left|]. right. exists p.
        split; [by right|done].
      * intros [?|(p & Hp & Hno & Hd')]; [by left|].
        apply elem_of_cons in Hp as [Hp|Hp]; [simplify_eq; congruence|].
        right. by exists p.
Qed.

(** The groups formed from the rest of the input hold each label that is not
    consumed yet exactly once. *)
Lemma group_loop_partition texts (items : list (nat * Dedup.Label)) :
  ∀ pre (used : gset nat) groups,
  enumerate texts = pre ++ items →
  (∀ it, it ∈ pre → it.1 ∈ used) →
  concat (group_loop texts items used groups)
  ≡ₚ concat groups
     ++ (snd <$> filter (λ it : nat * Dedup.Label, ¬ (it.1 ∈ used)) items).
Proof.
  induction items as [|[i text1] items IH]; intros pre used groups Hall Hpre.
  - simpl. by rewrite app_nil_r.
  - pose proof (enumerate_NoDup texts) as Hnd. rewrite Hall in Hnd.
    rewrite fmap_app, fmap_cons in Hnd.
    apply NoDup_app in Hnd as (Hnd1 & Hnd12 & Hnd2).
    apply NoDup_cons in Hnd2 as [Hi Hnd2]. simpl in Hi.
    simpl. rewrite filter_cons. simpl.
    destruct (decide (i ∈ used)) as [Hin|Hnin].
    + rewrite bool_decide_eq_true_2 by done.
      rewrite decide_False by (intros H; by apply H).
      apply (IH (pre ++ [(i, text1)])).
      * by rewrite <- app_assoc.
      * intros it Hit. apply elem_of_app in Hit as [Hit|Hit]; [by apply Hpre|].
        by apply list_elem_of_singleton in Hit as ->.
    + rewrite bool_decide_eq_false_2 by done. rewrite decide_True by done.
      destruct (absorb_spec text1 (enumerate texts) ({[i]} ∪ used)
                  ({[i]} ∪ used) [text1]) as [Hgroup Hmem];
        [apply enumerate_NoDup|done|].
      rewrite Hgroup. clear Hgroup.
      set (used' := (absorb text1 (enumerate texts) ({[i]} ∪ used) [text1]).1)
        in *.
      assert (filter (λ it : nat * Dedup.Label,
                        ¬ (it.1 ∈ ({[i]} ∪ used : gset nat))
                        ∧ dup text1 it.2 = true) (enumerate texts)
              = filter (λ it : nat * Dedup.Label,
                          ¬ (it.1 ∈ used) ∧ dup text1 it.2 = true) items)
        as ->.
      { rewrite Hall, filter_app, filter_cons. simpl.
        rewrite filter_none, decide_False; simpl.
        - apply filter_agree. intros it Hit. split.
          + intros [Hno ?]. split; [|done]. intros ?. apply Hno. set_solver.
          + intros [Hno ?]. split; [|done]. intros Hu.
            apply elem_of_union in Hu as [Hu|Hu]; [|done].
            apply elem_of_singleton in Hu. apply Hi. rewrite <- Hu.
            by apply list_elem_of_fmap_2.
        - intros [Hno _]. apply Hno. set_solver.
        - intros it Hit [Hno _]. apply Hno. apply elem_of_union. right.
          by apply Hpre. }
      rewrite (IH (pre ++ [(i, text1)]) used').
      * rewrite concat_app. simpl. rewrite app_nil_r, <- app_assoc. simpl.
        apply Permutation_app_head. constructor.
        rewrite <- fmap_app. apply fmap_Permutation.
        rewrite <- (filter_split (λ it : nat * Dedup.Label, ¬ (it.1 ∈ used))
                      (λ it : nat * Dedup.Label, dup text1 it.2 = true) items).
        apply Permutation_app_head.
        erewrite filter_agree; [done|]. intros [j text2] Hit. simpl.
        rewrite Hmem. split.
        -- intros Hno. split.
           ++ intros Hu. apply Hno. left. set_solver.
           ++ intros Hd. apply Hno. right. exists text2. split_and!.
              ** rewrite Hall. apply elem_of_app. right. by right.
              ** intros Hu. apply elem_of_union in Hu as [Hu|Hu].
                 --- apply elem_of_singleton in Hu. apply Hi. rewrite <- Hu.
                     by apply (list_elem_of_fmap_2 fst _ (j, text2)).
                 --- apply Hno. left. set_solver.
              ** done.
        -- intros [Hno Hnd'] [Hu|(t2 & Ht2 & _ & Hd)].
           ++ apply elem_of_union in Hu as [Hu|Hu]; [|done].
              apply elem_of_singleton in Hu. apply Hi. rewrite <- Hu.
              by apply (list_elem_of_fmap_2 fst _ (j, text2)).
           ++ apply Hnd'. 
              assert (t2 = text2) as ->; [|done].
              apply enumerate_lookup in Ht2.
              assert ((j, text2) ∈ enumerate texts) as Hj.
              { rewrite Hall. apply elem_of_app. right. by right. }
              apply enumerate_lookup in Hj. congruence.
      * by rewrite <- app_assoc.
      * intros it Hit. subst used'. rewrite Hmem. left.
        apply elem_of_app in Hit as [Hit|Hit].
        -- apply elem_of_union. right. by apply Hpre.
        -- apply list_elem_of_singleton in Hit as ->. set_solver.
Qed.

(** The clusters are a partition of the input. *)
Lemma groups_of_partition texts :
  concat (Dedup.groups_of position_threshold similarity_threshold texts)
  ≡ₚ texts.
Proof.
  unfold Dedup.groups_of.
  rewrite (group_loop_partition texts (enumerate texts) [] ∅ []).
  - simpl. rewrite filter_all by set_solver.
    unfold enumerate. by rewrite enumerate_snd.
  - done.
  - intros it Hit. by apply elem_of_nil in Hit.
Qed.

End dedup_facts.


(** C2.  The clusters hold every input label exactly once, and the reducer
    returns one label per cluster, in the order of the clusters: a member of
    the cluster with the highest confidence and, among the members of that
    confidence, with the longest text (both scripts agree).  For the two scans of "BOILER RM" at (2649.5, 189.3) with
    confidence 96 and at (2650.2, 189.8) with confidence 92, with thresholds
    15 and 0.7, there is one cluster and the output is the single label
    "BOILER RM" of confidence 96. *)
Theorem C2_dedup_representative (position_threshold similarity_threshold : Q)
    (texts : list Dedup.Label) :
  (∃ out,
     Dedup.deduplicate_texts position_threshold similarity_threshold texts
       = Some out
     ∧ Dedup.demo_deduplicate_texts position_threshold similarity_threshold
         texts = Some out
     ∧ Forall2 Dedup.is_best
         (Dedup.groups_of position_threshold similarity_threshold texts) out)
  ∧ concat (Dedup.groups_of position_threshold similarity_threshold texts)
    ≡ₚ texts
  ∧ (let scan1 := {| Dedup.text := "BOILER RM"; Dedup.x := 26495 # 10;
                     Dedup.y := 1893 # 10; Dedup.confidence := 96;
                     Dedup.scan := "grid1_normal" |} in
     let scan2 := {| Dedup.text := "BOILER RM"; Dedup.x := 26502 # 10;
                     Dedup.y := 1898 # 10; Dedup.confidence := 92;
                     Dedup.scan := "grid2_normal" |} in
     Dedup.groups_of 15 (7 # 10) [scan1; scan2] = [[scan1; scan2]]
     ∧ Dedup.deduplicate_texts 15 (7 # 10) [scan1; scan2] = Some [scan1]
     ∧ Dedup.demo_deduplicate_texts 15 (7 # 10) [scan1; scan2] = Some [scan1]
     ∧ Dedup.text scan1 = "BOILER RM" ∧ Dedup.confidence scan1 = 96%Q).
Proof.
  split_and!; [apply deduplicate_texts_total|apply groups_of_partition|].
  by vm_compute.
Qed.




(** ** The multiline joiner *)

Section joiner_facts.
Context (vertical_threshold horizontal_threshold : Q).

Local Abbreviation collect :=
  (Joiner.collect vertical_threshold horizontal_threshold).
Local Abbreviation joins :=
  (Joiner.joins vertical_threshold horizontal_threshold).

Lemma aligned_spec (phrase1 phrase2 : Joiner.Phrase) :
  Joiner.aligned vertical_threshold horizontal_threshold phrase1 phrase2 = true
  ↔ (Qabs (fsub (Joiner.x phrase1) (Joiner.x phrase2))
     < horizontal_threshold)%Q
    ∧ (0 < fsub (Joiner.y phrase2) (Joiner.y phrase1))%Q
    ∧ (fsub (Joiner.y phrase2) (Joiner.y phrase1) < vertical_threshold)%Q.
Proof.
  unfold Joiner.aligned. by rewrite !andb_true_iff, !Qltb_lt.
Qed.

Lemma is_room_code_spec (text : string) :
  Joiner.is_room_code text = true ↔ Joiner.room_code (Py.strip text).
Proof.
  unfold Joiner.is_room_code, Joiner.room_code, Joiner.digits.
  set (t := Py.strip text).
  assert (Py.isdigit
            (Py.remove_char " " (Py.remove_char "," (Py.remove_char "." t)))
          = true
          ↔ filter (λ c, c ≠ " "%char)
              (filter (λ c, c ≠ ","%char)
                 (filter (λ c, c ≠ "."%char) (Py.chars t))) ≠ []
            ∧ Forall (λ c, Py.is_digit c = true)
                (filter (λ c, c ≠ " "%char)
                   (filter (λ c, c ≠ ","%char)
                      (filter (λ c, c ≠ "."%char) (Py.chars t))))) as Hnum.
  { by rewrite isdigit_spec, !chars_remove. }
  assert (∀ rest, Py.isdigit (Py.remove_char "." rest) = true
          ↔ filter (λ c, c ≠ "."%char) (Py.chars rest) ≠ []
            ∧ Forall (λ c, Py.is_digit c = true)
                (filter (λ c, c ≠ "."%char) (Py.chars rest))) as Htail.
  { intros rest. by rewrite isdigit_spec, chars_remove. }
  destruct t as [|c rest] eqn:Ht.
  - simpl Py.startswith_char. cbn [andb].
    destruct (Py.isdigit _) eqn:E.
    + split; [|done]. intros _. right. by apply Hnum.
    + split; [done|]. intros [(rest & Hc & _)|H]; [done|].
      apply Hnum in H. congruence.
  - cbn [Py.startswith_char Py.tail].
    destruct (decide (c = "T"%char)) as [->|Hne].
    + rewrite bool_decide_eq_true_2 by done. cbn [andb].
      destruct ((1 <? String.length (String "T" rest))%nat
                && Py.isdigit (Py.remove_char "." rest)) eqn:E.
      * split; [|done]. intros _. left. exists (Py.chars rest).
        split; [done|]. apply andb_true_iff in E as [_ E]. by apply Htail.
      * destruct (Py.isdigit (Py.remove_char " " _)) eqn:E2.
        -- split; [|done]. intros _. right. by apply Hnum.
        -- split; [done|]. intros [(rest' & Hc & Hd)|H].
           ++ change (Py.chars (String "T" rest)) with ("T"%char :: Py.chars rest)
                in Hc. simplify_eq.
              apply andb_false_iff in E as [E|E].
              ** destruct Hd as [Hd _]. destruct rest; [done|].
                 simpl in E. done.
              ** apply Htail in Hd. congruence.
           ++ apply Hnum in H. congruence.
    + rewrite bool_decide_eq_false_2 by done. cbn [andb].
      destruct (Py.isdigit _) eqn:E.
      * split; [|done]. intros _. right. by apply Hnum.
      * split; [done|]. intros [(rest' & Hc & _)|H].
        -- change (Py.chars (String c rest)) with (c :: Py.chars rest) in Hc.
           by simplify_eq.
        -- apply Hnum in H. congruence.
Qed.

Lemma continuation_spec (phrase2 : Joiner.Phrase) :
  Joiner.continuation phrase2 = true
  ↔ ¬ Joiner.room_code (Py.strip (Joiner.text phrase2))
    ∨ Dedup.substring_of "RM" (Py.upper (Joiner.text phrase2)).
Proof.
  unfold Joiner.continuation.
  rewrite orb_true_iff, negb_true_iff, str_in_spec, <- is_room_code_spec.
  by rewrite not_true_iff_false.
Qed.

(** The seed's parts are, after the seed, the phrases that pass the test, in
    list order; they are the phrases newly consumed. *)
Lemma collect_spec i phrase1 (items : list (nat * Joiner.Phrase)) :
  ∀ used used0 room_parts,
  NoDup (fst <$> items) →
  (∀ j, j ∈ fst <$> items → (j ∈ used ↔ j ∈ used0)) →
  (collect i phrase1 items used room_parts).2
  = room_parts ++ (snd <$> filter (joins i phrase1 used0) items)
  ∧ ∀ j, j ∈ (collect i phrase1 items used room_parts).1
         ↔ j ∈ used ∨ ∃ phrase2, (j, phrase2) ∈ items
                                  ∧ joins i phrase1 used0 (j, phrase2).
Proof.
  induction items as [|[j phrase2] items IH];
    intros used used0 room_parts Hnd Hused.
  - simpl. split; [by rewrite app_nil_r|]. intros j. split; [by left|].
    intros [?|(p & Hp & _)]; [done|]. by apply elem_of_nil in Hp.
  - rewrite fmap_cons in Hnd. apply NoDup_cons in Hnd as [Hj Hnd].
    assert (j ∈ used ↔ j ∈ used0) as Hju by (apply Hused; left).
    assert (∀ used',
      (∀ j', j' ∈ used' ↔ j' = j ∨ j' ∈ used) ∨ used' = used →
      ∀ j', j' ∈ fst <$> items → (j' ∈ used' ↔ j' ∈ used0)) as Hrest.
    { intros used' Hu j' Hj'. rewrite <- (Hused j') by by right.
      destruct Hu as [Hu| ->]; [|done]. rewrite Hu. split; [|by right].
      intros [->|?]; [done|done]. }
    simpl. rewrite filter_cons.
    destruct ((j <=? i)%nat || bool_decide (j ∈ used)) eqn:Hskip.
    { assert (¬ joins i phrase1 used0 (j, phrase2)) as Hno.
      { intros (Hlt & Hnot & _). simpl in *.
        apply orb_true_iff in Hskip as [Hle|Hin].
        - apply Nat.leb_le in Hle. lia.
        - apply bool_decide_eq_true in Hin. apply Hnot, Hju, Hin. }
      rewrite decide_False by done.
      destruct (IH used used0 room_parts Hnd (Hrest used (or_intror eq_refl)))
        as [-> Hmem].
      split; [done|]. intros j'. rewrite Hmem. split.
      - intros [?|(p & Hp & Hjoin)]; [by left|]. right. exists p.
        split; [by right|done].
      - intros [?|(p & Hp & Hjoin)]; [by left|].
        apply elem_of_cons in Hp as [Hp|Hp]; [by simplify_eq|].
        right. by exists p. }
    apply orb_false_iff in Hskip as [Hgt Hnin].
    apply Nat.leb_gt in Hgt. apply bool_decide_eq_false in Hnin.
    destruct (Joiner.aligned _ _ phrase1 phrase2) eqn:Hal;
      [destruct (Joiner.continuation phrase2) eqn:Hco|].
    + assert (joins i phrase1 used0 (j, phrase2)) as Hyes.
      { split_and!; simpl; [lia| |done|done]. intros H. by apply Hnin, Hju. }
      rewrite decide_True by done.
      destruct (IH ({[j]} ∪ used) used0 (room_parts ++ [phrase2]) Hnd)
        as [-> Hmem].
      { apply Hrest. left. intros j'. set_solver. }
      split; [by rewrite <- app_assoc|]. intros j'. rewrite Hmem. split.
      * intros [Hin|(p & Hp & Hjoin)].
        -- apply elem_of_union in Hin as [Hin|?]; [|by left].
           apply elem_of_singleton in Hin as ->. right. exists phrase2.
           split; [by left|done].
        -- right. exists p. split; [by right|done].
      * intros [?|(p & Hp & Hjoin)]; [left; set_solver|].
        apply elem_of_cons in Hp as [Hp|Hp].
        -- simplify_eq. left. set_solver.
        -- right. by exists p.
    + assert (¬ joins i phrase1 used0 (j, phrase2)) as Hno.
      { intros (_ & _ & _ & H). simpl in H. congruence. }
      rewrite decide_False by done.
      destruct (IH used used0 room_parts Hnd (Hrest used (or_intror eq_refl)))
        as [-> Hmem].
      split; [done|]. intros j'. rewrite Hmem. split.
      * intros [?|(p & Hp & Hjoin)]; [by left|]. right. exists p.
        split; [by right|done].
      * intros [?|(p & Hp & Hjoin)]; [by left|].
        apply elem_of_cons in Hp as [Hp|Hp]; [by simplify_eq|].
        right. by exists p.
    + assert (¬ joins i phrase1 used0 (j, phrase2)) as Hno.
      { intros (_ & _ & H & _). simpl in H. congruence. }
      rewrite decide_False by done.
      destruct (IH used used0 room_parts Hnd (Hrest used (or_intror eq_refl)))
        as [-> Hmem].
      split; [done|]. intros j'. rewrite Hmem. split.
      * intros [?|(p & Hp & Hjoin)]; [by left|]. right. exists p.
        split; [by right|done].
      * intros [?|(p & Hp & Hjoin)]; [by left|].
        apply elem_of_cons in Hp as [Hp|Hp]; [by simplify_eq|].
        right. by exists p.
Qed.

End joiner_facts.

(** The claim fails.  (1) Three phrases stacked 15 apart, with
    [vertical_threshold] 20: "B" is absorbed by the seed "A"; "C" is 15 below
    "B", aligned with it and not a code, yet it is not absorbed into the
    label of "B", because it is 30 below the seed.  (2) "RM" at (99, 215)
    is 15 below "MECH" at (100, 200) and aligned with it, yet the two stay
    separate labels: "RM" comes first in (x, y) order, and a seed looks at
    later phrases only.  (3) The lower phrase "A101", a letter followed by
    digits without "RM", is absorbed: only codes that start with "T" are
    excluded. *)
Lemma C7_counterexample :
  let ph (t : string) (x y : Q) :=
    {| Joiner.text := t; Joiner.confidence := 90; Joiner.x := x;
       Joiner.y := y |} in
  (Joiner.room_text
     <$> Joiner.identify_multiline_room_names 20 120
           [ph "A" 100%Q 200%Q; ph "B" 100%Q 215%Q; ph "C" 100%Q 230%Q]
   = ["A B"; "C"]
   ∧ Joiner.aligned 20 120 (ph "B" 100%Q 215%Q) (ph "C" 100%Q 230%Q) = true
   ∧ Joiner.continuation (ph "C" 100%Q 230%Q) = true)
  ∧ (Joiner.room_text
       <$> Joiner.identify_multiline_room_names 40 120
             [ph "MECH" 100%Q 200%Q; ph "RM" 99%Q 215%Q]
     = ["RM"; "MECH"]
     ∧ Joiner.aligned 40 120 (ph "MECH" 100%Q 200%Q) (ph "RM" 99%Q 215%Q)
       = true
     ∧ Joiner.continuation (ph "RM" 99%Q 215%Q) = true)
  ∧ (Joiner.room_text
       <$> Joiner.identify_multiline_room_names 40 120
             [ph "MECH" 100%Q 200%Q; ph "A101" 100%Q 215%Q]
     = ["MECH A101"]
     ∧ Py.str_in "RM" (Py.upper "A101") = false).
Proof. by vm_compute. Qed.

(** The two differences are float differences.  A phrase at y = 40.4 under a
    seed at y = 0.4 has the computed offset 40.0, which is not below a
    [vertical_threshold] of 40: the two stay apart, although the two doubles
    are a little less than 40 apart. *)
Example offset_rounded :
  let ph (t : string) (y : Q) :=
    {| Joiner.text := t; Joiner.confidence := 90; Joiner.x := 100;
       Joiner.y := y |} in
  let y1 := round64 (4 # 10) in
  let y2 := round64 (404 # 10) in
  fsub y2 y1 = 40%Q
  ∧ (y2 - y1 < 40)%Q
  ∧ Joiner.aligned 40 120 (ph "MECH" y1) (ph "RM" y2) = false
  ∧ Joiner.room_text
      <$> Joiner.identify_multiline_room_names 40 120
            [ph "MECH" y1; ph "RM" y2]
    = ["MECH"; "RM"].
Proof. by vm_compute. Qed.

(** C7 (as amended).  The joiner takes the phrases in (x, y) order.  While
    the seed at position [i] collects its parts, the phrase at position [j]
    is consumed by it exactly when [j] comes after [i], the phrase is not
    consumed yet, the float difference of its x and the seed's x is less
    than [horizontal_threshold] in absolute value, the float difference of
    its y and the seed's y is more than 0 and less than
    [vertical_threshold], and its stripped text is not a code or its
    upper-cased text contains "RM"; the parts of the label are the seed
    followed by these phrases.  A code is what [is_room_code] accepts: a "T"
    followed by digits, dots among them left out, or digits, with dots,
    commas and spaces among them left out; so "T101", "T1.5", "1,000" and
    "12 34" are codes and "T1,000", "T 101", "T" and "A101" are not.  For
    "MECH" at (100, 200) and "RM" at (100, 215) with thresholds 40 and 120
    the result is the one label "MECH RM" of two parts. *)
Theorem C7_joiner (vertical_threshold horizontal_threshold : Q)
    (phrases : list Joiner.Phrase) (i : nat) (phrase1 : Joiner.Phrase)
    (used_phrases : gset nat) :
  let sorted_phrases := py_sorted Joiner.xy_ltb phrases in
  let st := Joiner.collect vertical_threshold horizontal_threshold i phrase1
              (enumerate sorted_phrases) used_phrases [phrase1] in
  (∀ j phrase2, sorted_phrases !! j = Some phrase2 →
     (j ∈ fst st ∧ j ∉ used_phrases)
     ↔ ((i < j)%nat ∧ (j ∉ used_phrases)
        ∧ (Qabs (fsub (Joiner.x phrase1) (Joiner.x phrase2))
           < horizontal_threshold)%Q
        ∧ (0 < fsub (Joiner.y phrase2) (Joiner.y phrase1))%Q
        ∧ (fsub (Joiner.y phrase2) (Joiner.y phrase1) < vertical_threshold)%Q
        ∧ (¬ Joiner.room_code (Py.strip (Joiner.text phrase2))
           ∨ Dedup.substring_of "RM" (Py.upper (Joiner.text phrase2)))))
  ∧ st.2 = phrase1
           :: (snd <$> filter (Joiner.joins vertical_threshold
                                 horizontal_threshold i phrase1 used_phrases)
                         (enumerate sorted_phrases))
  ∧ (∀ text, Joiner.is_room_code text = true
             ↔ Joiner.room_code (Py.strip text))
  ∧ (Joiner.is_room_code <$> ["T101"; "T1.5"; "1,000"; "12 34"]
     = [true; true; true; true]
     ∧ Joiner.is_room_code <$> ["T1,000"; "T 101"; "T"; "A101"]
       = [false; false; false; false])
  ∧ (let mech := {| Joiner.text := "MECH"; Joiner.confidence := 90;
                    Joiner.x := 100; Joiner.y := 200 |} in
     let rm := {| Joiner.text := "RM"; Joiner.confidence := 90;
                  Joiner.x := 100; Joiner.y := 215 |} in
     Joiner.is_room_code "RM" = false
     ∧ ∃ room, Joiner.identify_multiline_room_names 40 120 [mech; rm] = [room]
         ∧ Joiner.room_text room = "MECH RM" ∧ Joiner.parts room = 2%nat).
Proof.
  intros sorted_phrases st.
  destruct (collect_spec vertical_threshold horizontal_threshold i phrase1
              (enumerate sorted_phrases) used_phrases used_phrases [phrase1])
    as [Hparts Hmem]; [apply enumerate_NoDup|done|].
  split_and!.
  - intros j phrase2 Hj. subst st. rewrite Hmem. split.
    + intros [[?|(p & Hp & Hjoin)] Hnot]; [done|].
      apply enumerate_lookup in Hp. simplify_eq.
      destruct Hjoin as (? & ? & Hal & Hco). simpl in *.
      apply aligned_spec in Hal as (? & ? & ?).
      apply continuation_spec in Hco. by split_and!.
    + intros (Hlt & Hnot & Hx & Hy1 & Hy2 & Hco). split; [|done]. right.
      exists phrase2. split; [by apply enumerate_elem|].
      split_and!; simpl; [done|done| |by apply continuation_spec].
      by apply aligned_spec.
  - exact Hparts.
  - apply is_room_code_spec.
  - by vm_compute.
  - by vm_compute.
  - clear. split; [by vm_compute|]. eexists. vm_compute.
    split_and!; reflexivity.
Qed.

Lemma C7_joiner_witness :
  let mech := {| Joiner.text := "MECH"; Joiner.confidence := 90;
                 Joiner.x := 100; Joiner.y := 200 |} in
  let rm := {| Joiner.text := "RM"; Joiner.confidence := 90;
               Joiner.x := 100; Joiner.y := 215 |} in
  let st := Joiner.collect 40 120 0 mech
              (enumerate (py_sorted Joiner.xy_ltb [mech; rm])) {[0%nat]} [mech] in
  (1%nat ∈ fst st ∧ 1%nat ∉ ({[0%nat]} : gset nat)) ∧ snd st = [mech; rm].
Proof.
  intros mech rm st.
  destruct (C7_joiner 40 120 [mech; rm] 0 mech {[0%nat]}) as (H & _ & _).
  split; [|by vm_compute].
  apply (H 1%nat rm); [reflexivity|].
  split_and!; [lia|set_solver|by vm_compute|by vm_compute|by vm_compute|].
  right. by exists "", "".
Defined.

(** ** The classifier call *)

Section llm_facts.
Context (json_loads : string → LLM.loads).
Context (world : nat → LLM.response).

Lemma posts_app (t1 t2 : list LLM.event) :
  LLM.posts (t1 ++ t2) = (LLM.posts t1 + LLM.posts t2)%nat.
Proof. unfold LLM.posts. by rewrite omap_app, length_app. Qed.

Lemma sleeps_app (t1 t2 : list LLM.event) :
  LLM.sleeps (t1 ++ t2) = LLM.sleeps t1 ++ LLM.sleeps t2.
Proof. unfold LLM.sleeps. by rewrite omap_app. Qed.

(** When every remaining attempt fails with a request exception, the loop
    runs to its end: one request per attempt, a sleep of [retry_delay] after
    each attempt but the last, and the fallback as the result. *)
Lemma attempts_exhausted (config : LLM.LLMConfig) (text : string)
    (remaining : nat) : ∀ attempt trace,
  Z.of_nat (attempt + remaining) = LLM.max_retries config →
  (0 <= LLM.retry_delay config)%Q →
  (∀ k, (attempt ≤ k < attempt + remaining)%nat →
        ∃ message, world k = LLM.RequestException message) →
  let r := LLM.attempts json_loads world config text attempt remaining trace in
  r.1 = LLM.Ok (LLM.fallback text)
  ∧ LLM.posts r.2 = (LLM.posts trace + remaining)%nat
  ∧ LLM.sleeps r.2
    = LLM.sleeps trace ++ replicate (remaining - 1) (LLM.retry_delay config).
Proof.
  induction remaining as [|remaining IH]; intros attempt trace Hmax Hdelay Hfail.
  - simpl. split; [done|]. rewrite posts_app, sleeps_app.
    split; [done|]. by rewrite !app_nil_r.
  - simpl. destruct (Hfail attempt) as [message ->]; [lia|].
    apply Qle_bool_iff in Hdelay. rewrite Hdelay.
    destruct (Z.ltb_spec (Z.of_nat attempt) (LLM.max_retries config - 1))
      as [Hlt|Hge].
    + edestruct (IH (S attempt)) as (H1 & H2 & H3);
        [lia|by apply Qle_bool_iff| |].
      { intros k Hk. apply Hfail. lia. }
      split_and!; [exact H1| |].
      * rewrite H2, !posts_app. cbn. lia.
      * rewrite H3, !sleeps_app. cbn. rewrite <- app_assoc, app_nil_r.
        destruct remaining as [|remaining]; [lia|]. simpl.
        by rewrite Nat.sub_0_r.
    + assert (remaining = 0)%nat as -> by lia. simpl.
      split; [done|]. rewrite !posts_app, !sleeps_app. cbn.
      split; [lia|]. by rewrite !app_nil_r.
Qed.

(** No call sends more than [max_retries] requests. *)
Lemma attempts_bounded (config : LLM.LLMConfig) (text : string)
    (remaining : nat) : ∀ attempt trace,
  (LLM.posts (LLM.attempts json_loads world config text attempt remaining
                trace).2
   ≤ LLM.posts trace + remaining)%nat.
Proof.
  induction remaining as [|remaining IH]; intros attempt trace; simpl.
  - rewrite posts_app. cbn. lia.
  - destruct (world attempt) as [message|body].
    + destruct (_ <? _)%Z.
      * destruct (Qle_bool _ _).
        -- etrans; [apply IH|]. rewrite !posts_app. cbn. lia.
        -- simpl. rewrite posts_app. cbn. lia.
      * etrans; [apply IH|]. rewrite !posts_app. cbn. lia.
    + simpl. rewrite !posts_app. cbn.
      unfold LLM.parse_response.
      destruct (LLM.reply_content body) as [[| | |content| |]|]; cbn; try lia.
      destruct (json_loads content); cbn; lia.
Qed.

Lemma query_llm_exhausted (config : LLM.LLMConfig) (text : string) :
  (0 <= LLM.retry_delay config)%Q →
  (∀ k, (Z.of_nat k < LLM.max_retries config)%Z →
        ∃ message, world k = LLM.RequestException message) →
  let r := LLM.query_llm json_loads world config text in
  r.1 = LLM.Ok (LLM.fallback text)
  ∧ LLM.posts r.2 = Z.to_nat (LLM.max_retries config)
  ∧ LLM.sleeps r.2
    = replicate (Z.to_nat (LLM.max_retries config) - 1) (LLM.retry_delay config).
Proof.
  intros Hdelay Hfail. unfold LLM.query_llm.
  destruct (Z.le_gt_cases 0 (LLM.max_retries config)) as [Hpos|Hneg].
  - apply (attempts_exhausted config text _ 0 []); [lia|done|].
    intros k Hk. apply Hfail. lia.
  - replace (Z.to_nat (LLM.max_retries config)) with 0%nat by lia. done.
Qed.

(** No call sends more than [max_retries] requests. *)
Theorem query_llm_bounded (config : LLM.LLMConfig) (text : string) :
  (LLM.posts (LLM.query_llm json_loads world config text).2
   ≤ Z.to_nat (LLM.max_retries config))%nat.
Proof. apply (attempts_bounded config text _ 0 []). Qed.

(** A first reply whose content is a string ends the call after that one
    request.  Content for which [json.loads] raises JSONDecodeError gives the
    fallback; another exception of [json.loads] is not caught and leaves
    [query_llm]; a decoded object gives its SignType and FullMessage, with
    UNKNOWN and the text as defaults; for any other decoded value [.get]
    raises AttributeError. *)
Theorem query_llm_reply (config : LLM.LLMConfig) (text : string)
    (body : LLM.json) (content : string) :
  (0 < LLM.max_retries config)%Z →
  world 0%nat = LLM.Body body →
  LLM.reply_content body = LLM.Ok (LLM.JStr content) →
  let r := LLM.query_llm json_loads world config text in
  LLM.posts r.2 = 1%nat
  ∧ match json_loads content with
    | LLM.JSONDecodeError => r.1 = LLM.Ok (LLM.fallback text)
    | LLM.LoadsRaises e => r.1 = LLM.Raise e
    | LLM.Loaded (LLM.JObj fields) =>
        r.1 = LLM.Ok
                {| LLM.SignType :=
                     default (LLM.JStr "UNKNOWN") (LLM.assoc "SignType" fields);
                   LLM.FullMessage :=
                     default (LLM.JStr text) (LLM.assoc "FullMessage" fields) |}
    | LLM.Loaded _ => r.1 = LLM.Raise LLM.AttributeError
    end.
Proof.
  intros Hmax Hworld Hcontent r. subst r. unfold LLM.query_llm.
  destruct (Z.to_nat (LLM.max_retries config)) as [|n] eqn:Hn; [lia|].
  simpl. rewrite Hworld. unfold LLM.parse_response. rewrite Hcontent.
  destruct (json_loads content) as [[]| |]; by cbn.
Qed.

End llm_facts.

Lemma query_llm_exhausted_witness :
  let config := {| LLM.api_url := "u"; LLM.api_key := "k";
                   LLM.model_name := "gpt-4"; LLM.max_retries := 3;
                   LLM.retry_delay := 2 |} in
  let r := LLM.query_llm (λ _, LLM.JSONDecodeError)
             (λ _, LLM.RequestException "timeout") config "EXIT" in
  r.1 = LLM.Ok (LLM.fallback "EXIT") ∧ LLM.posts r.2 = 3%nat
  ∧ LLM.sleeps r.2 = [2%Q; 2%Q].
Proof.
  intros config r.
  apply (query_llm_exhausted (λ _, LLM.JSONDecodeError)
           (λ _, LLM.RequestException "timeout") config "EXIT").
  - by vm_compute.
  - intros k _. by eexists.
Defined.

Lemma query_llm_reply_witness :
  let config := {| LLM.api_url := "u"; LLM.api_key := "k";
                   LLM.model_name := "gpt-4"; LLM.max_retries := 3;
                   LLM.retry_delay := 2 |} in
  let reply (content : string) :=
    LLM.JObj [("choices",
               LLM.JArr [LLM.JObj [("message",
                                    LLM.JObj [("content",
                                               LLM.JStr content)])]])] in
  let loads (s : string) :=
    if String.eqb s "{}" then LLM.Loaded (LLM.JObj [])
    else LLM.JSONDecodeError in
  (LLM.query_llm loads (λ _, LLM.Body (reply "Exit")) config "EXIT").1
  = LLM.Ok (LLM.fallback "EXIT")
  ∧ (LLM.query_llm loads (λ _, LLM.Body (reply "{}")) config "EXIT").1
    = LLM.Ok
        {| LLM.SignType := LLM.JStr "UNKNOWN";
           LLM.FullMessage := LLM.JStr "EXIT" |}.
Proof.
  intros config reply loads. split.
  - by destruct (query_llm_reply loads (λ _, LLM.Body (reply "Exit")) config
                   "EXIT" (reply "Exit") "Exit") as [_ H].
  - by destruct (query_llm_reply loads (λ _, LLM.Body (reply "{}")) config
                   "EXIT" (reply "{}") "{}") as [_ H].
Defined.


(** C9: a call that raises.  The service answers the first request with a
    well-formed reply whose message content is null (or whose list of choices
    is empty, or whose content is JSON that is not an object): the exception
    is none that [query_llm] catches. *)
Lemma C9_query_llm_raises :
  let config := {| LLM.api_url := "https://api.openai.com/v1/chat/completions";
                   LLM.api_key := "key"; LLM.model_name := "gpt-4";
                   LLM.max_retries := 3; LLM.retry_delay := 2 |} in
  let null_content :=
    LLM.JObj [("choices",
               LLM.JArr [LLM.JObj [("message",
                                    LLM.JObj [("role", LLM.JStr "assistant");
                                              ("content", LLM.JNull)])]])] in
  let no_choices := LLM.JObj [("choices", LLM.JArr [])] in
  let list_content :=
    LLM.JObj [("choices",
               LLM.JArr [LLM.JObj [("message",
                                    LLM.JObj [("content", LLM.JStr "[]")])]])] in
  let loads (s : string) :=
    if String.eqb s "[]" then LLM.Loaded (LLM.JArr [])
    else LLM.JSONDecodeError in
  LLM.query_llm loads (λ _, LLM.Body null_content) config "EXIT"
    = (LLM.Raise LLM.TypeError, [LLM.Post 0])
  ∧ LLM.query_llm loads (λ _, LLM.Body no_choices) config "EXIT"
    = (LLM.Raise LLM.IndexError, [LLM.Post 0])
  ∧ LLM.query_llm loads (λ _, LLM.Body list_content) config "EXIT"
    = (LLM.Raise LLM.AttributeError, [LLM.Post 0]).
Proof. by vm_compute. Qed.

(** * More of the scripts *)

(** ** The scan grids *)

Section grid_facts.
Context (W H : Q).

Local Abbreviation nQ n := (inject_Z (Z.of_nat n)).

Lemma nQ_S (n : nat) : (nQ (S n) == nQ n + 1)%Q.
Proof. rewrite Nat2Z.inj_succ. unfold Z.succ. rewrite inject_Z_plus. reflexivity. Qed.

Lemma cols_loop_spec (G step : Q) (row : nat) (y : Q) (fuel : nat) :
  ∀ x col regions out,
    Grid.cols_loop W H fuel G step row y x col regions = Some out →
    ∃ new, out = regions ++ new
      ∧ Forall (in_row W H G step row y x col) new
      ∧ ∀ k, (x + nQ k * step < W)%Q →
          (20 < Qmin G (W - (x + nQ k * step)))%Q →
          (20 < Qmin G (H - y))%Q →
          (0 <= step)%Q →
          ∃ r, r ∈ new ∧ Grid.col r = (col + k)%nat.
Proof.
  induction fuel as [|fuel IH]; intros x col regions out; simpl; [done|].
  destruct (Qltb x W) eqn:Hx.
  - apply Qltb_lt in Hx.
    set (w := Qmin G (W - x)). set (h := Qmin G (H - y)).
    set (r0 := {| Grid.row := row; Grid.col := col; Grid.x := x; Grid.y := y;
                  Grid.width := w; Grid.height := h |}).
    intros Hrec. apply IH in Hrec as (new & -> & Hall & Hcov).
    assert (Hshift : Forall (in_row W H G step row y x col) new).
    { eapply Forall_impl; [exact Hall|].
      intros r (H1 & H2 & H3 & H4 & H5 & H6 & H7 & H8 & H9).
      repeat split; try done; [lia|].
      rewrite H4. replace (Grid.col r - col)%nat with (S (Grid.col r - S col)) by lia.
      rewrite nQ_S. ring. }
    destruct (Qltb 20 w && Qltb 20 h) eqn:Hkeep.
    + apply andb_prop in Hkeep as [Hw Hh].
      apply Qltb_lt in Hw, Hh.
      exists (r0 :: new). split; [by rewrite <- app_assoc|]. split.
      * constructor; [|done].
        repeat split; simpl; try done.
        replace (col - col)%nat with 0%nat by lia. simpl. ring.
      * intros [|k] Hk Hkw Hkh Hstep.
        -- exists r0. split; [left|simpl; lia].
        -- destruct (Hcov k) as (r & Hr & Hc); try done.
           ++ rewrite nQ_S in Hk. lra.
           ++ assert (Qmin G (W - (x + nQ (S k) * step))
                      == Qmin G (W - (x + step + nQ k * step)))%Q as HE.
              { apply Q.min_compat; [reflexivity|]. rewrite nQ_S. ring. }
              lra.
           ++ exists r. split; [by right|lia].
    + exists new. split; [done|]. split; [done|].
      intros [|k] Hk Hkw Hkh Hstep.
      * exfalso. apply andb_false_iff in Hkeep as [Hf|Hf]; apply Qltb_ge in Hf.
        -- assert (Qmin G (W - (x + nQ 0 * step)) == w)%Q.
           { apply Q.min_compat; [reflexivity|]. simpl. ring. }
           lra.
        -- fold h in Hkh. lra.
      * destruct (Hcov k) as (r & Hr & Hc); try done.
        -- rewrite nQ_S in Hk. lra.
        -- assert (Qmin G (W - (x + nQ (S k) * step))
                   == Qmin G (W - (x + step + nQ k * step)))%Q as HE.
           { apply Q.min_compat; [reflexivity|]. rewrite nQ_S. ring. }
           lra.
        -- exists r. split; [done|lia].
  - intros [= <-]. exists []. split; [by rewrite app_nil_r|]. split; [done|].
    intros k Hk _ _ Hstep. apply Qltb_ge in Hx.
    assert (0 <= nQ k)%Q. { change 0%Q with (inject_Z 0). rewrite <- Zle_Qle. lia. }
    assert (0 <= nQ k * step)%Q by (apply Qmult_le_0_compat; done).
    lra.
Qed.


Lemma rows_loop_spec (G step ox : Q) (fuel : nat) (fuel_rows : nat) :
  ∀ y row regions out,
    Grid.rows_loop W H fuel_rows fuel G step ox y row regions = Some out →
    ∃ new, out = regions ++ new
      ∧ Forall (in_grid W H G step ox y row) new
      ∧ ∀ j k, (y + nQ j * step < H)%Q → (ox + nQ k * step < W)%Q →
          (20 < Qmin G (W - (ox + nQ k * step)))%Q →
          (20 < Qmin G (H - (y + nQ j * step)))%Q →
          (0 <= step)%Q →
          ∃ r, r ∈ new ∧ Grid.row r = (row + j)%nat ∧ Grid.col r = k.
Proof.
  induction fuel_rows as [|fuel_rows IH]; intros y row regions out; simpl;
    [done|].
  destruct (Qltb y H) eqn:Hy.
  - apply Qltb_lt in Hy.
    destruct (Grid.cols_loop W H fuel G step row y ox 0 regions) as [mid|]
      eqn:Hcols; simpl; [|done].
    apply cols_loop_spec in Hcols as (new1 & -> & Hall1 & Hcov1).
    intros Hrec. apply IH in Hrec as (new2 & -> & Hall2 & Hcov2).
    exists (new1 ++ new2). split; [by rewrite <- app_assoc|]. split.
    + apply Forall_app. split.
      * eapply Forall_impl; [exact Hall1|].
        intros r (H1 & H2 & H3 & H4 & H5 & H6 & H7 & H8 & H9).
        replace (Grid.col r - 0)%nat with (Grid.col r) in H4 by lia.
        unfold in_grid. rewrite H3 in *. rewrite H1.
        replace (row - row)%nat with 0%nat by lia.
        split_and!; try done. simpl. ring.
      * eapply Forall_impl; [exact Hall2|].
        intros r (H1 & H2 & H3 & H4 & H5 & H6 & H7 & H8 & H9).
        repeat split; try done; [lia|].
        rewrite H2. replace (Grid.row r - row)%nat
          with (S (Grid.row r - S row)) by lia.
        rewrite nQ_S. ring.
    + intros [|j] k Hj Hk Hkw Hjh Hstep.
      * destruct (Hcov1 k) as (r & Hr & Hc); try done.
        -- assert (Qmin G (H - (y + nQ 0 * step)) == Qmin G (H - y))%Q as HE.
           { apply Q.min_compat; [reflexivity|]. simpl. ring. }
           lra.
        -- exists r. split; [apply elem_of_app; by left|].
           rewrite Forall_forall in Hall1. destruct (Hall1 r Hr) as (H1 & _).
           split; [lia|done].
      * destruct (Hcov2 j k) as (r & Hr & H1 & H2); try done.
        -- rewrite nQ_S in Hj. lra.
        -- assert (Qmin G (H - (y + nQ (S j) * step))
                   == Qmin G (H - (y + step + nQ j * step)))%Q as HE.
           { apply Q.min_compat; [reflexivity|]. rewrite nQ_S. ring. }
           lra.
        -- exists r. split; [apply elem_of_app; by right|]. split; [lia|done].
  - intros [= <-]. exists []. split; [by rewrite app_nil_r|]. split; [done|].
    intros j k Hj _ _ _ Hstep. apply Qltb_ge in Hy.
    assert (0 <= nQ j)%Q. { change 0%Q with (inject_Z 0). rewrite <- Zle_Qle. lia. }
    assert (0 <= nQ j * step)%Q by (apply Qmult_le_0_compat; done).
    lra.
Qed.

(** Termination: the loops stop once the fuel covers the distance left. *)
Lemma cols_loop_fuel (G step : Q) (row : nat) (y : Q) (fuel : nat) :
  ∀ x col regions, (0 < step)%Q → (W - x <= nQ fuel * step)%Q →
    ∃ out, ∀ extra,
      Grid.cols_loop W H (S fuel + extra) G step row y x col regions = Some out.
Proof.
  induction fuel as [|fuel IH]; intros x col regions Hstep Hfuel.
  - exists regions. intros extra. simpl.
    destruct (Qltb x W) eqn:Hx; [|done].
    apply Qltb_lt in Hx. change (nQ 0) with 0%Q in Hfuel. lra.
  - rewrite nQ_S in Hfuel.
    destruct (Qltb x W) eqn:Hx.
    + set (regions' :=
        if Qltb 20 (Qmin G (W - x)) && Qltb 20 (Qmin G (H - y))
        then regions ++ [{| Grid.row := row; Grid.col := col; Grid.x := x;
                            Grid.y := y; Grid.width := Qmin G (W - x);
                            Grid.height := Qmin G (H - y) |}]
        else regions).
      destruct (IH (x + step)%Q (S col) regions' Hstep) as (out & Hout);
        [lra|].
      exists out. intros extra.
      change (Grid.cols_loop W H (S (S fuel) + extra) G step row y x col regions)
        with (if Qltb x W
              then Grid.cols_loop W H (S fuel + extra) G step row y
                     (x + step) (S col) regions'
              else Some regions).
      rewrite Hx. apply Hout.
    + exists regions. intros extra. simpl. by rewrite Hx.
Qed.

Lemma rows_loop_fuel (G step ox : Q) (fuel : nat) (fuel_rows : nat) :
  ∀ y row regions, (0 < step)%Q → (W - ox <= nQ fuel * step)%Q →
    (H - y <= nQ fuel_rows * step)%Q →
    ∃ out, ∀ extra extra',
      Grid.rows_loop W H (S fuel_rows + extra) (S fuel + extra') G step ox
        y row regions = Some out.
Proof.
  induction fuel_rows as [|fuel_rows IH]; intros y row regions Hstep Hx Hy.
  - exists regions. intros extra extra'. simpl.
    destruct (Qltb y H) eqn:Hlt; [|done].
    apply Qltb_lt in Hlt. change (nQ 0) with 0%Q in Hy. lra.
  - rewrite nQ_S in Hy.
    destruct (Qltb y H) eqn:Hlt.
    + destruct (cols_loop_fuel G step row y fuel ox 0%nat regions Hstep Hx)
        as (mid & Hmid).
      destruct (IH (y + step)%Q (S row) mid Hstep Hx) as (out & Hout); [lra|].
      exists out. intros extra extra'.
      change (Grid.rows_loop W H (S (S fuel_rows) + extra) (S fuel + extra')
                G step ox y row regions)
        with (if Qltb y H
              then regions ← Grid.cols_loop W H (S fuel + extra') G step row y
                               ox 0 regions;
                   Grid.rows_loop W H (S fuel_rows + extra) (S fuel + extra')
                     G step ox (y + step) (S row) regions
              else Some regions).
      rewrite Hlt, Hmid. simpl. apply Hout.
    + exists regions. intros extra extra'. simpl. by rewrite Hlt.
Qed.

Lemma archimedes (a step : Q) :
  (0 < step)%Q → ∃ n : nat, (a <= nQ n * step)%Q.
Proof.
  intros Hstep. exists (Z.to_nat (Qceiling (a / step))).
  assert (a / step <= nQ (Z.to_nat (Qceiling (a / step))))%Q as Hle.
  { eapply Qle_trans; [apply Qle_ceiling|].
    rewrite <- Zle_Qle. lia. }
  apply (Qmult_le_compat_r _ _ step) in Hle; [|lra].
  assert (a / step * step == a)%Q as HE by (field; lra).
  lra.
Qed.

Lemma scan_total (ox oy G o : Q) :
  (o < G)%Q →
  ∃ N regions, ∀ fuel, (N ≤ fuel)%nat →
    Grid.scan_with_offset_grid W H fuel ox oy G o = Some regions.
Proof.
  intros Hstep.
  destruct (archimedes (W - ox) (G - o)) as (n1 & Hn1); [lra|].
  destruct (archimedes (H - oy) (G - o)) as (n2 & Hn2); [lra|].
  assert (∀ n m : nat, (n ≤ m)%nat → (nQ n * (G - o) <= nQ m * (G - o))%Q)
    as Hmono.
  { intros n m Hnm. apply Qmult_le_compat_r; [|lra].
    rewrite <- Zle_Qle. lia. }
  set (n := (n1 `max` n2)%nat).
  destruct (rows_loop_fuel G (G - o) ox n n oy 0%nat []) as (out & Hout).
  - lra.
  - pose proof (Hmono n1 n ltac:(lia)). lra.
  - pose proof (Hmono n2 n ltac:(lia)). lra.
  - exists (S n), out. intros fuel Hfuel. unfold Grid.scan_with_offset_grid.
    replace fuel with (S n + (fuel - S n))%nat by lia. apply Hout.
Qed.

End grid_facts.

(** With an overlap smaller than the cell size the two loops finish: every
    large enough fuel gives the same list of regions.  Each region is at its
    place in the grid, is more than 20 and at most [grid_size] wide and
    high, and lies inside the page. *)
Theorem scan_regions_in_page (W H ox oy G o : Q) :
  (o < G)%Q →
  ∃ N regions,
    (∀ fuel, (N ≤ fuel)%nat →
       Grid.scan_with_offset_grid W H fuel ox oy G o = Some regions)
    ∧ Forall (region_in_page W H ox oy G o) regions.
Proof.
  intros Hstep. destruct (scan_total W H ox oy G o Hstep) as (N & regions & HN).
  exists N, regions. split; [done|].
  pose proof (HN N (le_n N)) as Hrun. unfold Grid.scan_with_offset_grid in Hrun.
  apply rows_loop_spec in Hrun as (new & -> & Hall & _). simpl.
  eapply Forall_impl; [exact Hall|].
  intros r (H1 & H2 & H3 & H4 & H5 & H6 & H7 & H8 & H9).
  replace (Grid.row r - 0)%nat with (Grid.row r) in H2 by lia.
  pose proof (Q.le_min_l G (W - Grid.x r)).
  pose proof (Q.le_min_r G (W - Grid.x r)).
  pose proof (Q.le_min_l G (H - Grid.y r)).
  pose proof (Q.le_min_r G (H - Grid.y r)).
  unfold region_in_page. rewrite H6, H7 in *. split_and!; try done; lra.
Qed.

Lemma scan_regions_in_page_witness :
  ∃ N regions,
    (∀ fuel, (N ≤ fuel)%nat →
       Grid.scan_with_offset_grid 612 792 fuel 0 0 300 50 = Some regions)
    ∧ Forall (region_in_page 612 792 0 0 300 50) regions.
Proof. apply scan_regions_in_page. reflexivity. Defined.

Lemma cover_1d (W ox G o px : Q) :
  (20 <= o)%Q → (20 <= G - o)%Q → (20 < W - ox)%Q → (ox <= px < W)%Q →
  ∃ k : nat,
    let xk := (ox + inject_Z (Z.of_nat k) * (G - o))%Q in
    (xk < W)%Q ∧ (20 < Qmin G (W - xk))%Q
    ∧ (xk <= px < xk + Qmin G (W - xk))%Q.
Proof.
  intros Ho Hs HW [Hpx1 Hpx2].
  set (step := (G - o)%Q) in *.
  assert (step == G - o)%Q as Hstep by reflexivity.
  set (q := ((px - ox) / step)%Q).
  assert (0 <= q)%Q as Hq0.
  { unfold q. apply Qle_shift_div_l; lra. }
  assert (q * step == px - ox)%Q as Hq by (unfold q; field; lra).
  set (kz := Qfloor q).
  assert (0 <= kz)%Z as Hkz.
  { unfold kz. change 0%Z with (Qfloor 0). by apply Qfloor_resp_le. }
  pose proof (Qfloor_le q) as Hfl. pose proof (Qlt_floor q) as Hfu.
  fold kz in Hfl, Hfu. rewrite inject_Z_plus in Hfu.
  change (inject_Z 1) with 1%Q in Hfu.
  set (k := Z.to_nat kz).
  assert (inject_Z (Z.of_nat k) = inject_Z kz) as Hk.
  { unfold k. by rewrite Z2Nat.id. }
  assert (ox + inject_Z kz * step <= px)%Q as Hlo by nra.
  assert (px < ox + inject_Z kz * step + step)%Q as Hhi by nra.
  destruct (Qlt_le_dec 20 (W - (ox + inject_Z kz * step))) as [Hwide|Hnarrow].
  - exists k. simpl. rewrite Hk.
    destruct (Q.min_spec G (W - (ox + inject_Z kz * step))) as [[? HE]|[? HE]];
      rewrite HE; split_and!; lra.
  - assert (1 <= kz)%Z as Hk1.
    { destruct (Z.eq_dec kz 0%Z) as [E|]; [|lia].
      rewrite E in Hnarrow. change (inject_Z 0) with 0%Q in Hnarrow. lra. }
    exists (Z.to_nat (kz - 1)). simpl. rewrite Z2Nat.id by lia.
    replace (kz - 1)%Z with (kz + -1)%Z by lia.
    rewrite inject_Z_plus. change (inject_Z (-1)) with (-1 # 1)%Q.
    destruct (Q.min_spec G (W - (ox + (inject_Z kz + (-1 # 1)) * step)))
      as [[? HE]|[? HE]]; rewrite HE; split_and!; lra.
Qed.

(** With an overlap of at least 20, a step of at least 20, and a page that
    reaches more than 20 beyond the offsets, the regions cover the page from
    the offsets on: every point of the page at or beyond both offsets is
    inside some region. *)
Theorem scan_covers_page (W H ox oy G o : Q) :
  (20 <= o)%Q → (20 <= G - o)%Q → (20 < W - ox)%Q → (20 < H - oy)%Q →
  ∃ N regions,
    (∀ fuel, (N ≤ fuel)%nat →
       Grid.scan_with_offset_grid W H fuel ox oy G o = Some regions)
    ∧ ∀ px py, (ox <= px < W)%Q → (oy <= py < H)%Q →
        ∃ r, r ∈ regions ∧ covers r px py.
Proof.
  intros Ho Hs HW HH.
  destruct (scan_total W H ox oy G o) as (N & regions & HN); [lra|].
  exists N, regions. split; [done|].
  pose proof (HN N (le_n N)) as Hrun. unfold Grid.scan_with_offset_grid in Hrun.
  apply rows_loop_spec in Hrun as (new & -> & Hall & Hcov). simpl.
  intros px py Hpx Hpy.
  destruct (cover_1d W ox G o px Ho Hs HW Hpx) as (k & Hk1 & Hk2 & Hk3).
  destruct (cover_1d H oy G o py Ho Hs HH Hpy) as (j & Hj1 & Hj2 & Hj3).
  simpl in *.
  destruct (Hcov j k) as (r & Hr & Hrow & Hcol); try done; [lra|].
  exists r. split; [done|].
  rewrite Forall_forall in Hall.
  destruct (Hall r Hr) as (H1 & H2 & H3 & H4 & H5 & H6 & H7 & H8 & H9).
  rewrite Hrow, Hcol in *. replace (j - 0)%nat with j in H2 by lia.
  assert (Qmin G (W - Grid.x r)
          == Qmin G (W - (ox + inject_Z (Z.of_nat k) * (G - o))))%Q as HEw.
  { apply Q.min_compat; [reflexivity|]. rewrite H4. reflexivity. }
  assert (Qmin G (H - Grid.y r)
          == Qmin G (H - (oy + inject_Z (Z.of_nat j) * (G - o))))%Q as HEh.
  { apply Q.min_compat; [reflexivity|]. rewrite H2. reflexivity. }
  unfold covers. rewrite H6, H7. split; lra.
Qed.

Lemma scan_covers_page_witness :
  ∃ N regions,
    (∀ fuel, (N ≤ fuel)%nat →
       Grid.scan_with_offset_grid 612 792 fuel 75 75 300 50 = Some regions)
    ∧ ∀ px py, (75 <= px < 612)%Q → (75 <= py < 792)%Q →
        ∃ r, r ∈ regions ∧ covers r px py.
Proof. apply scan_covers_page; lra. Defined.

Lemma cols_loop_diverges (W H G step : Q) (row : nat) (y : Q) (fuel : nat) :
  ∀ x col regions, (step <= 0)%Q → (x < W)%Q →
    Grid.cols_loop W H fuel G step row y x col regions = None.
Proof.
  induction fuel as [|fuel IH]; intros x col regions Hstep Hx; simpl; [done|].
  destruct (Qltb x W) eqn:Hlt; [|apply Qltb_ge in Hlt; lra].
  apply IH; [done|lra].
Qed.

(** With an overlap that is not smaller than the cell size the step is not
    positive, and the loops never finish when the page reaches below the
    vertical offset: no fuel gives a result. *)
Theorem scan_diverges (W H ox oy G o : Q) (fuel : nat) :
  (G <= o)%Q → (oy < H)%Q →
  Grid.scan_with_offset_grid W H fuel ox oy G o = None.
Proof.
  intros Hstep Hy. unfold Grid.scan_with_offset_grid.
  assert (G - o <= 0)%Q as Hs by lra. revert Hs. generalize (G - o)%Q as step.
  intros step Hs.
  generalize fuel at 2 as f. generalize 0%nat as row, (@nil Grid.Region) as regions.
  revert Hy. generalize oy as y.
  induction fuel as [|fuel IH]; intros y Hy row regions f; simpl; [done|].
  destruct (Qltb y H) eqn:Hlt; [|apply Qltb_ge in Hlt; lra].
  destruct (Grid.cols_loop W H f G step row y ox 0 regions); simpl; [|done].
  apply IH. lra.
Qed.

Lemma scan_diverges_witness :
  Grid.scan_with_offset_grid 612 792 1000 0 0 50 50 = None.
Proof. apply scan_diverges; [lra|reflexivity]. Defined.

(** The grid of region_ocr.py stays inside the page, but its number of
    columns and rows is fixed beforehand: no region reaches beyond
    [cols * step + overlap] (and likewise for the rows), so a point of the
    page at or beyond that bound, if there is one, is in no region. *)
Theorem grid_scan_pdf_reach (W H G o : Q) :
  (o < G)%Q →
  let step := (G - o)%Q in
  let cols := py_int ((W + o) / step) in
  let rows := py_int ((H + o) / step) in
  ∃ regions, RegionOcr.grid_scan_pdf W H G o = Some regions
    ∧ Forall (λ r, (0 <= Grid.x r)%Q ∧ (0 <= Grid.y r)%Q
                   ∧ (20 < Grid.width r <= G)%Q ∧ (20 < Grid.height r <= G)%Q
                   ∧ (Grid.x r + Grid.width r <= W)%Q
                   ∧ (Grid.y r + Grid.height r <= H)%Q
                   ∧ (Grid.x r + Grid.width r <= inject_Z cols * step + o)%Q
                   ∧ (Grid.y r + Grid.height r <= inject_Z rows * step + o)%Q)
        regions
    ∧ ∀ px py r, r ∈ regions → covers r px py →
        (px < inject_Z cols * step + o)%Q ∧ (py < inject_Z rows * step + o)%Q.
Proof.
  intros Hstep step cols rows.
  unfold RegionOcr.grid_scan_pdf. fold step.
  assert (Qeq_bool step 0 = false) as ->.
  { apply not_true_is_false. intros E. apply Qeq_bool_iff in E.
    unfold step in E. lra. }
  fold cols rows. eexists. split; [done|].
  assert (∀ r, r ∈ (row ← seq 0 (Z.to_nat rows);
                    col ← seq 0 (Z.to_nat cols);
                    RegionOcr.cell W H G step row col) →
            (0 <= Grid.x r)%Q ∧ (0 <= Grid.y r)%Q
            ∧ (20 < Grid.width r <= G)%Q ∧ (20 < Grid.height r <= G)%Q
            ∧ (Grid.x r + Grid.width r <= W)%Q
            ∧ (Grid.y r + Grid.height r <= H)%Q
            ∧ (Grid.x r + Grid.width r <= inject_Z cols * step + o)%Q
            ∧ (Grid.y r + Grid.height r <= inject_Z rows * step + o)%Q)
    as Hall.
  { intros r Hr.
    apply list_elem_of_bind in Hr as (row & Hr & Hrow).
    apply list_elem_of_bind in Hr as (col & Hr & Hcol).
    apply elem_of_seq in Hrow, Hcol. unfold RegionOcr.cell in Hr.
    destruct (Qltb 20 _ && Qltb 20 _) eqn:Hkeep;
      [|by apply elem_of_nil in Hr].
    apply list_elem_of_singleton in Hr as ->. simpl.
    apply andb_prop in Hkeep as [Hw Hh]. apply Qltb_lt in Hw, Hh.
    set (x := (inject_Z (Z.of_nat col) * step)%Q) in *.
    set (y := (inject_Z (Z.of_nat row) * step)%Q) in *.
    pose proof (Q.le_min_l G (W - x)). pose proof (Q.le_min_r G (W - x)).
    pose proof (Q.le_min_l G (H - y)). pose proof (Q.le_min_r G (H - y)).
    assert (0 < step)%Q as Hs by (unfold step; lra).
    assert (step == G - o)%Q as Hse by reflexivity.
    assert (∀ (n : nat) (m : Z), (0 + n < 0 + Z.to_nat m)%nat →
              (0 <= inject_Z (Z.of_nat n) * step)%Q
              ∧ (inject_Z (Z.of_nat n) * step + step
                 <= inject_Z m * step)%Q) as Hidx.
    { intros n m Hn.
      assert (0 <= inject_Z (Z.of_nat n))%Q.
      { change 0%Q with (inject_Z 0). rewrite <- Zle_Qle. lia. }
      assert (inject_Z (Z.of_nat n) + 1 <= inject_Z m)%Q.
      { change 1%Q with (inject_Z 1). rewrite <- inject_Z_plus, <- Zle_Qle.
        lia. }
      split; nra. }
    destruct (Hidx col cols) as [? ?]; [lia|].
    destruct (Hidx row rows) as [? ?]; [lia|].
    fold x y in H4, H5, H6, H7.
    split_and!; lra. }
  split.
  - apply Forall_forall. exact Hall.
  - intros px py r Hr [[? ?] [? ?]].
    destruct (Hall r Hr) as (? & ? & ? & ? & ? & ? & ? & ?). split; lra.
Qed.

Lemma grid_scan_pdf_reach_witness :
  ∃ regions, RegionOcr.grid_scan_pdf 1060 792 300 50 = Some regions
    ∧ ∀ r, r ∈ regions → ¬ covers r 1055 100.
Proof.
  destruct (grid_scan_pdf_reach 1060 792 300 50) as (regions & Hrun & _ & Hreach);
    [reflexivity|].
  exists regions. split; [exact Hrun|].
  intros r Hr Hcov. destruct (Hreach 1055%Q 100%Q r Hr Hcov) as [Hx _].
  vm_compute in Hx. discriminate.
Defined.

(** ** The position-key reducer *)

Lemma py_round_same_cell (a b t : Q) :
  (0 < t)%Q → py_round (a / t) = py_round (b / t) → (Qabs (a - b) <= t)%Q.
Proof.
  intros Ht E.
  pose proof (py_round_near (a / t)) as Ha.
  pose proof (py_round_near (b / t)) as Hb.
  rewrite E in Ha.
  apply Qabs_Qle_condition in Ha, Hb. apply Qabs_Qle_condition.
  assert (a / t * t == a)%Q as Ea by (field; lra).
  assert (b / t * t == b)%Q as Eb by (field; lra).
  set (A := (a / t)%Q) in *. set (B := (b / t)%Q) in *.
  set (z := inject_Z (py_round B)) in *.
  split; nra.
Qed.

Section dict_facts.
Context {K V : Type} `{EqDecision K}.

Lemma dict_get_set (k k' : K) (v : V) (d : list (K * V)) :
  dict_get k' (dict_set k v d)
  = if decide (k = k') then Some v else dict_get k' d.
Proof.
  induction d as [|[k0 v0] d IH]; simpl.
  - destruct (decide (k = k')); done.
  - destruct (decide (k0 = k)) as [->|Hne]; simpl.
    + destruct (decide (k = k')); done.
    + destruct (decide (k0 = k')) as [->|Hne'].
      * by rewrite decide_False.
      * done.
Qed.

Lemma dict_set_keys_new (k : K) (v : V) (d : list (K * V)) :
  dict_get k d = None → dict_set k v d = d ++ [(k, v)].
Proof.
  induction d as [|[k0 v0] d IH]; simpl; [done|].
  destruct (decide (k0 = k)); [done|]. intros Hd. by rewrite IH.
Qed.

Lemma dict_set_keys_old (k : K) (v : V) (d : list (K * V)) :
  is_Some (dict_get k d) → (dict_set k v d).*1 = d.*1.
Proof.
  induction d as [|[k0 v0] d IH]; simpl; [by intros [? ?]|].
  destruct (decide (k0 = k)) as [->|]; [done|].
  intros Hd. csimpl. by rewrite IH.
Qed.

Lemma dict_get_None (k : K) (d : list (K * V)) :
  dict_get k d = None ↔ k ∉ d.*1.
Proof.
  induction d as [|[k0 v0] d IH]; csimpl.
  - split; [intros _; apply not_elem_of_nil|done].
  - destruct (decide (k0 = k)) as [->|Hne].
    + split; [done|]. intros Hn. exfalso. apply Hn. left.
    + rewrite IH. rewrite not_elem_of_cons. naive_solver.
Qed.

Lemma dict_get_Some (k : K) (v : V) (d : list (K * V)) :
  NoDup d.*1 → dict_get k d = Some v ↔ (k, v) ∈ d.
Proof.
  induction d as [|[k0 v0] d IH]; csimpl; intros Hnd.
  - split; [done|]. intros Hin. by apply elem_of_nil in Hin.
  - apply NoDup_cons in Hnd as [Hk0 Hnd].
    destruct (decide (k0 = k)) as [->|Hne].
    + split.
      * intros [= ->]. left.
      * intros Hin. apply elem_of_cons in Hin as [[= ->]|Hin]; [done|].
        exfalso. apply Hk0. apply list_elem_of_fmap. by exists (k, v).
    + rewrite IH by done. rewrite elem_of_cons. naive_solver.
Qed.

Lemma dict_set_elem (k : K) (v : V) (d : list (K * V)) (e : K * V) :
  NoDup d.*1 →
  e ∈ dict_set k v d ↔ e = (k, v) ∨ (e ∈ d ∧ e.1 ≠ k).
Proof.
  induction d as [|[k0 v0] d IH]; csimpl; intros Hnd.
  - rewrite list_elem_of_singleton. split; [by left|].
    intros [->|[Hin _]]; [done|]. by apply elem_of_nil in Hin.
  - apply NoDup_cons in Hnd as [Hk0 Hnd].
    destruct (decide (k0 = k)) as [->|Hne].
    + rewrite !elem_of_cons. split.
      * intros [->|Hin]; [by left|]. right. split; [by right|].
        intros E. apply Hk0. apply list_elem_of_fmap. by exists e.
      * intros [->|[[->|Hin] Hk]]; [by left|done|by right].
    + rewrite !elem_of_cons, IH by done. split.
      * intros [->|[->|[Hin Hk]]]; [|by left|]; right; split; auto.
      * intros [->|[[->|Hin] Hk]]; auto.
Qed.

End dict_facts.

Section room_dedup_facts.
Context (position_threshold : Q).

Local Abbreviation pos_key := (RoomDedup.pos_key position_threshold).
Local Abbreviation conf := Joiner.room_confidence.
Local Abbreviation dedup_inv := (RoomDedup.dedup_inv position_threshold).


Lemma room_dedup_step_inv seen d room :
  ¬ (position_threshold == 0)%Q → dedup_inv seen d →
  ∃ d', RoomDedup.step position_threshold d room = Some d'
        ∧ dedup_inv (seen ++ [room]) d'.
Proof.
  intros Hpt (Hnd & Hfrom & Hrep). unfold RoomDedup.step.
  destruct (pos_key room) as [k|] eqn:Hk; simpl.
  2:{ unfold RoomDedup.pos_key in Hk.
      destruct (Qeq_bool position_threshold 0) eqn:E; [|done].
      apply Qeq_bool_iff in E. done. }
  assert (∀ r, r ∈ seen → r ∈ seen ++ [room]) as Hseen.
  { intros r Hr. apply elem_of_app. by left. }
  assert (room ∈ seen ++ [room]) as Hroom.
  { apply elem_of_app. right. left. }
  assert ((∀ old, (k, old) ∈ d → (conf old <= conf room)%Q) →
          dedup_inv (seen ++ [room]) (dict_set k room d)) as Hset.
  { intros Hold. split_and!.
    - destruct (dict_get k d) as [old|] eqn:Hget.
      + rewrite dict_set_keys_old; [done|]. by rewrite Hget.
      + rewrite dict_set_keys_new by done. rewrite fmap_app. simpl.
        apply NoDup_app. split_and!; [done| |apply NoDup_singleton].
        intros k' Hk' Hin. apply list_elem_of_singleton in Hin as ->.
        by apply dict_get_None in Hget.
    - intros k' v Hin. apply dict_set_elem in Hin as [[= -> ->]|[Hin _]];
        [done| |done].
      destruct (Hfrom k' v Hin). auto.
    - intros r Hr. apply elem_of_app in Hr as [Hr|Hr].
      + destruct (Hrep r Hr) as (k' & v & Hk' & Hin & Hle).
        destruct (decide (k' = k)) as [->|Hne].
        * exists k, room. split_and!; [done|apply dict_set_elem; auto|].
          eapply Qle_trans; [exact Hle|]. by apply Hold.
        * exists k', v. split_and!; [done| |done].
          apply dict_set_elem; [done|]. right. done.
      + apply list_elem_of_singleton in Hr as ->.
        exists k, room. split_and!; [done|apply dict_set_elem; auto|].
        apply Qle_refl. }
  destruct (dict_get k d) as [old|] eqn:Hget.
  - apply dict_get_Some in Hget; [|done].
    assert (∀ old', (k, old') ∈ d → old' = old) as Huniq.
    { intros old' Hin. apply dict_get_Some in Hin, Hget; try done. congruence. }
    destruct (Qltb (conf old) (conf room)) eqn:Hlt.
    + eexists. split; [done|]. apply Hset. intros old' Hin.
      rewrite (Huniq old' Hin). apply Qltb_lt in Hlt. lra.
    + eexists. split; [done|]. apply Qltb_ge in Hlt. split_and!; [done| |].
      * intros k' v Hin. destruct (Hfrom k' v Hin). auto.
      * intros r Hr. apply elem_of_app in Hr as [Hr|Hr]; [by apply Hrep|].
        apply list_elem_of_singleton in Hr as ->. by exists k, old.
  - eexists. split; [done|]. apply Hset. intros old Hin.
    apply dict_get_Some in Hin; [congruence|done].
Qed.

Lemma room_dedup_loop_inv rooms : ∀ seen d,
  ¬ (position_threshold == 0)%Q → dedup_inv seen d →
  ∃ d', RoomDedup.loop position_threshold rooms d = Some d'
        ∧ dedup_inv (seen ++ rooms) d'.
Proof.
  induction rooms as [|room rooms IH]; intros seen d Hpt Hinv; simpl.
  - exists d. by rewrite app_nil_r.
  - destruct (room_dedup_step_inv seen d room Hpt Hinv) as (d1 & -> & Hinv1). simpl.
    destruct (IH _ _ Hpt Hinv1) as (d' & Hd' & Hinv').
    exists d'. split; [done|]. by rewrite <- app_assoc in Hinv'.
Qed.

(** A dictionary whose entries sit under their own keys is rebuilt entry by
    entry. *)
Lemma room_dedup_rebuild (d2 : list (Z * Z * Joiner.Room)) : ∀ d1,
  NoDup (d1 ++ d2).*1 → (∀ k v, (k, v) ∈ d2 → pos_key v = Some k) →
  RoomDedup.loop position_threshold d2.*2 d1 = Some (d1 ++ d2).
Proof.
  induction d2 as [|[k v] d2 IH]; intros d1 Hnd Hkeys; csimpl.
  - by rewrite app_nil_r.
  - unfold RoomDedup.step. rewrite (Hkeys k v) by left. simpl.
    assert (dict_get k d1 = None) as Hnone.
    { apply dict_get_None. intros Hin.
      rewrite fmap_app in Hnd. apply NoDup_app in Hnd as (_ & Hdisj & _).
      apply (Hdisj k Hin). csimpl. left. }
    rewrite Hnone. simpl. rewrite dict_set_keys_new by done.
    rewrite IH.
    + by rewrite <- app_assoc.
    + by rewrite <- app_assoc.
    + intros k' v' Hin. apply Hkeys. by right.
Qed.

End room_dedup_facts.

(** Every room has a kept room with the same position key and at least its
    confidence, no further than the threshold from it in x and in y; the kept
    rooms are rooms of the input, with pairwise different keys. *)
Theorem deduplicate_room_names_representatives
    (position_threshold : Q) (rooms : list Joiner.Room) :
  (0 < position_threshold)%Q →
  ∃ out, RoomDedup.deduplicate_room_names position_threshold rooms = Some out
    ∧ (∀ r, r ∈ out → r ∈ rooms)
    ∧ (∀ i j a b, out !! i = Some a → out !! j = Some b →
         RoomDedup.same_cell position_threshold a b → i = j)
    ∧ (∀ r, r ∈ rooms →
         ∃ b, b ∈ out ∧ RoomDedup.same_cell position_threshold r b
           ∧ (Joiner.room_confidence r <= Joiner.room_confidence b)%Q
           ∧ (Qabs (Joiner.room_x r - Joiner.room_x b) <= position_threshold)%Q
           ∧ (Qabs (Joiner.room_y r - Joiner.room_y b) <= position_threshold)%Q).
Proof.
  intros Hpt.
  destruct (room_dedup_loop_inv position_threshold rooms [] []) as (d & Hd & Hinv).
  { lra. }
  { split_and!; [constructor|intros k v Hin; by apply elem_of_nil in Hin|].
    intros r Hr. by apply elem_of_nil in Hr. }
  simpl in Hinv. destruct Hinv as (Hnd & Hfrom & Hrep).
  exists d.*2. unfold RoomDedup.deduplicate_room_names. rewrite Hd. simpl.
  split_and!; [done| | |].
  - intros r Hr. apply list_elem_of_fmap in Hr as ([k v] & -> & Hin).
    by destruct (Hfrom k v Hin).
  - intros i j a b Ha Hb Hsame.
    rewrite list_lookup_fmap in Ha, Hb.
    destruct (d !! i) as [[ka va]|] eqn:Hi; [|done].
    destruct (d !! j) as [[kb vb]|] eqn:Hj; [|done].
    simpl in Ha, Hb. injection Ha as ->. injection Hb as ->.
    destruct (Hfrom ka a) as [_ Hka]; [by eapply list_elem_of_lookup_2|].
    destruct (Hfrom kb b) as [_ Hkb]; [by eapply list_elem_of_lookup_2|].
    unfold RoomDedup.same_cell in Hsame. rewrite Hka, Hkb in Hsame.
    injection Hsame as Hsame.
    eapply NoDup_lookup; [exact Hnd| |].
    + rewrite list_lookup_fmap, Hi. done.
    + rewrite list_lookup_fmap, Hj. simpl. by rewrite Hsame.
  - intros r Hr. destruct (Hrep r Hr) as (k & v & Hk & Hin & Hle).
    destruct (Hfrom k v Hin) as [_ Hkv].
    exists v. split_and!; [|unfold RoomDedup.same_cell; congruence|done| |].
    + apply list_elem_of_fmap. by exists (k, v).
    + unfold RoomDedup.pos_key in Hk, Hkv.
      destruct (Qeq_bool position_threshold 0); [done|].
      eapply py_round_same_cell; [done|]. congruence.
    + unfold RoomDedup.pos_key in Hk, Hkv.
      destruct (Qeq_bool position_threshold 0); [done|].
      eapply py_round_same_cell; [done|]. congruence.
Qed.

(** A second application returns its input: the reducer is idempotent. *)
Theorem deduplicate_room_names_idempotent
    (position_threshold : Q) (rooms out : list Joiner.Room) :
  RoomDedup.deduplicate_room_names position_threshold rooms = Some out →
  RoomDedup.deduplicate_room_names position_threshold out = Some out.
Proof.
  unfold RoomDedup.deduplicate_room_names. intros Hrun.
  destruct (RoomDedup.loop position_threshold rooms []) as [d|] eqn:Hd;
    [|done].
  simpl in Hrun. injection Hrun as <-.
  destruct rooms as [|room rooms]; [by injection Hd as <-|].
  assert (¬ (position_threshold == 0)%Q) as Hpt.
  { intros E. simpl in Hd. unfold RoomDedup.step, RoomDedup.pos_key in Hd.
    apply Qeq_bool_iff in E. by rewrite E in Hd. }
  destruct (room_dedup_loop_inv position_threshold (room :: rooms) [] [])
    as (d' & Hd' & Hnd & Hfrom & _); [done| |].
  { split_and!; [constructor|intros k v Hin; by apply elem_of_nil in Hin|].
    intros r Hr. by apply elem_of_nil in Hr. }
  rewrite Hd in Hd'. injection Hd' as <-.
  rewrite (room_dedup_rebuild position_threshold d []); [done|done|].
  intros k v Hin. by destruct (Hfrom k v Hin).
Qed.


Lemma deduplicate_room_names_representatives_witness :
  let room (t : string) (x y conf : Q) :=
    {| Joiner.room_text := t; Joiner.room_confidence := conf;
       Joiner.room_x := x; Joiner.room_y := y; Joiner.parts := 1;
       Joiner.multiline := false |} in
  let rooms := [room "LAB" 100%Q 200%Q 80%Q; room "LAB 2" 104%Q 203%Q 90%Q;
                room "OFFICE" 400%Q 200%Q 85%Q] in
  ∃ out, RoomDedup.deduplicate_room_names 20 rooms = Some out
    ∧ ∀ r, r ∈ out → r ∈ rooms.
Proof.
  intros room rooms.
  destruct (deduplicate_room_names_representatives 20 rooms)
    as (out & Hout & Hsub & _); [reflexivity|].
  exists out. split; [exact Hout|exact Hsub].
Defined.

Lemma deduplicate_room_names_idempotent_witness :
  let room (t : string) (x y conf : Q) :=
    {| Joiner.room_text := t; Joiner.room_confidence := conf;
       Joiner.room_x := x; Joiner.room_y := y; Joiner.parts := 1;
       Joiner.multiline := false |} in
  let rooms := [room "LAB" 100%Q 200%Q 80%Q; room "LAB 2" 104%Q 203%Q 90%Q;
                room "OFFICE" 400%Q 200%Q 85%Q] in
  let out := [room "LAB 2" 104%Q 203%Q 90%Q; room "OFFICE" 400%Q 200%Q 85%Q] in
  RoomDedup.deduplicate_room_names 20 out = Some out.
Proof.
  intros room rooms out.
  apply (deduplicate_room_names_idempotent 20 rooms out). reflexivity.
Defined.

(** ** One pass is enough *)

Lemma pass_exhausted (x_tolerance : Q) (texts : list WordBox)
    (st : list Multiline.Phrase * gset nat) (y_tol : Z) :
  st.2 = set_seq 0 (length texts) →
  Multiline.pass x_tolerance texts st y_tol = st.
Proof.
  intros Hused. unfold Multiline.pass, Multiline.group_lines.
  rewrite multiline_line_loop_filter.
  rewrite (filter_none (λ it : Multiline.Item, it.1 ∉ st.2)).
  - simpl. rewrite app_nil_r. by destruct st.
  - intros [j t] Hin Hno. apply Hno. rewrite Hused. simpl.
    apply enumerate_lookup, lookup_lt_Some in Hin.
    apply elem_of_set_seq. lia.
Qed.

Lemma passes_exhausted (x_tolerance : Q) (texts : list WordBox)
    (passes : list Z) (st : list Multiline.Phrase * gset nat) :
  st.2 = set_seq 0 (length texts) →
  foldl (Multiline.pass x_tolerance texts) st passes = st.
Proof.
  intros Hused. induction passes as [|y_tol passes IH]; [done|].
  simpl. by rewrite pass_exhausted.
Qed.

Lemma range_down_cons (hi lo : Z) :
  (lo ≤ hi)%Z → range_down hi (lo - 1) = hi :: range_down (hi - 1) (lo - 1).
Proof.
  intros Hle. unfold range_down.
  replace (Z.to_nat (hi - (lo - 1))) with (S (Z.to_nat (hi - 1 - (lo - 1))))
    by lia.
  simpl. f_equal; [lia|].
  rewrite <- fmap_S_seq, <- list_fmap_compose. apply list_fmap_ext.
  intros _ k _. simpl. lia.
Qed.

Lemma add_groups_tolerance (y_tol : Z) (groups : list (list Multiline.Item)) :
  ∀ st, Forall (λ p, Multiline.y_tolerance p = y_tol) st.1 →
    Forall (λ p, Multiline.y_tolerance p = y_tol)
      (foldl (Multiline.add_group y_tol) st groups).1.
Proof.
  induction groups as [|g groups IH]; intros st Hst; simpl; [done|].
  apply IH. destruct g as [|g0 gs]; simpl; [done|].
  apply Forall_app. split; [done|]. by constructor.
Qed.

Lemma process_lines_tolerance (x_tolerance : Q) (y_tol : Z)
    (lines : list (list Multiline.Item)) :
  ∀ st, Forall (λ p, Multiline.y_tolerance p = y_tol) st.1 →
    Forall (λ p, Multiline.y_tolerance p = y_tol)
      (foldl (Multiline.process_line x_tolerance y_tol) st lines).1.
Proof.
  induction lines as [|line lines IH]; intros st Hst; simpl; [done|].
  apply IH. unfold Multiline.process_line.
  destruct (forallb _ _); [done|].
  destruct (filter _ _); [done|]. by apply add_groups_tolerance.
Qed.

(** The passes after the first find every word used and add nothing: the
    result of [group_multiline_texts] is the result of its first pass. *)
Theorem multiline_single_pass (texts : list WordBox) (hi lo : Z)
    (x_tolerance : Q) :
  (lo ≤ hi)%Z →
  Multiline.group_multiline_texts texts (hi, lo) x_tolerance
  = Multiline.group_multiline_texts texts (hi, hi) x_tolerance
  ∧ Forall (λ p, Multiline.y_tolerance p = hi)
      (Multiline.group_multiline_texts texts (hi, lo) x_tolerance).
Proof.
  intros Hle.
  assert (∀ lo', (lo' ≤ hi)%Z →
            Multiline.run texts (hi, lo') x_tolerance
            = Multiline.pass x_tolerance (py_sorted yx_ltb texts) ([], ∅) hi)
    as Hrun.
  { intros lo' Hle'. unfold Multiline.run. simpl.
    rewrite range_down_cons by done. simpl.
    apply passes_exhausted. by apply pass_used. }
  unfold Multiline.group_multiline_texts.
  rewrite (Hrun lo Hle), (Hrun hi (Z.le_refl hi)). split; [done|].
  unfold Multiline.pass. simpl. by apply process_lines_tolerance.
Qed.

Lemma multiline_single_pass_witness :
  let w (t : string) (x y : Q) :=
    {| w_text := t; w_confidence := 90; w_x := x; w_y := y;
       w_width := Some 5%Q; w_height := Some 5%Q;
       w_display_x := None; w_display_y := None |} in
  let texts := [w "A" 0%Q 0%Q; w "B" 10%Q 8%Q; w "C" 500%Q 300%Q] in
  Multiline.group_multiline_texts texts (10, 1)%Z 50
  = Multiline.group_multiline_texts texts (10, 10)%Z 50.
Proof.
  intros w texts.
  destruct (multiline_single_pass texts 10 1 50) as [H _]; [lia|].
  exact H.
Defined.

Lemma fast_add_groups (y_tol : Z) (groups : list (list Multiline.Item)) :
  ∀ st, Fast.of_multiline <$> (foldl (Multiline.add_group y_tol) st groups).1
        = (Fast.of_multiline <$> st.1) ++ omap Fast.group_entry groups.
Proof.
  induction groups as [|g groups IH]; intros st; simpl.
  - by rewrite app_nil_r.
  - rewrite IH. destruct g as [|g0 gs]; simpl; [done|].
    rewrite fmap_app, <- app_assoc. done.
Qed.

Lemma fast_process_line (x_tolerance : Q) (y_tol : Z)
    (st : list Multiline.Phrase * gset nat) (line : list Multiline.Item) :
  line ≠ [] → (∀ it, it ∈ line → it.1 ∉ st.2) →
  ∃ phrases, Fast.line_phrases x_tolerance line = Some phrases
    ∧ Fast.of_multiline
        <$> (Multiline.process_line x_tolerance y_tol st line).1
      = (Fast.of_multiline <$> st.1) ++ phrases.
Proof.
  intros Hne Hfresh. unfold Fast.line_phrases, Multiline.process_line.
  set (sorted := py_sorted _ line).
  assert (∀ it, it ∈ sorted → it.1 ∉ st.2) as Hfresh'.
  { intros it Hit. apply Hfresh. unfold sorted in Hit.
    by rewrite py_sorted_perm in Hit. }
  destruct sorted as [|l0 rest] eqn:E.
  { by apply py_sorted_nil_inv in E. }
  assert (forallb (λ item : Multiline.Item, bool_decide (item.1 ∈ st.2))
            (l0 :: rest) = false) as ->.
  { simpl. rewrite bool_decide_eq_false_2; [done|]. apply Hfresh'. left. }
  rewrite filter_all by done.
  eexists. split; [done|]. apply fast_add_groups.
Qed.

Lemma fast_process_lines (x_tolerance : Q) (y_tol : Z)
    (lines : list (list Multiline.Item)) :
  ∀ st, Forall (λ line, line ≠ []) lines →
    NoDup (fst <$> concat lines) →
    (∀ it, it ∈ concat lines → it.1 ∉ st.2) →
    ∃ phrases, mapM (Fast.line_phrases x_tolerance) lines = Some phrases
      ∧ Fast.of_multiline
          <$> (foldl (Multiline.process_line x_tolerance y_tol) st lines).1
        = (Fast.of_multiline <$> st.1) ++ concat phrases.
Proof.
  induction lines as [|line lines IH]; intros st Hne Hnd Hfresh; simpl.
  - exists []. by rewrite app_nil_r.
  - apply Forall_cons in Hne as [Hne1 Hne].
    simpl in Hnd, Hfresh. rewrite fmap_app in Hnd.
    apply NoDup_app in Hnd as (Hnd1 & Hdisj & Hnd2).
    destruct (fast_process_line x_tolerance y_tol st line Hne1)
      as (ps & Hps & Hline).
    { intros it Hit. apply Hfresh. apply elem_of_app. by left. }
    destruct (IH (Multiline.process_line x_tolerance y_tol st line) Hne Hnd2)
      as (phrases & Hphrases & Hrest).
    { intros it Hit Hused. apply process_line_used in Hused as [Hused|Hused].
      - apply (Hfresh it); [|done]. apply elem_of_app. by right.
      - apply (Hdisj it.1 Hused). by apply list_elem_of_fmap_2. }
    exists (ps :: phrases). rewrite Hps, Hphrases. simpl. split; [done|].
    by rewrite Hrest, Hline, <- app_assoc.
Qed.

(** [group_multiline_texts_fast] returns the phrases of
    [group_multiline_texts] for a range of tolerances that starts at the same
    (whole) tolerance, without their 'y_tolerance' and 'indices'. *)
Theorem fast_is_first_pass (texts : list WordBox) (hi lo : Z)
    (x_tolerance : Q) :
  (lo ≤ hi)%Z →
  Fast.group_multiline_texts_fast texts (inject_Z hi) x_tolerance
  = Some (Fast.of_multiline
            <$> Multiline.group_multiline_texts texts (hi, lo) x_tolerance).
Proof.
  intros Hle.
  assert (Multiline.run texts (hi, lo) x_tolerance
          = Multiline.pass x_tolerance (py_sorted yx_ltb texts) ([], ∅) hi)
    as Hrun.
  { unfold Multiline.run. simpl. rewrite range_down_cons by done. simpl.
    apply passes_exhausted. by apply pass_used. }
  unfold Multiline.group_multiline_texts, Fast.group_multiline_texts_fast.
  rewrite Hrun. unfold Multiline.pass. simpl.
  set (sorted := py_sorted yx_ltb texts).
  assert (Multiline.group_lines (inject_Z hi) ∅ sorted
          = Fast.group_lines (inject_Z hi) sorted) as ->.
  { unfold Multiline.group_lines, Fast.group_lines.
    rewrite multiline_line_loop_filter. rewrite filter_all; [done|].
    intros it _. set_solver. }
  pose proof (split_runs_ok
    (λ p c : Multiline.Item, same_line (inject_Z hi) p.2 c.2)
    (enumerate sorted)) as (Hcat & Hall & _).
  fold (Fast.group_lines (inject_Z hi) sorted) in Hcat, Hall.
  destruct (fast_process_lines x_tolerance hi
              (Fast.group_lines (inject_Z hi) sorted) ([], ∅))
    as (phrases & -> & Hphrases).
  - eapply Forall_impl; [exact Hall|]. by intros line [? _].
  - rewrite Hcat. apply enumerate_NoDup.
  - intros it _. set_solver.
  - simpl. by rewrite Hphrases.
Qed.

Lemma fast_is_first_pass_witness :
  let w (t : string) (x y : Q) :=
    {| w_text := t; w_confidence := 90; w_x := x; w_y := y;
       w_width := Some 5%Q; w_height := Some 5%Q;
       w_display_x := None; w_display_y := None |} in
  let texts := [w "A" 0%Q 0%Q; w "B" 10%Q 8%Q; w "C" 500%Q 300%Q] in
  Fast.group_multiline_texts_fast texts (inject_Z 15) 100
  = Some (Fast.of_multiline
            <$> Multiline.group_multiline_texts texts (15, 2)%Z 100).
Proof. intros w texts. apply fast_is_first_pass. lia. Defined.

(** ** No word is lost *)

Lemma sum_list_cat (l1 l2 : list nat) :
  sum_list (l1 ++ l2) = (sum_list l1 + sum_list l2)%nat.
Proof. induction l1 as [|n l1 IH]; simpl; [done|]. rewrite IH. lia. Qed.

Lemma server_entries_count (groups : list (list WordBox))
    (phrases : list OcrServer.Phrase) :
  Forall2 (λ g p, OcrServer.phrase_entry g = Some p) groups phrases →
  sum_list (OcrServer.word_count <$> phrases) = length (concat groups)
  ∧ Forall (server_phrase_of (concat groups)) phrases.
Proof.
  induction 1 as [|g p groups phrases Hgp _ [IH1 IH2]]; simpl; [done|].
  destruct g as [|g0 g]; [done|]. injection Hgp as <-. csimpl.
  rewrite IH1, length_app. split; [done|]. constructor.
  - split; [simpl; lia|]. exists g0. split; [left|done].
  - eapply Forall_impl; [exact IH2|].
    intros q (Hq & w & Hw & Hxy). split; [done|]. exists w. split; [|done].
    right. apply elem_of_app. by right.
Qed.

Lemma server_line_count (x_tolerance : Q) (line : list WordBox)
    (phrases : list OcrServer.Phrase) :
  line ≠ [] → OcrServer.line_phrases x_tolerance line = Some phrases →
  sum_list (OcrServer.word_count <$> phrases) = length line
  ∧ Forall (server_phrase_of line) phrases.
Proof.
  intros Hne. unfold OcrServer.line_phrases.
  rewrite phrase_groups_split by done. simpl. intros Hm.
  apply mapM_Some in Hm. apply server_entries_count in Hm as [H1 H2].
  pose proof (split_runs_ok (same_phrase x_tolerance) (py_sorted x_ltb line))
    as (Hcat & _ & _).
  rewrite Hcat in H1, H2. rewrite py_sorted_length in H1. split; [done|].
  eapply Forall_impl; [exact H2|].
  intros q (Hq & w & Hw & Hxy). split; [done|]. exists w. split; [|done].
  by rewrite py_sorted_perm in Hw.
Qed.

Lemma server_lines_count (x_tolerance : Q) (lines : list (list WordBox))
    (phrases : list (list OcrServer.Phrase)) :
  Forall (λ line, line ≠ []) lines →
  Forall2 (λ line ps, OcrServer.line_phrases x_tolerance line = Some ps)
    lines phrases →
  sum_list (OcrServer.word_count <$> concat phrases) = length (concat lines)
  ∧ Forall (server_phrase_of (concat lines)) (concat phrases).
Proof.
  intros Hne H. induction H as [|line ps lines phrases Hl _ IH]; simpl; [done|].
  apply Forall_cons in Hne as [Hne1 Hne].
  destruct (IH Hne) as [IH1 IH2].
  destruct (server_line_count _ _ _ Hne1 Hl) as [H1 H2].
  rewrite fmap_app, sum_list_cat, H1, IH1, length_app. split; [done|].
  apply Forall_app. split.
  - eapply Forall_impl; [exact H2|].
    intros q (Hq & w & Hw & Hxy). split; [done|]. exists w. split; [|done].
    apply elem_of_app. by left.
  - eapply Forall_impl; [exact IH2|].
    intros q (Hq & w & Hw & Hxy). split; [done|]. exists w. split; [|done].
    apply elem_of_app. by right.
Qed.

(** [group_texts_into_phrases] neither loses nor repeats a word: the word
    counts of the phrases add up to the number of input words, every phrase
    has at least one word and sits at the position of an input word. *)
Theorem server_words_conserved (texts : list WordBox)
    (y_tolerance x_tolerance : Q) :
  ∃ phrases,
    OcrServer.group_texts_into_phrases texts y_tolerance x_tolerance
    = Some phrases
    ∧ sum_list (OcrServer.word_count <$> phrases) = length texts
    ∧ Forall (server_phrase_of texts) phrases.
Proof.
  unfold OcrServer.group_texts_into_phrases.
  destruct texts as [|t texts]; [by exists []|].
  set (sorted := py_sorted yx_ltb (t :: texts)).
  pose proof (split_runs_ok (same_line y_tolerance) sorted)
    as (Hcat & Hall & _).
  fold (OcrServer.group_lines y_tolerance sorted) in Hcat, Hall.
  assert (Forall (λ line, line ≠ []) (OcrServer.group_lines y_tolerance sorted))
    as Hne.
  { eapply Forall_impl; [exact Hall|]. by intros line [? _]. }
  assert (is_Some (mapM (OcrServer.line_phrases x_tolerance)
                     (OcrServer.group_lines y_tolerance sorted)))
    as [phrases Hm].
  { apply mapM_is_Some. eapply Forall_impl; [exact Hne|].
    intros line ?. by apply line_phrases_total. }
  rewrite Hm. simpl. exists (concat phrases). split; [done|].
  apply mapM_Some in Hm.
  destruct (server_lines_count _ _ _ Hne Hm) as [H1 H2].
  rewrite Hcat in H1, H2. unfold sorted in H1. rewrite py_sorted_length in H1.
  split; [done|].
  eapply Forall_impl; [exact H2|].
  intros q (Hq & w & Hw & Hxy). split; [done|]. exists w. split; [|done].
  unfold sorted in Hw. by rewrite py_sorted_perm in Hw.
Qed.

Section joiner_count.
Context (vertical_threshold horizontal_threshold : Q).

Local Abbreviation collect :=
  (Joiner.collect vertical_threshold horizontal_threshold).
Local Abbreviation room_loop :=
  (Joiner.room_loop vertical_threshold horizontal_threshold).

(** Each absorbed phrase adds one index to the consumed set and one part. *)
Lemma collect_count i phrase1 (items : list (nat * Joiner.Phrase)) :
  ∀ (used : gset nat) room_parts,
    let st := collect i phrase1 items used room_parts in
    (size st.1 + length room_parts = size used + length st.2)%nat
    ∧ used ⊆ st.1
    ∧ st.1 ⊆ used ∪ list_to_set (fst <$> items).
Proof.
  induction items as [|[j phrase2] items IH]; intros used room_parts; simpl.
  - split_and!; [done|done|set_solver].
  - destruct ((j <=? i)%nat || bool_decide (j ∈ used)) eqn:Hskip.
    { destruct (IH used room_parts) as (H1 & H2 & H3).
      split_and!; [done|done|set_solver]. }
    apply orb_false_iff in Hskip as [_ Hnin].
    apply bool_decide_eq_false in Hnin.
    destruct (Joiner.aligned _ _ phrase1 phrase2);
      [destruct (Joiner.continuation phrase2)|].
    + destruct (IH ({[j]} ∪ used) (room_parts ++ [phrase2])) as (H1 & H2 & H3).
      rewrite length_app, size_union, size_singleton in H1 by set_solver.
      simpl in H1. split_and!; [lia|set_solver|set_solver].
    + destruct (IH used room_parts) as (H1 & H2 & H3).
      split_and!; [done|done|set_solver].
    + destruct (IH used room_parts) as (H1 & H2 & H3).
      split_and!; [done|done|set_solver].
Qed.

Lemma room_entry_parts phrase1 (room_parts : list Joiner.Phrase) :
  (1 ≤ length room_parts)%nat →
  let room := Joiner.room_entry phrase1 room_parts in
  Joiner.parts room = length room_parts
  ∧ (Joiner.multiline room = true ↔ (1 < Joiner.parts room)%nat).
Proof.
  intros Hlen. unfold Joiner.room_entry.
  destruct (1 <? length room_parts)%nat eqn:E; simpl.
  - apply Nat.ltb_lt in E. rewrite py_sorted_length. split; [done|].
    split; [done|done].
  - apply Nat.ltb_ge in E. split; [lia|]. split; [done|lia].
Qed.

Lemma room_loop_count (phrases : list Joiner.Phrase)
    (items : list (nat * Joiner.Phrase)) :
  ∀ (used : gset nat) rooms,
    sum_list (Joiner.parts <$> rooms) = size used →
    used ⊆ list_to_set (fst <$> enumerate phrases) →
    (∀ j, j ∈ fst <$> enumerate phrases → j ∉ fst <$> items → j ∈ used) →
    fst <$> items ⊆ fst <$> enumerate phrases →
    sum_list (Joiner.parts <$> room_loop phrases items used rooms)
    = length phrases.
Proof.
  induction items as [|[i phrase1] items IH]; intros used rooms Hsum Hsub Hdone Hin;
    simpl.
  - rewrite Hsum. 
    assert (used = list_to_set (fst <$> enumerate phrases)) as ->.
    { apply set_eq. intros j. split; [apply Hsub|].
      rewrite elem_of_list_to_set. intros Hj. apply Hdone; [done|].
      apply not_elem_of_nil. }
    unfold enumerate. rewrite enumerate_from_fst.
    rewrite size_list_to_set by apply NoDup_seq. apply length_seq.
  - destruct (bool_decide (i ∈ used)) eqn:Hi.
    + apply bool_decide_eq_true in Hi. apply IH; [done|done| |].
      * intros j Hj Hnot. destruct (decide (j = i)) as [->|Hne]; [done|].
        apply Hdone; [done|]. csimpl. rewrite not_elem_of_cons. done.
      * intros j Hj. apply Hin. csimpl. by right.
    + apply bool_decide_eq_false in Hi.
      destruct (collect_count i phrase1 (enumerate phrases) ({[i]} ∪ used)
                  [phrase1]) as (H1 & H2 & H3).
      set (st := collect i phrase1 (enumerate phrases) ({[i]} ∪ used) [phrase1])
        in *.
      simpl in H1.
      assert (1 ≤ length st.2)%nat as Hlen.
      { assert (size ({[i]} ∪ used) ≤ size st.1)%nat
          by (by apply subseteq_size).
        rewrite size_union, size_singleton in * by set_solver. lia. }
      destruct (room_entry_parts phrase1 st.2) as [Hparts _]; [lia|].
      apply IH.
      * rewrite fmap_app, sum_list_cat. simpl. rewrite Hparts, Hsum.
        rewrite size_union, size_singleton in H1 by set_solver. lia.
      * assert (i ∈ fst <$> enumerate phrases) by (apply Hin; csimpl; left).
        set_solver.
      * intros j Hj Hnot. destruct (decide (j = i)) as [->|Hne]; [set_solver|].
        apply H2. apply elem_of_union. right.
        apply Hdone; [done|]. csimpl. rewrite not_elem_of_cons. done.
      * intros j Hj. apply Hin. csimpl. by right.
Qed.

Lemma room_loop_parts (phrases : list Joiner.Phrase)
    (items : list (nat * Joiner.Phrase)) :
  ∀ (used : gset nat) rooms,
    Forall (λ r, (1 ≤ Joiner.parts r)%nat
                 ∧ (Joiner.multiline r = true ↔ (1 < Joiner.parts r)%nat))
      rooms →
    Forall (λ r, (1 ≤ Joiner.parts r)%nat
                 ∧ (Joiner.multiline r = true ↔ (1 < Joiner.parts r)%nat))
      (room_loop phrases items used rooms).
Proof.
  induction items as [|[i phrase1] items IH]; intros used rooms Hall; simpl;
    [done|].
  destruct (bool_decide (i ∈ used)); [by apply IH|].
  apply IH. apply Forall_app. split; [done|]. constructor; [|done].
  destruct (collect_count i phrase1 (enumerate phrases) ({[i]} ∪ used)
              [phrase1]) as (H1 & _ & _).
  set (st := collect i phrase1 (enumerate phrases) ({[i]} ∪ used) [phrase1])
    in *.
  assert (1 ≤ length st.2)%nat as Hlen.
  { pose proof (collect_count i phrase1 (enumerate phrases) ({[i]} ∪ used)
                  [phrase1]) as (_ & H2 & _). fold st in H2.
    assert (size ({[i]} ∪ used) ≤ size st.1)%nat
      by (by apply subseteq_size).
    simpl in H1. lia. }
  destruct (room_entry_parts phrase1 st.2 Hlen) as [Hparts Hml].
  split; [lia|done].
Qed.

End joiner_count.

(** Every phrase goes into exactly one room name: the part counts of the
    rooms add up to the number of phrases; a room has at least one part, and
    is flagged multiline exactly when it has more than one. *)
Theorem joiner_parts_conserved (vertical_threshold horizontal_threshold : Q)
    (phrases : list Joiner.Phrase) :
  let rooms := Joiner.identify_multiline_room_names vertical_threshold
                 horizontal_threshold phrases in
  sum_list (Joiner.parts <$> rooms) = length phrases
  ∧ Forall (λ r, (1 ≤ Joiner.parts r)%nat
               ∧ (Joiner.multiline r = true ↔ (1 < Joiner.parts r)%nat)) rooms.
Proof.
  unfold Joiner.identify_multiline_room_names. split.
  - rewrite <- (py_sorted_length Joiner.xy_ltb phrases).
    apply room_loop_count; [done|set_solver|done|done].
  - by apply room_loop_parts.
Qed.

(** ** Greedy grouping *)

Section seed_facts.
Context {A : Type} (accepts : A → list A → A → bool).

Lemma seed_collect_spec (texts : list A) (seed : nat * A)
    (items : list (nat * A)) :
  ∀ (used : gset nat) parts,
    Forall (from_texts texts) items →
    head parts = Some seed →
    (∀ k c, (0 < k)%nat → parts !! k = Some c →
       accepts seed.2 (take k parts).*2 c.2 = true) →
    let st := seed_collect accepts seed.2 items used parts in
    ∃ new, st.2 = parts ++ new
      ∧ NoDup new.*1 ∧ (∀ j, j ∈ new.*1 → j ∉ used)
      ∧ (∀ j, j ∈ st.1 ↔ j ∈ used ∨ j ∈ new.*1)
      ∧ Forall (from_texts texts) new
      ∧ (∀ k c, (0 < k)%nat → st.2 !! k = Some c →
           accepts seed.2 (take k st.2).*2 c.2 = true).
Proof.
  induction items as [|[j c] items IH]; intros used parts Hfrom Hhead Hchain;
    simpl.
  - exists []. rewrite app_nil_r. split_and!; try done; [constructor| |].
    + intros j Hj. by apply elem_of_nil in Hj.
    + intros j. split; [by left|]. intros [?|Hj]; [done|].
      by apply elem_of_nil in Hj.
  - apply Forall_cons in Hfrom as [Hjc Hfrom].
    destruct (decide (j ∈ used)) as [Hin|Hnin].
    { rewrite bool_decide_eq_true_2 by done. by apply IH. }
    rewrite bool_decide_eq_false_2 by done.
    destruct (accepts seed.2 parts.*2 c) eqn:Hacc; [|by apply IH].
    destruct (IH ({[j]} ∪ used) (parts ++ [(j, c)]) Hfrom)
      as (new & Hst & Hnd & Hfresh & Hmem & Hnew & Hch).
    { destruct parts; [done|]. done. }
    { intros k c' Hk Hlook.
      destruct (decide (k < length parts)%nat) as [Hlt|Hge].
      - rewrite lookup_app_l in Hlook by done.
        rewrite take_app_le by lia. by apply Hchain.
      - assert (k = length parts) as ->.
        { apply lookup_lt_Some in Hlook. rewrite length_app in Hlook.
          simpl in Hlook. lia. }
        rewrite list_lookup_middle in Hlook by done. injection Hlook as <-.
        rewrite take_app_length. done. }
    exists ((j, c) :: new). split_and!.
    + by rewrite Hst, <- app_assoc.
    + csimpl. apply NoDup_cons. split; [|done].
      intros Hj. apply (Hfresh j Hj). set_solver.
    + intros j' Hj'. csimpl in Hj'. apply elem_of_cons in Hj' as [->|Hj'];
        [done|]. intros Hu. apply (Hfresh j' Hj'). set_solver.
    + intros j'. rewrite Hmem. csimpl. rewrite elem_of_cons. set_solver.
    + by constructor.
    + done.
Qed.

Lemma seed_loop_inv (texts : list A) (items : list (nat * A)) :
  ∀ (used : gset nat) groups,
    Forall (from_texts texts) items →
    seed_inv accepts texts used groups →
    ∃ used', seed_inv accepts texts used' (seed_loop accepts texts items used groups)
      ∧ used ⊆ used' ∧ ∀ j, j ∈ items.*1 → j ∈ used'.
Proof.
  induction items as [|[i seed] items IH]; intros used groups Hfrom Hinv; simpl.
  - exists used. split_and!; [done|done|].
    intros j Hj. by apply elem_of_nil in Hj.
  - apply Forall_cons in Hfrom as [Hi Hfrom].
    destruct (decide (i ∈ used)) as [Hin|Hnin].
    { rewrite bool_decide_eq_true_2 by done.
      destruct (IH used groups Hfrom Hinv) as (used' & Hinv' & Hsub & Hall).
      exists used'. split_and!; [done|done|].
      intros j Hj. csimpl in Hj. apply elem_of_cons in Hj as [->|Hj]; auto. }
    rewrite bool_decide_eq_false_2 by done.
    destruct (seed_collect_spec texts (i, seed) (enumerate texts)
                ({[i]} ∪ used) [(i, seed)])
      as (new & Hst & Hnd & Hfresh & Hmem & Hnew & Hch).
    { apply Forall_forall. intros [j c] Hjc. by apply enumerate_lookup. }
    { done. }
    { intros [|k] c Hk Hlook; [lia|]. done. }
    simpl in *.
    set (st := seed_collect accepts seed (enumerate texts) ({[i]} ∪ used)
                 [(i, seed)]) in *.
    destruct Hinv as (Hnd0 & Hused & Hfrom0 & Hchains).
    destruct (IH st.1 (groups ++ [st.2]) Hfrom)
      as (used' & Hinv' & Hsub & Hall).
    { unfold seed_inv. rewrite concat_app. simpl. rewrite app_nil_r, Hst.
      split_and!.
      - rewrite fmap_app. apply NoDup_app. split_and!; [done| |].
        + intros j Hj1 Hj2. csimpl in Hj2.
          apply elem_of_cons in Hj2 as [->|Hj2].
          * by apply Hnin, Hused.
          * apply (Hfresh j Hj2). apply elem_of_union. right. by apply Hused.
        + csimpl. apply NoDup_cons. split; [|done].
          intros Hj. apply (Hfresh i Hj). set_solver.
      - intros j. rewrite Hmem, fmap_app, elem_of_app. csimpl.
        rewrite elem_of_cons, elem_of_union, elem_of_singleton, Hused. tauto.
      - apply Forall_app. split; [done|]. by constructor.
      - apply Forall_app. split; [done|]. constructor; [|done].
        exists (i, seed). split; [done|]. rewrite Hst in Hch. done. }
    exists used'. split_and!; [done| |].
    + intros j Hj. apply Hsub, Hmem. left. set_solver.
    + intros j Hj. csimpl in Hj. apply elem_of_cons in Hj as [->|Hj]; [|auto].
      apply Hsub, Hmem. left. set_solver.
Qed.

(** The groups hold every item of the input exactly once, under its
    index. *)
Lemma seed_groups_partition (texts : list A) :
  concat (seed_groups accepts texts) ≡ₚ enumerate texts
  ∧ Forall (seed_chain accepts) (seed_groups accepts texts).
Proof.
  destruct (seed_loop_inv texts (enumerate texts) ∅ [])
    as (used' & (Hnd & Hused & Hfrom & Hchains) & _ & Hall).
  { apply Forall_forall. intros [j c] Hjc. by apply enumerate_lookup. }
  { split_and!; [constructor| |done|done]. intros j. set_solver. }
  fold (seed_groups accepts texts) in *. split; [|done].
  rewrite Forall_forall in Hfrom.
  apply NoDup_Permutation.
  - by apply NoDup_fmap_1 in Hnd.
  - eapply NoDup_fmap_1. apply enumerate_NoDup.
  - intros [j c]. split.
    + intros Hjc. apply enumerate_elem. by apply (Hfrom (j, c)).
    + intros Hjc. apply enumerate_lookup in Hjc as Hlook.
      assert (j ∈ (concat (seed_groups accepts texts)).*1) as Hj.
      { apply Hused, Hall. by apply (list_elem_of_fmap_2 fst _ (j, c)). }
      apply list_elem_of_fmap in Hj as ([j' c'] & Hjj & Hin). simpl in Hjj.
      subst j'. pose proof (Hfrom _ Hin) as Hc'. unfold from_texts in Hc'.
      simpl in Hc'. congruence.
Qed.

End seed_facts.

Section merge_facts.
Context (merge_threshold : Q).

Local Abbreviation accepts :=
  (λ text1 parts text2,
     Merge.close merge_threshold text1 text2
     && negb (Merge.contained text2 parts)).

Lemma merge_collect_seed text1 (items : list (nat * Dedup.Label)) :
  ∀ used (parts : list (nat * Dedup.Label)),
    Merge.collect merge_threshold text1 items used parts.*2
    = ((seed_collect accepts text1 items used parts).1,
       (seed_collect accepts text1 items used parts).2.*2).
Proof.
  induction items as [|[j text2] items IH]; intros used parts; simpl; [done|].
  destruct (bool_decide (j ∈ used)); [apply IH|].
  destruct (Merge.close merge_threshold text1 text2); simpl; [|apply IH].
  destruct (Merge.contained text2 parts.*2); simpl; [apply IH|].
  rewrite <- IH. by rewrite fmap_app.
Qed.

Lemma merge_chain_group (g : list (nat * Dedup.Label)) :
  seed_chain accepts g →
  ∃ it rest, g = it :: rest
    ∧ Merge.merge_group merge_threshold g.*2
        (Merge.merged_entry it.2 g.*2).
Proof.
  intros (seed & Hhead & Hchain).
  destruct g as [|it rest]; [done|]. injection Hhead as ->.
  exists seed, rest. split; [done|].
  exists seed.2, rest.*2. split_and!; [done|done| |].
  - apply Forall_forall. intros text2 Hin.
    apply list_elem_of_fmap in Hin as (c & -> & Hc).
    apply list_elem_of_lookup in Hc as [k Hk].
    specialize (Hchain (S k) c ltac:(lia) Hk).
    by apply andb_prop in Hchain as [? _].
  - intros i j p c Hij Hp Hc.
    rewrite list_lookup_fmap in Hp, Hc.
    destruct ((seed :: rest) !! i) as [pi|] eqn:Hi; [|done].
    destruct ((seed :: rest) !! j) as [cj|] eqn:Hj; [|done].
    simpl in Hp, Hc. injection Hp as <-. injection Hc as <-.
    specialize (Hchain j cj ltac:(lia) Hj).
    apply andb_prop in Hchain as [_ Hnot]. apply negb_true_iff in Hnot.
    unfold Merge.contained in Hnot.
    assert (pi.2 ∈ (take j (seed :: rest)).*2) as Hin.
    { apply list_elem_of_fmap_2. apply list_elem_of_lookup. exists i.
      rewrite lookup_take_lt by done. done. }
    assert (Py.str_in (Dedup.text cj.2) (Dedup.text pi.2)
            || Py.str_in (Dedup.text pi.2) (Dedup.text cj.2) = false) as Hf.
    { destruct (Py.str_in (Dedup.text cj.2) (Dedup.text pi.2)
                || Py.str_in (Dedup.text pi.2) (Dedup.text cj.2)) eqn:E;
        [|done].
      exfalso. apply not_true_iff_false in Hnot. apply Hnot.
      apply existsb_exists. exists pi.2. split; [|done].
      by apply list_elem_of_In. }
    apply orb_false_iff in Hf as [H1 H2].
    split; intros Hs; apply str_in_spec in Hs; congruence.
Qed.

Lemma merge_loop_seed texts (items : list (nat * Dedup.Label)) :
  ∀ used groups merged,
    Forall2 (λ g m, ∃ it rest, g = it :: rest
                      ∧ m = Merge.merged_entry it.2 g.*2) groups merged →
    Forall2 (λ g m, ∃ it rest, g = it :: rest
                      ∧ m = Merge.merged_entry it.2 g.*2)
      (seed_loop accepts texts items used groups)
      (Merge.merge_loop merge_threshold texts items used merged).
Proof.
  induction items as [|[i text1] items IH]; intros used groups merged Hall;
    simpl; [done|].
  destruct (bool_decide (i ∈ used)); [by apply IH|].
  change [text1] with ([(i, text1)].*2).
  rewrite merge_collect_seed. simpl.
  apply IH. apply Forall2_app; [done|]. constructor; [|done].
  pose proof (seed_collect_spec accepts texts (i, text1) (enumerate texts)
                ({[i]} ∪ used) [(i, text1)]) as Hspec.
  destruct Hspec as (new & Hst & _).
  { apply Forall_forall. intros [j c] Hjc. by apply enumerate_lookup. }
  { done. }
  { intros [|k] c Hk Hlook; [lia|done]. }
  simpl in Hst. rewrite Hst. by exists (i, text1), new.
Qed.

Lemma merge_groups_ok (groups : list (list (nat * Dedup.Label)))
    (merged : list Dedup.Label) :
  Forall (seed_chain accepts) groups →
  Forall2 (λ g m, ∃ it rest, g = it :: rest
                    ∧ m = Merge.merged_entry it.2 g.*2) groups merged →
  Forall2 (Merge.merge_group merge_threshold) ((λ g, g.*2) <$> groups) merged.
Proof.
  intros Hchains Hloop. revert Hchains.
  induction Hloop as [|g m groups merged (it & rest & Hg & Hm) _ IH];
    intros Hchains; [constructor|].
  apply Forall_cons in Hchains as [Hchain Hchains].
  csimpl. constructor; [|by apply IH].
  destruct (merge_chain_group g Hchain) as (it' & rest' & Hg' & Hgroup).
  rewrite Hg in Hg'. injection Hg' as <- <-. rewrite Hm. by rewrite Hg in Hgroup |- *.
Qed.

End merge_facts.

(** [merge_adjacent_texts] puts every text into exactly one group and
    returns one entry per group, in the order of the seeds. *)
Theorem merge_adjacent_partition (merge_threshold : Q)
    (texts : list Dedup.Label) :
  ∃ groups,
    Forall2 (Merge.merge_group merge_threshold) groups
      (Merge.merge_adjacent_texts merge_threshold texts)
    ∧ concat groups ≡ₚ texts.
Proof.
  set (accepts := λ text1 parts text2,
         Merge.close merge_threshold text1 text2
         && negb (Merge.contained text2 parts)).
  destruct (seed_groups_partition accepts texts) as [Hperm Hchains].
  exists ((λ g, g.*2) <$> seed_groups accepts texts). split.
  - pose proof (merge_loop_seed merge_threshold texts (enumerate texts) ∅ [] []
                  ltac:(constructor)) as Hloop.
    fold (seed_groups accepts texts) in Hloop.
    fold (Merge.merge_adjacent_texts merge_threshold texts) in Hloop.
    by apply merge_groups_ok.
  - rewrite <- (enumerate_snd 0 texts) at 2. fold (enumerate texts).
    rewrite <- Hperm. clear.
    induction (seed_groups accepts texts) as [|g gs IH]; [done|].
    csimpl. by rewrite fmap_app, IH.
Qed.

(** ** Room names *)

Lemma remove_absent (c : ascii) (s : string) :
  c ∉ Py.chars s → Py.remove_char c s = s.
Proof.
  intros Hc. unfold Py.remove_char.
  rewrite filter_all; [apply string_of_chars|].
  intros d Hd ->. done.
Qed.

Lemma digit_not_alpha (c : ascii) :
  Py.is_digit c = true → RoomName.is_alpha c = false.
Proof.
  unfold Py.is_digit, RoomName.is_alpha. generalize (nat_of_ascii c) as n.
  intros n H. apply andb_prop in H as [H1 H2].
  apply Nat.leb_le in H1, H2.
  apply orb_false_iff. split; apply andb_false_iff.
  - left. apply Nat.leb_gt. lia.
  - left. apply Nat.leb_gt. lia.
Qed.

Lemma isdigit_remove (c : ascii) (s : string) :
  Py.is_digit c = false → Py.isdigit s = true → Py.remove_char c s = s.
Proof.
  intros Hc Hs. apply remove_absent. intros Hin.
  apply isdigit_spec in Hs as [_ Hall]. rewrite Forall_forall in Hall.
  apply Hall in Hin. congruence.
Qed.

Lemma lstrip_idem (l : list ascii) : Py.lstrip (Py.lstrip l) = Py.lstrip l.
Proof.
  induction l as [|c l IH]; [done|]. simpl.
  destruct (Py.is_space c) eqn:E; [done|]. simpl. by rewrite E.
Qed.

Lemma lstrip_head (l : list ascii) :
  Py.lstrip l = l ↔ match l with [] => True | c :: _ => Py.is_space c = false end.
Proof.
  destruct l as [|c l]; [done|]. simpl.
  destruct (Py.is_space c) eqn:E; [|done]. split; [|done].
  intros H. exfalso.
  assert (length (Py.lstrip l) ≤ length l)%nat as Hlen.
  { clear. induction l as [|d l IH]; simpl; [done|].
    destruct (Py.is_space d); simpl; lia. }
  rewrite H in Hlen. simpl in Hlen. lia.
Qed.

Lemma lstrip_suffix (l : list ascii) : ∃ pre, l = pre ++ Py.lstrip l.
Proof.
  induction l as [|c l [pre IH]]; [by exists []|]. simpl.
  destruct (Py.is_space c); [|by exists []].
  exists (c :: pre). simpl. by rewrite <- IH.
Qed.

Lemma strip_idem (s : string) : Py.strip (Py.strip s) = Py.strip s.
Proof.
  unfold Py.strip. rewrite chars_of_list. f_equal.
  set (M := Py.lstrip (Py.chars s)).
  set (L := rev (Py.lstrip (rev M))).
  assert (Py.lstrip L = L) as ->.
  { apply lstrip_head. destruct L as [|c L'] eqn:EL; [done|].
    (* L is a prefix of M, whose head is not a space *)
    destruct (lstrip_suffix (rev M)) as [pre Hpre].
    assert (M = L ++ rev pre) as HM.
    { subst L. rewrite <- (rev_involutive M), Hpre at 1.
      by rewrite rev_app_distr. }
    rewrite EL in HM. simpl in HM.
    assert (Py.lstrip M = M) as HMM by apply lstrip_idem.
    apply lstrip_head in HMM. by rewrite HM in HMM. }
  subst L. rewrite rev_involutive. by rewrite lstrip_idem.
Qed.

(** A text passes the test of run_multi_scan.py exactly when, stripped, it
    has at least two characters, one of them a letter, and is not a "T"
    followed by digits only: the test for pure numbers rejects nothing that
    the test for a letter would let through. *)
Theorem is_valid_room_name_iff (text : string) :
  RoomName.is_valid_room_name text = true
  ↔ (2 ≤ String.length (Py.strip text))%nat
    ∧ (∃ c, c ∈ Py.chars (Py.strip text) ∧ RoomName.is_alpha c = true)
    ∧ ¬ (Py.startswith_char "T" (Py.strip text) = true
         ∧ Py.isdigit (Py.tail (Py.strip text)) = true).
Proof.
  unfold RoomName.is_valid_room_name. set (t := Py.strip text).
  assert (existsb RoomName.is_alpha (Py.chars t) = true
          ↔ ∃ c, c ∈ Py.chars t ∧ RoomName.is_alpha c = true) as Halpha.
  { rewrite existsb_exists. split; intros (c & Hc & Ha); exists c;
      (split; [by apply list_elem_of_In|done]). }
  split.
  - destruct (Py.startswith_char "T" t && Py.isdigit (Py.tail t)) eqn:HT;
      [done|].
    destruct (Py.isdigit (Py.remove_char "," (Py.remove_char "." t)));
      [done|].
    destruct (String.length t <? 2)%nat eqn:Hlen; [done|].
    destruct (existsb RoomName.is_alpha (Py.chars t)) eqn:Ha; [|done].
    intros _. apply Nat.ltb_ge in Hlen. split_and!; [done|by apply Halpha|].
    intros [H1 H2]. by rewrite H1, H2 in HT.
  - intros (Hlen & Ha & HT).
    destruct (Py.startswith_char "T" t && Py.isdigit (Py.tail t)) eqn:HT'.
    { apply andb_prop in HT'. contradiction. }
    destruct (Py.isdigit (Py.remove_char "," (Py.remove_char "." t))) eqn:Hn.
    { exfalso. destruct Ha as (c & Hc & Hca).
      apply isdigit_spec in Hn as [_ Hall]. rewrite Forall_forall in Hall.
      assert (Py.is_digit c = true) as Hd.
      { apply Hall. rewrite !chars_remove.
        apply list_elem_of_filter. split.
        - intros ->. by vm_compute in Hca.
        - apply list_elem_of_filter. split; [|done].
          intros ->. by vm_compute in Hca. }
      apply digit_not_alpha in Hd. congruence. }
    apply Nat.ltb_ge in Hlen. rewrite Hlen.
    apply Halpha in Ha. by rewrite Ha.
Qed.

(** A text accepted by the stricter test of run_enhanced_multi_scan.py is
    accepted by the test of run_multi_scan.py. *)
Theorem enhanced_valid_is_valid (text : string) :
  RoomName.enhanced_is_valid_room_name text = true →
  RoomName.is_valid_room_name text = true.
Proof.
  unfold RoomName.enhanced_is_valid_room_name, RoomName.is_valid_room_name.
  set (t := Py.strip text).
  destruct (Joiner.is_room_code t) eqn:Hcode; [done|].
  destruct (String.length t <? 2)%nat; [done|].
  destruct (existsb RoomName.is_alpha (Py.chars t)); [|done]. simpl.
  intros _.
  unfold Joiner.is_room_code in Hcode.
  assert (Py.strip t = t) as Ht by apply strip_idem. rewrite Ht in Hcode.
  destruct (Py.startswith_char "T" t) eqn:HT; simpl in *.
  - destruct (Py.isdigit (Py.tail t)) eqn:Hd.
    + exfalso. rewrite isdigit_remove in Hcode by done. rewrite Hd in Hcode.
      assert ((1 <? String.length t)%nat = true) as Hlen.
      { apply isdigit_spec in Hd as [Hne _]. destruct t as [|c [|d t']];
          simpl in *; done. }
      by rewrite Hlen in Hcode.
    + destruct (Py.isdigit (Py.remove_char "," (Py.remove_char "." t)))
        eqn:Hn; [|done].
      exfalso. rewrite (isdigit_remove " ") in Hcode by done.
      rewrite Hn in Hcode. by destruct (_ && _).
  - destruct (Py.isdigit (Py.remove_char "," (Py.remove_char "." t)))
      eqn:Hn; [|done].
    exfalso. rewrite (isdigit_remove " ") in Hcode by done.
    by rewrite Hn in Hcode.
Qed.

Lemma enhanced_valid_is_valid_witness :
  RoomName.is_valid_room_name " MECH RM " = true.
Proof. apply enhanced_valid_is_valid. reflexivity. Defined.

Section nearby_facts.
Context (distance_threshold : Q).

Local Abbreviation accepts :=
  (λ (text1 : Dedup.Label) (_ : list Dedup.Label) (text2 : Dedup.Label),
     Nearby.close distance_threshold text1 text2).

Lemma nearby_collect_seed text1 (items : list (nat * Dedup.Label)) :
  ∀ used (parts : list (nat * Dedup.Label)),
    Nearby.collect distance_threshold text1 items used parts.*2
    = ((seed_collect accepts text1 items used parts).1,
       (seed_collect accepts text1 items used parts).2.*2).
Proof.
  induction items as [|[j text2] items IH]; intros used parts; simpl; [done|].
  destruct (bool_decide (j ∈ used)); [apply IH|].
  destruct (Nearby.close distance_threshold text1 text2); [|apply IH].
  rewrite <- IH. by rewrite fmap_app.
Qed.

Lemma nearby_loop_seed texts (items : list (nat * Dedup.Label)) :
  ∀ used (groups : list (list (nat * Dedup.Label))),
    Nearby.group_loop distance_threshold texts items used
      ((λ g, g.*2) <$> groups)
    = (λ g, g.*2) <$> seed_loop accepts texts items used groups.
Proof.
  induction items as [|[i text1] items IH]; intros used groups; simpl; [done|].
  destruct (bool_decide (i ∈ used)); [apply IH|].
  change [text1] with ([(i, text1)].*2).
  rewrite nearby_collect_seed. simpl. rewrite <- IH. by rewrite fmap_app.
Qed.

End nearby_facts.

(** [group_nearby_texts] puts every text into exactly one group; a group is
    its seed followed by texts close to the seed. *)
Theorem group_nearby_partition (distance_threshold : Q)
    (texts : list Dedup.Label) :
  let groups := Nearby.group_nearby_texts distance_threshold texts in
  concat groups ≡ₚ texts
  ∧ Forall (λ g, ∃ text1 rest, g = text1 :: rest
               ∧ Forall (λ text2,
                    Nearby.close distance_threshold text1 text2 = true) rest)
      groups.
Proof.
  set (accepts := λ (text1 : Dedup.Label) (_ : list Dedup.Label)
                    (text2 : Dedup.Label),
                    Nearby.close distance_threshold text1 text2).
  destruct (seed_groups_partition accepts texts) as [Hperm Hchains].
  intros groups. subst groups. unfold Nearby.group_nearby_texts.
  change (Nearby.group_loop distance_threshold texts (enumerate texts) ∅ [])
    with (Nearby.group_loop distance_threshold texts (enumerate texts) ∅
            ((λ g : list (nat * Dedup.Label), g.*2) <$> [])).
  rewrite nearby_loop_seed. fold accepts. fold (seed_groups accepts texts).
  split.
  - transitivity ((enumerate texts).*2);
      [|unfold enumerate; by rewrite enumerate_snd].
    etransitivity; [|apply fmap_Permutation, Hperm].
    clear. induction (seed_groups accepts texts) as [|g gs IH]; [done|].
    csimpl. by rewrite fmap_app, IH.
  - apply Forall_fmap. eapply Forall_impl; [exact Hchains|].
    intros g (seed & Hhead & Hchain). simpl.
    destruct g as [|it rest]; [done|]. injection Hhead as ->.
    exists seed.2, rest.*2. split; [done|].
    apply Forall_forall. intros text2 Hin.
    apply list_elem_of_fmap in Hin as (c & -> & Hc).
    apply list_elem_of_lookup in Hc as [k Hk].
    by apply (Hchain (S k) c ltac:(lia)).
Qed.

Lemma number_chars_no_alpha (t : string) :
  Nearby.number_chars t = true →
  existsb RoomName.is_alpha (Py.chars t) = false.
Proof.
  unfold Nearby.number_chars. intros H.
  assert (forallb (λ c, Py.is_digit c || bool_decide (c = "."%char)
                        || bool_decide (c = ","%char)) (Py.chars t) = true)
    as Hall by (by destruct (Py.chars t)).
  clear H. induction (Py.chars t) as [|c l IH]; [done|].
  simpl in *. apply andb_prop in Hall as [Hc Hl].
  rewrite IH by done.
  apply orb_prop in Hc as [Hc|Hc]; [apply orb_prop in Hc as [Hc|Hc]|].
  - by rewrite digit_not_alpha.
  - apply bool_decide_eq_true in Hc as ->. done.
  - apply bool_decide_eq_true in Hc as ->. done.
Qed.

Lemma skip_digits_no_alpha (l : list ascii) :
  match Nearby.skip_digits l with
  | [] => True
  | d :: fraction => d = "."%char ∧ forallb Py.is_digit fraction = true
  end →
  existsb RoomName.is_alpha l = false.
Proof.
  induction l as [|c l IH]; [done|]. simpl.
  destruct (Py.is_digit c) eqn:Hc.
  - intros H. rewrite digit_not_alpha by done. by apply IH.
  - intros [-> Hf]. simpl. clear IH Hc.
    induction l as [|c l IH]; [done|]. simpl in *.
    apply andb_prop in Hf as [Hc Hl]. rewrite digit_not_alpha by done.
    by apply IH.
Qed.

Lemma measurement_no_alpha (t : string) :
  Nearby.measurement t = true →
  existsb RoomName.is_alpha (Py.chars t) = false.
Proof.
  unfold Nearby.measurement. destruct (Py.chars t) as [|c l]; [done|].
  intros H. apply andb_prop in H as [Hc H]. simpl.
  rewrite digit_not_alpha by done. apply skip_digits_no_alpha.
  destruct (Nearby.skip_digits l) as [|d fraction]; [done|].
  apply andb_prop in H as [Hd Hf]. by apply bool_decide_eq_true in Hd.
Qed.

(** A text passes [is_room_name] exactly when, stripped, it has at least two
    characters, one of them a letter, and does not start with "T" and three
    digits: the two tests for numbers reject nothing that the test for a
    letter would let through. *)
Theorem is_room_name_iff (text : string) :
  Nearby.is_room_name text = true
  ↔ (2 ≤ String.length (Py.strip text))%nat
    ∧ (∃ c, c ∈ Py.chars (Py.strip text) ∧ RoomName.is_alpha c = true)
    ∧ Nearby.t_code (Py.strip text) = false.
Proof.
  unfold Nearby.is_room_name. set (t := Py.strip text).
  assert (existsb RoomName.is_alpha (Py.chars t) = true
          ↔ ∃ c, c ∈ Py.chars t ∧ RoomName.is_alpha c = true) as Halpha.
  { rewrite existsb_exists. split; intros (c & Hc & Ha); exists c;
      (split; [by apply list_elem_of_In|done]). }
  split.
  - destruct (Nearby.t_code t); [done|].
    destruct (Nearby.number_chars t); [done|].
    destruct (String.length t <? 2)%nat eqn:Hlen; [done|].
    destruct (Nearby.measurement t); [done|].
    destruct (existsb RoomName.is_alpha (Py.chars t)) eqn:Ha; [|done].
    intros _. apply Nat.ltb_ge in Hlen. split_and!; [done|by apply Halpha|done].
  - intros (Hlen & Ha & ->). apply Halpha in Ha.
    destruct (Nearby.number_chars t) eqn:Hn.
    { apply number_chars_no_alpha in Hn. congruence. }
    apply Nat.ltb_ge in Hlen. rewrite Hlen.
    destruct (Nearby.measurement t) eqn:Hm.
    { apply measurement_no_alpha in Hm. congruence. }
    by rewrite Ha.
Qed.

(** ** The range of the similarity *)

Lemma chars_length (s : string) : length (Py.chars s) = String.length s.
Proof. induction s as [|c s IH]; simpl; [done|]. by rewrite IH. Qed.

Lemma shared_chars_le (a b : string) :
  (Dedup.shared_chars a b ≤ String.length a)%nat.
Proof.
  unfold Dedup.shared_chars. rewrite <- chars_length. apply length_filter.
Qed.

Lemma text_similarity_bounds (a b : string) :
  (0 <= Dedup.text_similarity a b <= 1)%Q.
Proof.
  unfold Dedup.text_similarity.
  destruct (String.eqb a b); [lra|].
  destruct (Py.str_in a b || Py.str_in b a); [lra|].
  rewrite common_chars_shared.
  pose proof (shared_chars_le a b) as Hle.
  set (n := Dedup.shared_chars a b) in *.
  set (m := (String.length a `max` String.length b)%nat).
  assert (n ≤ m)%nat as Hnm by lia.
  destruct (0 <? m)%nat eqn:Hm; [|lra].
  apply Nat.ltb_lt in Hm.
  assert (0 < inject_Z (Z.of_nat m))%Q as HmQ.
  { change 0%Q with (inject_Z 0). rewrite <- Zlt_Qlt. lia. }
  assert (0 <= inject_Z (Z.of_nat n))%Q as HnQ.
  { change 0%Q with (inject_Z 0). rewrite <- Zle_Qle. lia. }
  assert (inject_Z (Z.of_nat n) <= inject_Z (Z.of_nat m))%Q as HnmQ.
  { rewrite <- Zle_Qle. lia. }
  split.
  - apply Qle_shift_div_l; [done|]. lra.
  - apply Qle_shift_div_r; [done|]. lra.
Qed.

(** The similarity is a number between 0 and 1, and it does not depend on the
    order of the two texts when one of them occurs inside the other. *)
Theorem text_similarity_range (a b : string) :
  (0 <= Dedup.text_similarity a b <= 1)%Q
  ∧ (Dedup.substring_of a b ∨ Dedup.substring_of b a →
     Dedup.text_similarity a b = Dedup.text_similarity b a).
Proof.
  split; [apply text_similarity_bounds|].
  unfold Dedup.text_similarity. intros Hsub.
  assert (Py.str_in a b || Py.str_in b a = true) as Hab.
  { apply orb_true_iff. by rewrite !str_in_spec. }
  assert (Py.str_in b a || Py.str_in a b = true) as Hba.
  { by rewrite orb_comm. }
  rewrite Hab, Hba.
  destruct (String.eqb_spec a b) as [->|Hne].
  - by rewrite String.eqb_refl.
  - destruct (String.eqb_spec b a) as [->|_]; done.
Qed.

(** With a position threshold that is not positive, or a similarity
    threshold above 1, no two labels are duplicates of each other and
    [deduplicate_texts] returns its input. *)
Theorem deduplicate_texts_disabled (position_threshold similarity_threshold : Q)
    (texts : list Dedup.Label) :
  (position_threshold <= 0)%Q ∨ (1 < similarity_threshold)%Q →
  Dedup.deduplicate_texts position_threshold similarity_threshold texts
  = Some texts.
Proof.
  intros Hoff. apply deduplicate_settled.
  intros i j t1 t2 _ _ _. unfold Dedup.duplicate_of.
  destruct Hoff as [Hp|Hs].
  - unfold Dedup.near.
    assert (Qltb 0 position_threshold = false) as ->; [|done].
    by apply Qltb_ge.
  - apply andb_false_iff. right.
    destruct (Qle_bool similarity_threshold _) eqn:E; [|done].
    apply Qle_bool_iff in E.
    pose proof (text_similarity_bounds (Dedup.text t1) (Dedup.text t2)).
    lra.
Qed.

Lemma deduplicate_texts_disabled_witness :
  let l (x conf : Q) := {| Dedup.text := "BOILER RM"; Dedup.x := x;
                           Dedup.y := 189; Dedup.confidence := conf;
                           Dedup.scan := "" |} in
  let texts := [l 2640%Q 90%Q; l 2641%Q 96%Q] in
  Dedup.deduplicate_texts 15 (11 # 10) texts = Some texts.
Proof.
  intros l texts. apply deduplicate_texts_disabled. right. reflexivity.
Defined.

(** ** Colours *)

Lemma range_step_length (stop step : nat) :
  length (Color.range_step stop step) = ((stop + step - 1) / step)%nat.
Proof. unfold Color.range_step. by rewrite length_fmap, length_seq. Qed.

Lemma chunk_count (lv : nat) :
  (3 ≤ lv)%nat →
  let n := ((lv + lv / 3 - 1) / (lv / 3))%nat in
  (lv mod 3 = 0 → n = 3)%nat ∧ (lv mod 3 ≠ 0 → 3 < n)%nat.
Proof.
  intros Hlv n.
  pose proof (Nat.div_mod_eq lv 3) as Hdm.
  pose proof (Nat.mod_upper_bound lv 3 ltac:(lia)) as Hr.
  set (q := (lv / 3)%nat) in *. set (r := (lv mod 3)%nat) in *.
  assert (1 ≤ q)%nat as Hq by lia.
  split; intros Hmod.
  - subst n. rewrite Hdm, Hmod.
    replace (3 * q + 0 + q - 1)%nat with (q - 1 + 3 * q)%nat by lia.
    rewrite Nat.div_add by lia. rewrite Nat.div_small by lia. done.
  - subst n. rewrite Hdm.
    replace (3 * q + r + q - 1)%nat with (r - 1 + 4 * q)%nat by lia.
    rewrite Nat.div_add by lia. lia.
Qed.

(** [hex_to_rgb] raises when fewer than three characters follow the leading
    '#' characters; otherwise, when every piece is read by [int], it gives
    three components exactly when the number of characters is a multiple of
    three, and more than three components when it is not. *)
Theorem hex_to_rgb_components (int16 : string → option Z) (hex_color : string) :
  let lv := length (Color.lstrip_hash (Py.chars hex_color)) in
  ((lv < 3)%nat → Color.hex_to_rgb int16 hex_color = None)
  ∧ ∀ rgb, Color.hex_to_rgb int16 hex_color = Some rgb →
      (3 ≤ lv)%nat
      ∧ (lv mod 3 = 0 → length rgb = 3)%nat
      ∧ (lv mod 3 ≠ 0 → 3 < length rgb)%nat.
Proof.
  intros lv. unfold Color.hex_to_rgb. fold lv. split.
  - intros Hlv. rewrite Nat.div_small by done. done.
  - intros rgb. destruct (lv / 3 =? 0)%nat eqn:Hstep; [done|].
    apply Nat.eqb_neq in Hstep. intros Hm.
    assert (3 ≤ lv)%nat as Hlv.
    { destruct (decide (lv < 3)%nat) as [Hlt|]; [|lia].
      by rewrite Nat.div_small in Hstep. }
    apply length_mapM in Hm. rewrite range_step_length in Hm.
    destruct (chunk_count lv Hlv) as [H0 H1]. rewrite <- Hm.
    split_and!; [done|done|done].
Qed.

(** For a colour written "#RRGGBB" (any number of leading '#', then six
    hexadecimal digits) the result is the triple of the three bytes divided
    by 255, each between 0 and 1. *)
Theorem hex_to_rgb_rrggbb (int16 : string → option Z)
    (r1 r2 g1 g2 b1 b2 : ascii) (vr1 vr2 vg1 vg2 vb1 vb2 : Z) (hashes : nat) :
  Color.reads_hex int16 →
  Color.hex_digit r1 = Some vr1 → Color.hex_digit r2 = Some vr2 →
  Color.hex_digit g1 = Some vg1 → Color.hex_digit g2 = Some vg2 →
  Color.hex_digit b1 = Some vb1 → Color.hex_digit b2 = Some vb2 →
  let hex_color :=
    String.string_of_list_ascii
      (replicate hashes "#"%char ++ [r1; r2; g1; g2; b1; b2]) in
  let r := (inject_Z (16 * vr1 + vr2) / 255)%Q in
  let g := (inject_Z (16 * vg1 + vg2) / 255)%Q in
  let b := (inject_Z (16 * vb1 + vb2) / 255)%Q in
  Color.hex_to_rgb int16 hex_color = Some [r; g; b]
  ∧ (0 <= r <= 1)%Q ∧ (0 <= g <= 1)%Q ∧ (0 <= b <= 1)%Q.
Proof.
  intros Hint Hr1 Hr2 Hg1 Hg2 Hb1 Hb2 hex_color r g b.
  assert (∀ c v, Color.hex_digit c = Some v → c ≠ "#"%char ∧ (0 ≤ v ≤ 15)%Z)
    as Hdigit.
  { intros c v Hc. split.
    - intros ->. by vm_compute in Hc.
    - unfold Color.hex_digit in Hc. revert Hc.
      generalize (nat_of_ascii c) as n. intros n.
      destruct ((48 <=? n) && (n <=? 57))%nat eqn:E1.
      { apply andb_prop in E1 as [? ?]. intros [= <-].
        apply Nat.leb_le in H, H0. lia. }
      destruct ((97 <=? n) && (n <=? 102))%nat eqn:E2.
      { apply andb_prop in E2 as [? ?]. intros [= <-].
        apply Nat.leb_le in H, H0. lia. }
      destruct ((65 <=? n) && (n <=? 70))%nat eqn:E3; [|done].
      apply andb_prop in E3 as [? ?]. intros [= <-].
      apply Nat.leb_le in H, H0. lia. }
  assert (Color.lstrip_hash (Py.chars hex_color) = [r1; r2; g1; g2; b1; b2])
    as Hstrip.
  { unfold hex_color, Py.chars.
    rewrite String.list_ascii_of_string_of_list_ascii.
    induction hashes as [|n IH]; simpl.
    - destruct (Hdigit r1 vr1 Hr1) as [Hne _]. by rewrite bool_decide_eq_false_2.
    - done. }
  assert (∀ c1 c2 v1 v2, Color.hex_digit c1 = Some v1 →
            Color.hex_digit c2 = Some v2 →
            int16 (String c1 (String c2 EmptyString)) = Some (16 * v1 + v2)%Z)
    as Hpair.
  { intros c1 c2 v1 v2 H1 H2.
    rewrite (Hint (String c1 (String c2 EmptyString)) [v1; v2]); [|done|].
    - unfold Color.hex_value. simpl. f_equal; lia.
    - simpl. by rewrite H1, H2. }
  split.
  - unfold Color.hex_to_rgb. rewrite Hstrip. simpl.
    rewrite (Hpair r1 r2 vr1 vr2), (Hpair g1 g2 vg1 vg2),
      (Hpair b1 b2 vb1 vb2) by done.
    done.
  - assert (∀ v1 v2, (0 ≤ v1 ≤ 15)%Z → (0 ≤ v2 ≤ 15)%Z →
              (0 <= inject_Z (16 * v1 + v2) / 255 <= 1)%Q) as Hbyte.
    { intros v1 v2 H1 H2.
      assert (0 <= inject_Z (16 * v1 + v2))%Q.
      { change 0%Q with (inject_Z 0). rewrite <- Zle_Qle. lia. }
      assert (inject_Z (16 * v1 + v2) <= 255)%Q.
      { change 255%Q with (inject_Z 255). rewrite <- Zle_Qle. lia. }
      split; [apply Qle_shift_div_l|apply Qle_shift_div_r]; lra. }
    split_and!; apply Hbyte; by eapply Hdigit.
Qed.

Lemma hex_to_rgb_rrggbb_witness :
  let int16 (s : string) :=
    Color.hex_value <$> mapM Color.hex_digit (Py.chars s) in
  Color.hex_to_rgb int16 "#ff8000"
  = Some [(inject_Z (16 * 15 + 15) / 255)%Q; (inject_Z (16 * 8 + 0) / 255)%Q;
          (inject_Z (16 * 0 + 0) / 255)%Q].
Proof.
  intros int16.
  assert (Color.reads_hex int16) as Hint.
  { intros s digits _ Hm. unfold int16. by rewrite Hm. }
  exact (proj1 (hex_to_rgb_rrggbb int16 "f" "f" "8" "0" "0" "0" 15 15 8 0 0 0 1
                  Hint eq_refl eq_refl eq_refl eq_refl eq_refl eq_refl)).
Defined.

(** ** Pages of the sign types *)

Lemma bookmark_dict_snoc (bookmarks : list SignPages.Bookmark)
    (b : SignPages.Bookmark) :
  SignPages.bookmark_dict (bookmarks ++ [b])
  = <[Py.strip (SignPages.title b) := (SignPages.page_num b - 1)%Z]>
      (SignPages.bookmark_dict bookmarks).
Proof. unfold SignPages.bookmark_dict. by rewrite foldl_app. Qed.

(** A title is looked up at the last bookmark that carries it. *)
Lemma bookmark_dict_lookup (bookmarks : list SignPages.Bookmark) (t : string) :
  SignPages.bookmark_dict bookmarks !! t
  = (λ b, (SignPages.page_num b - 1)%Z)
      <$> last (filter (λ b, Py.strip (SignPages.title b) = t) bookmarks).
Proof.
  induction bookmarks as [|b bookmarks IH] using rev_ind; [done|].
  rewrite bookmark_dict_snoc, filter_app, filter_cons, filter_nil.
  destruct (decide (Py.strip (SignPages.title b) = t)) as [<-|Hne].
  - rewrite lookup_insert_eq, last_snoc. done.
  - rewrite lookup_insert_ne, app_nil_r by done. apply IH.
Qed.

Lemma ascending_strict (l : list Z) :
  NoDup l → adjacent (λ u v, Z.ltb v u = false) l → adjacent Z.lt l.
Proof.
  induction l as [|a l IH]; [done|]. destruct l as [|b l]; [done|].
  intros Hnd [Hab Hl]. apply NoDup_cons in Hnd as [Ha Hnd].
  split; [|by apply IH].
  apply Z.ltb_ge in Hab. assert (a ≠ b) by (intros ->; apply Ha; left). lia.
Qed.

(** The pages of the output are those that the bookmarks give for the sign
    types of the legend, each once, in ascending order, where a title is
    looked up at the last bookmark that carries it; there is an output
    exactly when the source exists and some sign type has a bookmark. *)
Theorem extract_sign_type_pages_spec
    (legend_data : list (string * (nat * string))) (source_is_file : bool)
    (bookmarks : list SignPages.Bookmark) :
  (∀ t, SignPages.bookmark_dict bookmarks !! t
        = (λ b, (SignPages.page_num b - 1)%Z)
            <$> last (filter (λ b, Py.strip (SignPages.title b) = t)
                        bookmarks))
  ∧ match SignPages.extract_sign_type_pages legend_data source_is_file
            bookmarks with
    | SignPages.SourceNotFound => source_is_file = false
    | SignPages.NoSignTypes =>
        source_is_file = true
        ∧ ∀ p, ¬ SignPages.wanted legend_data bookmarks p
    | SignPages.Saved pages =>
        source_is_file = true ∧ pages ≠ [] ∧ adjacent Z.lt pages
        ∧ ∀ p, p ∈ pages ↔ SignPages.wanted legend_data bookmarks p
    end.
Proof.
  split; [apply bookmark_dict_lookup|].
  unfold SignPages.extract_sign_type_pages.
  destruct source_is_file; simpl; [|done].
  set (included := SignPages.pages_to_include _ _).
  assert (∀ p, p ∈ included ↔ SignPages.wanted legend_data bookmarks p) as Hin.
  { intros p. unfold included, SignPages.pages_to_include.
    rewrite list_elem_of_omap. unfold SignPages.wanted, SignPages.sign_types.
    split.
    - intros (st & Hst & Hp). apply elem_of_elements, elem_of_list_to_set in Hst.
      apply list_elem_of_fmap in Hst as ([color [count st']] & -> & He).
      by exists color, count, st'.
    - intros (color & count & st & He & Hp). exists st. split; [|done].
      apply elem_of_elements, elem_of_list_to_set.
      apply list_elem_of_fmap. by exists (color, (count, st)). }
  destruct included as [|p0 rest] eqn:E.
  - split; [done|]. intros p Hp. apply Hin in Hp. by apply elem_of_nil in Hp.
  - set (pages := py_sorted Z.ltb _).
    assert (∀ p, p ∈ pages ↔ p ∈ p0 :: rest) as Hpages.
    { intros p. unfold pages. rewrite py_sorted_perm, elem_of_elements.
      apply elem_of_list_to_set. }
    split_and!; [done| | |].
    + intros Hnil. assert (p0 ∈ pages) as Hp0 by (apply Hpages; left).
      rewrite Hnil in Hp0. by apply elem_of_nil in Hp0.
    + apply ascending_strict.
      * unfold pages. rewrite py_sorted_perm. apply NoDup_elements.
      * apply py_sorted_adjacent. intros u v Huv.
        apply Z.ltb_lt in Huv. apply Z.ltb_ge. lia.
    + intros p. by rewrite Hpages.
Qed.

(** ** Dot numbers and legend *)

Section ledger_facts.
Context (st_data : gmap string string) (default_color_hex : string).

Local Abbreviation record := (Ledger.record st_data default_color_hex).
Local Abbreviation of_color := (Ledger.of_color st_data default_color_hex).
Local Abbreviation color_of := (Ledger.color_of st_data default_color_hex).
Local Abbreviation ledger_inv :=
  (Ledger.ledger_inv st_data default_color_hex).


Lemma ledger_record_inv annotations st a :
  ledger_inv annotations st → ledger_inv (annotations ++ [a]) (record st a).
Proof.
  intros (Hdot & Hnum & Htypes & Hnd & Hleg).
  unfold Ledger.ledger_inv, Ledger.record. cbn [Ledger.dot_number
    Ledger.message_schedule Ledger.legend_data].
  rewrite length_app. split_and!.
  - simpl. lia.
  - rewrite fmap_app, Hnum, seq_app. cbn [fmap list_fmap Ledger.Number].
    by rewrite Hdot.
  - by rewrite !fmap_app, Htypes.
  - unfold Ledger.legend_add.
    destruct (dict_get _ _) as [[count first_type]|] eqn:Hget.
    + rewrite dict_set_keys_old; [done|]. by rewrite Hget.
    + rewrite dict_set_keys_new by done. rewrite fmap_app. simpl.
      apply NoDup_app. split_and!; [done| |apply NoDup_singleton].
      intros k Hk Hin. apply list_elem_of_singleton in Hin as ->.
      by apply dict_get_None in Hget.
  - intros color count first_type.
    set (c := color_of (Ledger.sign_type a)).
    unfold Ledger.of_color. rewrite filter_app, filter_cons, filter_nil.
    fold (of_color color annotations). fold c.
    unfold Ledger.legend_add. fold c.
    destruct (dict_get c (Ledger.legend_data st)) as [[n t]|] eqn:Hget.
    + apply dict_get_Some in Hget; [|done].
      apply Hleg in Hget as [Hn Ht].
      rewrite dict_set_elem by done. simpl.
      destruct (decide (c = color)) as [<-|Hne].
      * rewrite length_app. simpl.
        destruct (of_color c annotations) as [|a0 rest] eqn:E; [done|].
        simpl in *. split.
        -- intros [Heq|[Hin Hc]]; [|done]. simplify_eq. split; [lia|done].
        -- intros [-> Hf]. left. simplify_eq. do 2 f_equal. lia.
      * rewrite app_nil_r. rewrite <- Hleg. split.
        -- intros [[= -> _ _]|[Hin _]]; [done|done].
        -- intros Hin. right. split; [done|]. by intros ->.
    + assert (of_color c annotations = []) as Hnone.
      { destruct (of_color c annotations) as [|a0 rest] eqn:E; [done|].
        exfalso. apply dict_get_None in Hget. apply Hget.
        apply list_elem_of_fmap.
        exists (c, (length (a0 :: rest), Ledger.sign_type a0)).
        split; [done|]. apply Hleg. by rewrite E. }
      rewrite dict_set_keys_new by done.
      rewrite elem_of_app, list_elem_of_singleton.
      destruct (decide (c = color)) as [<-|Hne].
      * rewrite Hnone. simpl. split.
        -- intros [Hin|[= <- <-]]; [|done].
           apply Hleg in Hin as [-> Hh]. by rewrite Hnone in Hh.
        -- intros [-> [= <-]]. by right.
      * rewrite app_nil_r. rewrite <- Hleg. split.
        -- intros [Hin|[= -> _ _]]; [done|done].
        -- intros Hin. by left.
Qed.


Lemma dict_set_sum {K V} `{EqDecision K} (f : V → nat) (k : K) (v v' : V)
    (d : list (K * V)) :
  dict_get k d = Some v →
  (sum_list (f <$> (dict_set k v' d).*2) + f v
   = sum_list (f <$> d.*2) + f v')%nat.
Proof.
  induction d as [|[k0 v0] d IH]; csimpl; [done|].
  destruct (decide (k0 = k)) as [->|Hne]; csimpl.
  - intros [= ->]. lia.
  - intros Hget. specialize (IH Hget). lia.
Qed.

Lemma ledger_record_sum st a :
  sum_list (fst <$> (Ledger.legend_data (record st a)).*2)
  = S (sum_list (fst <$> (Ledger.legend_data st).*2)).
Proof.
  unfold Ledger.record, Ledger.legend_add. simpl.
  set (c := color_of (Ledger.sign_type a)).
  destruct (dict_get c (Ledger.legend_data st)) as [[n t]|] eqn:Hget.
  - pose proof (dict_set_sum fst c (n, t) (S n, t) _ Hget) as H.
    simpl in H. lia.
  - rewrite dict_set_keys_new by done.
    rewrite !fmap_app, sum_list_cat. simpl. lia.
Qed.

Lemma ledger_run_inv (annotations : list Ledger.Annotation) :
  ∀ seen st, ledger_inv seen st →
    sum_list (fst <$> (Ledger.legend_data st).*2) = length seen →
    let st' := foldl record st annotations in
    ledger_inv (seen ++ annotations) st'
    ∧ sum_list (fst <$> (Ledger.legend_data st').*2)
      = length (seen ++ annotations).
Proof.
  induction annotations as [|a annotations IH]; intros seen st Hinv Hsum; simpl.
  - by rewrite app_nil_r.
  - replace (seen ++ a :: annotations) with ((seen ++ [a]) ++ annotations)
      by (by rewrite <- app_assoc).
    apply IH; [by apply ledger_record_inv|].
    rewrite ledger_record_sum, Hsum, length_app. simpl. lia.
Qed.

End ledger_facts.

(** The bookkeeping of the annotations is consistent: the dots are numbered
    1, 2, ... in the order of the schedule, the legend has one row per colour
    in use, whose count is the number of dots of that colour and whose sign
    type is the type of the first of them, and the counts add up to the
    number of dots. *)
Theorem ledger_consistent (st_data : gmap string string)
    (default_color_hex : string) (annotations : list Ledger.Annotation) :
  let st := foldl (Ledger.record st_data default_color_hex) Ledger.initial
              annotations in
  let of_color c := Ledger.of_color st_data default_color_hex c annotations in
  Ledger.dot_number st = S (length annotations)
  ∧ Ledger.Number <$> Ledger.message_schedule st = seq 1 (length annotations)
  ∧ Ledger.SignType <$> Ledger.message_schedule st
    = Ledger.sign_type <$> annotations
  ∧ NoDup (Ledger.legend_data st).*1
  ∧ (∀ color count first_type,
       (color, (count, first_type)) ∈ Ledger.legend_data st
       ↔ count = length (of_color color)
         ∧ Ledger.sign_type <$> head (of_color color) = Some first_type)
  ∧ sum_list (fst <$> (Ledger.legend_data st).*2) = length annotations.
Proof.
  intros st of_color.
  destruct (ledger_run_inv st_data default_color_hex annotations []
              Ledger.initial) as [(H1 & H2 & H3 & H4 & H5) H6].
  - split_and!; try done; [constructor|].
    intros color count first_type. simpl. split.
    + intros Hin. by apply elem_of_nil in Hin.
    + intros [_ Hh]. done.
  - done.
  - simpl in *. split_and!; done.
Qed.

(** ** Words that occur twice *)

Lemma word_eqb_trans (a b c : Automapper.Word) :
  Automapper.word_eqb a b = true → Automapper.word_eqb b c = true →
  Automapper.word_eqb a c = true.
Proof.
  unfold Automapper.word_eqb. rewrite !andb_true_iff.
  rewrite !Qeq_bool_iff, !String.eqb_eq, !Z.eqb_eq.
  intros (((((((H1 & H2) & H3) & H4) & H5) & H6) & H7) & H8)
         (((((((G1 & G2) & G3) & G4) & G5) & G6) & G7) & G8).
  split_and!; try congruence; etransitivity; eassumption.
Qed.

Lemma word_eqb_refl (a : Automapper.Word) : Automapper.word_eqb a a = true.
Proof.
  unfold Automapper.word_eqb. rewrite !andb_true_iff.
  rewrite !Qeq_bool_iff, !String.eqb_eq, !Z.eqb_eq. split_and!; done.
Qed.

(** [words.index(w)] is the first position of a word equal to [w]. *)
Lemma index_from_spec (w : Automapper.Word) (words : list Automapper.Word) :
  ∀ n k, Automapper.index_from n w words = Some k →
    (n ≤ k)%nat
    ∧ (∃ w', words !! (k - n)%nat = Some w' ∧ Automapper.word_eqb w' w = true)
    ∧ ∀ k' w', (k' < k - n)%nat → words !! k' = Some w' →
        Automapper.word_eqb w' w = false.
Proof.
  induction words as [|w0 words IH]; intros n k; simpl; [done|].
  destruct (Automapper.word_eqb w0 w) eqn:E.
  - intros [= <-]. rewrite Nat.sub_diag. split_and!; [done| |].
    + by exists w0.
    + intros k' w' Hk'. lia.
  - intros Hrec. destruct (IH _ _ Hrec) as (Hle & (w' & Hw' & Heq) & Hfirst).
    split_and!; [lia| |].
    + exists w'. split; [|done].
      replace (k - n)%nat with (S (k - S n)) by lia. done.
    + intros [|k'] w'' Hk' Hlook.
      * simpl in Hlook. by injection Hlook as <-.
      * apply (Hfirst k'); [lia|done].
Qed.

Lemma index_total (w : Automapper.Word) (words : list Automapper.Word) :
  w ∈ words → is_Some (Automapper.index words w).
Proof.
  unfold Automapper.index. generalize 0%nat. 
  induction words as [|w0 words IH]; intros n Hin; simpl.
  - by apply elem_of_nil in Hin.
  - destruct (Automapper.word_eqb w0 w) eqn:E; [done|].
    apply elem_of_cons in Hin as [->|Hin].
    + by rewrite word_eqb_refl in E.
    + by apply IH.
Qed.

Section duplicate_facts.
Context (rect_union : Automapper.Rect → Automapper.Rect → Automapper.Rect).
Context (location_key : Q → Q → string).
Context (fault_at : nat → Automapper.Candidate → Automapper.fault).

Lemma sorted_lines_words y_tolerance words line :
  line ∈ Automapper.sorted_lines y_tolerance words → line ⊆ words.
Proof.
  unfold Automapper.sorted_lines, Automapper.group_lines. intros Hline.
  apply list_elem_of_fmap in Hline as (l0 & -> & Hl0).
  pose proof (split_runs_ok (Automapper.same_line y_tolerance) words)
    as (Hcat & _ & _).
  intros w Hw. unfold Automapper.sort_line in Hw.
  rewrite py_sorted_perm in Hw. rewrite <- Hcat.
  apply list_elem_of_In, in_concat. exists l0.
  split; by apply list_elem_of_In.
Qed.

Lemma potential_phrases_indices y_tolerance words c :
  c ∈ Automapper.potential_phrases rect_union y_tolerance words →
  first_positions words c
  ∧ length (Automapper.word_indices c) = Automapper.phrase_length c.
Proof.
  unfold Automapper.potential_phrases. rewrite py_sorted_perm. intros H.
  apply list_elem_of_bind in H as ([line_idx line] & H & Hline).
  assert (line ⊆ words) as Hsub.
  { apply (sorted_lines_words y_tolerance).
    apply enumerate_lookup in Hline. by eapply list_elem_of_lookup_2. }
  simpl in H. apply line_candidates_elem in H as (len & i & -> & Hlen & Hi).
  unfold first_positions. simpl.
  set (slice := take len (drop i line)).
  assert (slice ⊆ words) as Hslice.
  { intros w Hw. apply Hsub. unfold slice in Hw.
    eapply elem_of_sublist; [|apply sublist_drop].
    eapply elem_of_sublist; [exact Hw|apply sublist_take]. }
  assert (length slice = len) as Hlen'.
  { unfold slice. rewrite length_take, length_drop. lia. }
  split.
  - apply Forall_forall. intros k Hk.
    apply list_elem_of_omap in Hk as (w & _ & Hw). by exists w.
  - rewrite <- Hlen'. clear Hlen'. 
    induction slice as [|w slice IH]; [done|]. simpl.
    destruct (index_total w words) as [k Hk]; [apply Hslice; left|].
    rewrite Hk. simpl. f_equal. apply IH. intros w' Hw'. apply Hslice.
    by right.
Qed.

Lemma process_page_first_positions words locations radius :
  Forall (first_positions words)
    (Automapper.annotated
       (Automapper.process_page rect_union location_key fault_at words
          locations radius)).
Proof.
  unfold Automapper.process_page. generalize (range_down 10 0). intros passes.
  set (st0 := Automapper.Build_State _ _ _ _ _ _ _).
  assert (Forall (first_positions words) (Automapper.annotated st0)) as Hinit
    by done.
  revert Hinit. generalize st0.
  induction passes as [|y_tol passes IH]; intros st Hinv; [done|].
  simpl. apply IH. unfold Automapper.pass.
  destruct (Automapper.raised st); [done|].
  apply annotate_all_from; [done|].
  apply Forall_forall. intros c Hc.
  by apply potential_phrases_indices in Hc as [? _].
Qed.

End duplicate_facts.

(** A word tuple that occurs twice on a page is consumed at its first
    position only: [words.index] never gives the later position, which is
    therefore never marked used and, when the page is processed to the end,
    is among the unmatched words.  And since every word of a line is a word
    of the page, [words.index] never raises: a candidate has as many word
    indices as words. *)
Theorem duplicate_word_unmatched
    (rect_union : Automapper.Rect → Automapper.Rect → Automapper.Rect)
    (location_key : Q → Q → string)
    (fault_at : nat → Automapper.Candidate → Automapper.fault)
    (words : list Automapper.Word) (locations : gset string)
    (radius : option Q) :
  let st := Automapper.process_page rect_union location_key fault_at words
              locations radius in
  (∀ i j wi wj, (i < j)%nat → words !! i = Some wi → words !! j = Some wj →
     Automapper.word_eqb wi wj = true →
     (j ∉ Automapper.page_used_word_indices st)
     ∧ (Automapper.raised st = false →
        ∃ rest, Automapper.unmatched_indices words st = Some rest
          ∧ j ∈ rest))
  ∧ (∀ y_tolerance c,
       c ∈ Automapper.potential_phrases rect_union y_tolerance words →
       length (Automapper.word_indices c) = Automapper.phrase_length c).
Proof.
  intros st. split.
  - intros i j wi wj Hij Hi Hj Heq.
    assert (j ∉ Automapper.page_used_word_indices st) as Hnot.
    { intros Hused.
      pose proof (process_page_inv rect_union location_key fault_at words
                    locations radius) as [_ Hcover].
      fold st in Hcover. apply Hcover in Hused as (I & HI & HjI).
      apply list_elem_of_fmap in HI as (c & -> & Hc).
      pose proof (process_page_first_positions rect_union location_key
                    fault_at words locations radius) as Hfirst.
      fold st in Hfirst. rewrite Forall_forall in Hfirst.
      specialize (Hfirst c Hc). unfold first_positions in Hfirst.
      rewrite Forall_forall in Hfirst.
      destruct (Hfirst j HjI) as (w & Hw).
      apply index_from_spec in Hw as (_ & (w' & Hw' & Hw'eq) & Hbefore).
      rewrite Nat.sub_0_r in Hw', Hbefore.
      assert (w' = wj) as -> by congruence.
      pose proof (Hbefore i wi Hij Hi) as Hneq.
      rewrite (word_eqb_trans wi wj w) in Hneq; done. }
    split; [done|]. intros Hst.
    unfold Automapper.unmatched_indices. rewrite Hst. eexists.
    split; [done|]. unfold unmatched.
    apply elem_of_difference. split; [|done].
    apply elem_of_set_seq. apply lookup_lt_Some in Hj. lia.
  - intros y_tolerance c Hc.
    by apply (potential_phrases_indices rect_union) in Hc as [_ ?].
Qed.

(** ** The cache of sign data *)

Lemma returned_snoc calls c :
  Cache.returned (calls ++ [c])
  = Cache.returned calls
    ++ match c.2 with Some _ => [c.1] | None => [] end.
Proof.
  unfold Cache.returned. rewrite omap_app. f_equal. simpl.
  by destruct (c.2).
Qed.

Lemma cache_classify answer st phrase :
  Cache.cache_inv st →
  let out := Cache.classify answer st phrase in
  Cache.cache_inv out.1 ∧ Cache.extends st out.1
  ∧ ∀ d, out.2 = Some d → Cache.llm_cache out.1 !! phrase = Some d.
Proof.
  intros Hinv. pose proof Hinv as (Hnd & Hdom & Hin). unfold Cache.classify.
  destruct (Cache.llm_cache st !! phrase) as [d|] eqn:Hget; simpl.
  { split_and!; [done|by intros ?|]. intros d' [= <-]. done. }
  assert (phrase ∉ Cache.returned (Cache.calls st)) as Hnew.
  { intros H. apply Hdom in H. rewrite Hget in H. by destruct H. }
  destruct (answer _ phrase) as [d|]; simpl.
  - split_and!.
    + split_and!; simpl.
      * rewrite returned_snoc. simpl. apply NoDup_app.
        split_and!; [done| |apply NoDup_singleton].
        intros p Hp Hp'. apply list_elem_of_singleton in Hp' as ->. done.
      * intros p. rewrite returned_snoc. simpl.
        rewrite elem_of_app, list_elem_of_singleton.
        destruct (decide (p = phrase)) as [->|Hne].
        -- rewrite lookup_insert_eq. split; [by eexists|by right].
        -- rewrite lookup_insert_ne by done. rewrite Hdom. tauto.
      * intros p d'. rewrite elem_of_app, list_elem_of_singleton.
        destruct (decide (p = phrase)) as [->|Hne].
        -- rewrite lookup_insert_eq. intros [= <-]. by right.
        -- rewrite lookup_insert_ne by done. intros H. left. by apply Hin.
    + intros p d' Hp. simpl.
      destruct (decide (p = phrase)) as [->|Hne]; [congruence|].
      by rewrite lookup_insert_ne.
    + intros d' [= <-]. by rewrite lookup_insert_eq.
  - split_and!; [|by intros ?|done].
    split_and!; simpl.
    + rewrite returned_snoc. simpl. by rewrite app_nil_r.
    + intros p. rewrite returned_snoc. simpl. rewrite app_nil_r. apply Hdom.
    + intros p d' H. rewrite elem_of_app. left. by apply Hin.
Qed.

Lemma cache_classify_file answer phrases : ∀ st,
  Cache.cache_inv st →
  let out := Cache.classify_file answer st phrases in
  Cache.cache_inv out.1 ∧ Cache.extends st out.1
  ∧ (out.2.*1 `prefix_of` phrases)
  ∧ ∀ p d, (p, d) ∈ out.2 → Cache.llm_cache out.1 !! p = Some d.
Proof.
  induction phrases as [|phrase phrases IH]; intros st Hinv; simpl.
  { split_and!; [done|by intros ?|done|].
    intros p d H. by apply elem_of_nil in H. }
  destruct (cache_classify answer st phrase Hinv) as (H1 & H2 & H3).
  destruct (Cache.classify answer st phrase) as [st' [d|]]; simpl in *.
  - destruct (IH st' H1) as (I1 & I2 & I3 & I4).
    split_and!; [done| | |].
    + intros p d' Hp. by apply I2, H2.
    + by apply prefix_cons.
    + intros p d' [[= -> ->]|Hp]%elem_of_cons; [|by apply I4].
      apply I2, H3. done.
  - split_and!; [done|done|apply prefix_nil|].
    intros p d H. by apply elem_of_nil in H.
Qed.

Lemma cache_classify_files answer files : ∀ st,
  Cache.cache_inv st →
  let out := Cache.classify_files answer st files in
  Cache.cache_inv out.1 ∧ Cache.extends st out.1
  ∧ Forall2 (λ classified phrases, classified.*1 `prefix_of` phrases)
      out.2 files
  ∧ ∀ p d, (p, d) ∈ concat out.2 → Cache.llm_cache out.1 !! p = Some d.
Proof.
  induction files as [|phrases files IH]; intros st Hinv; simpl.
  { split_and!; [done|by intros ?|constructor|].
    intros p d H. by apply elem_of_nil in H. }
  destruct (cache_classify_file answer phrases st Hinv) as (H1 & H2 & H3 & H4).
  destruct (IH _ H1) as (I1 & I2 & I3 & I4).
  split_and!; [done| | |].
  - intros p d Hp. by apply I2, H2.
  - by constructor.
  - intros p d [Hp|Hp]%elem_of_app; [|by apply I4].
    by apply I2, H4.
Qed.

(** The cache of sign data in [process_all_pdfs]: over the whole run no phrase
    text gets two answers from [query_llm] (a call that raised apart), every
    classified phrase carries what the one returned call for its text gave,
    so two occurrences of a text never differ, and the classified phrases of
    a file are a prefix of its accepted phrases. *)
Theorem llm_cache_one_answer (answer : nat → string → option LLM.SignData)
    (files : list (list string)) :
  let out := Cache.classify_files answer Cache.initial files in
  NoDup (Cache.returned (Cache.calls out.1))
  ∧ (∀ p d, (p, d) ∈ concat out.2 → (p, Some d) ∈ Cache.calls out.1)
  ∧ (∀ p d d', (p, d) ∈ concat out.2 → (p, d') ∈ concat out.2 → d = d')
  ∧ Forall2 (λ classified phrases, classified.*1 `prefix_of` phrases)
      out.2 files.
Proof.
  intros out.
  destruct (cache_classify_files answer files Cache.initial)
    as ((H1 & H2 & H3) & _ & H5 & H6).
  { split_and!; simpl.
    - constructor.
    - intros p. rewrite lookup_empty. split; [intros H|intros [? ?]].
      + by apply elem_of_nil in H.
      + done.
    - intros p d. by rewrite lookup_empty. }
  fold out in H1, H2, H3, H5, H6.
  split_and!; [done| | |done].
  - intros p d Hp. by apply H3, H6.
  - intros p d d' Hp Hp'. apply H6 in Hp, Hp'. congruence.
Qed.
